(** * crypton: the GOST 28147-89 engine [Cryptographer], the synchro check,
      the draws and the bit frequency test of [RandomGen], and the characters
      of [PasswordGen], embedded from cryptographer.cpp, randomgen.cpp and
      passwordgen.cpp.

    Conventions of the embedding.
    - [uint8], [uint32], [uint64] values are integers of [Z]; every store
      into a variable of one of these types writes the wrap-around out
      ([uint8], [uint32], [uint64] below).
    - A byte buffer [uint8 *_data] of [_size] bytes is a [list byte] whose
      length is [_size]; the loop index [i] is a [nat] addressing it (the
      sizes are those a [uint32] index steps through without wrapping).
    - [memcpy] between a buffer and a [uint64] object uses the little-endian
      object representation of the x86 targets the library is built for
      ([le_split 8], [le_combine]).
    - A [for]/[do-while] loop over the buffer is [while] with a bound on the
      number of iterations; every bound used below is shown to be enough.
    - [S] cannot be bound by a pattern (it is the successor of [nat]), so the
      local copies of the synchro [S] are written [S_]. *)

From Stdlib Require Import ZArith List Lia Bool QArith.
From coqutil Require Import Byte Word.LittleEndianList Z.bitblast Datatypes.List.
From Stdlib Require String.
Import (notations) Stdlib.Strings.String.
Import ListNotations.
Local Open Scope Z_scope.

(** ** Machine integers and memory *)

Definition uint8 (z : Z) : Z := z mod 2 ^ 8.
Definition uint32 (z : Z) : Z := z mod 2 ^ 32.
Definition uint64 (z : Z) : Z := z mod 2 ^ 64.

(** [const uint8 byteSize = 8;] and [sizeof(uint32)], [sizeof(uint64)]. *)
Definition byteSize : Z := 8.
Definition sizeof_uint32 : Z := 4.
Definition sizeof_uint64 : nat := 8.

(** [memcpy(dst + d, src + s, n)] on byte lists. *)
Definition memcpy (dst : list byte) (d : nat) (src : list byte) (s n : nat)
  : list byte :=
  firstn d dst ++ firstn n (skipn s src) ++ skipn (d + n) dst.

(** [memcpy(&block, &_data[i], n)]: the first [n] bytes of the object
    [block] are replaced, the others keep their value.  With
    [n = sizeof(block)] the whole object is replaced, and the value given
    for an uninitialised [block] (0 below) does not matter. *)
Definition load_block (block : Z) (_data : list byte) (i n : nat) : Z :=
  le_combine (memcpy (le_split sizeof_uint64 block) 0 _data i n).

(** [memcpy(&_data[i], &block, n)]. *)
Definition store_block (_data : list byte) (i : nat) (block : Z) (n : nat)
  : list byte :=
  memcpy _data i (le_split sizeof_uint64 block) 0 n.

(** A loop [while (cond) body] run for at most [fuel] iterations. *)
Fixpoint while {St : Type} (fuel : nat) (cond : St -> bool) (body : St -> St)
  (st : St) : St :=
  match fuel with
  | O => st
  | S fuel' => if cond st then while fuel' cond body (body st) else st
  end.

(** [for (j = 0; j < n; j++)] and [for (j = n - 1; j >= 0; j--)] over a
    constant range, as the list of the values [j] takes. *)
Definition upto (n : nat) : list Z := map Z.of_nat (seq 0 n).
Definition downfrom (n : nat) : list Z := rev (upto n).
Definition for_each {A : Type} (js : list Z) (body : A -> Z -> A) (a : A) : A :=
  fold_left body js a.

(** ** class Cryptographer *)

Module Cryptographer.

(** [uint32 m_key[8]; uint8 m_replace_table[8][16];] *)
Record t : Type := mk {
  m_key : list Z;
  m_replace_table : list (list Z)
}.

Definition key_at (cr : t) (k : Z) : Z := nth (Z.to_nat k) (m_key cr) 0.
Definition table_at (cr : t) (i j : Z) : Z :=
  nth (Z.to_nat j) (nth (Z.to_nat i) (m_replace_table cr) []) 0.

(** [uint64 pow(uint64 n, uint8 p) { return (n << p); }] *)
Definition pow (n p : Z) : Z := uint64 (Z.shiftl n p).

(** [uint64 pow2(uint8 p) { return ((uint64)1 << p); }] *)
Definition pow2 (p : Z) : Z := uint64 (Z.shiftl 1 p).

Definition mask : list Z :=
  [0x0000000f; 0x000000f0; 0x00000f00; 0x0000f000;
   0x000f0000; 0x00f00000; 0x0f000000; 0xf0000000].

(** [uint64 mainStep(uint64 _data, uint8 _key_num)].  The table entry is
    promoted to [int] before the shift and the sum is stored into the
    [uint32 tmp_res], so only its value modulo 2^32 is kept. *)
Definition mainStep (cr : t) (_data _key_num : Z) : Z :=
  let N1 := uint32 (Z.land _data 0x00000000ffffffff) in
  let N2 := uint32 (Z.shiftr (Z.land _data 0xffffffff00000000)
                             (sizeof_uint32 * byteSize)) in
  let S := uint32 ((N1 + key_at cr _key_num)
                   mod (pow2 (sizeof_uint32 * byteSize) - 1)) in
  let tmp_res :=
    for_each (upto 8)
      (fun tmp_res i =>
         let Si := uint8 (Z.shiftr (Z.land S (nth (Z.to_nat i) mask 0)) (i * 4)) in
         uint32 (tmp_res + Z.shiftl (table_at cr i Si) (i * 4)))
      0 in
  let S := uint32 (Z.lor (Z.shiftr tmp_res (sizeof_uint32 * byteSize - 11))
                         (uint32 (Z.shiftl tmp_res 11))) in
  let S := Z.lxor S N2 in
  let tmp_N1 := N1 in
  let res := Z.lor (uint64 (Z.shiftl tmp_N1 (sizeof_uint32 * byteSize))) S in
  res.

(** [uint64 cycle_32Z(uint64 _data)] *)
Definition cycle_32Z (cr : t) (_data : Z) : Z :=
  let data := _data in
  let data :=
    for_each (upto 3)
      (fun data _ => for_each (upto 8) (fun data j => mainStep cr data j) data)
      data in
  let data := for_each (downfrom 8) (fun data j => mainStep cr data j) data in
  let N1 := uint32 (Z.land data 0x00000000ffffffff) in
  let N2 := uint32 (Z.shiftr (Z.land data 0xffffffff00000000)
                             (sizeof_uint32 * byteSize)) in
  let res := Z.lor (pow N1 (sizeof_uint32 * byteSize)) N2 in
  res.

(** [uint64 cycle_32R(uint64 _data)] *)
Definition cycle_32R (cr : t) (_data : Z) : Z :=
  let data := _data in
  let data := for_each (upto 8) (fun data j => mainStep cr data j) data in
  let data :=
    for_each (upto 3)
      (fun data _ => for_each (downfrom 8) (fun data j => mainStep cr data j) data)
      data in
  let N1 := uint32 (Z.land data 0x00000000ffffffff) in
  let N2 := uint32 (Z.shiftr (Z.land data 0xffffffff00000000)
                             (sizeof_uint32 * byteSize)) in
  let res := Z.lor (pow N1 (sizeof_uint32 * byteSize)) N2 in
  res.

(** [uint64 cycle_16Z(uint64 _data)] *)
Definition cycle_16Z (cr : t) (_data : Z) : Z :=
  let data := _data in
  let data :=
    for_each (upto 2)
      (fun data _ => for_each (upto 8) (fun data j => mainStep cr data j) data)
      data in
  data.

(** [bool simpleReplace(uint8 *_data, uint32 _size, bool _encoding)]:
    the returned flag and the buffer after the call. *)
Definition simpleReplace (cr : t) (_data : list byte) (_encoding : bool)
  : bool * list byte :=
  let _size := length _data in
  if negb (Nat.eqb (_size mod 8) 0) then (false, _data)
  else
    let '(_data, _) :=
      while _size
        (fun '(_, i) => Nat.ltb i _size)
        (fun '(_data, i) =>
           let block := load_block 0 _data i sizeof_uint64 in
           let block := if _encoding : bool then cycle_32Z cr block
                        else cycle_32R cr block in
           let _data := store_block _data i block sizeof_uint64 in
           (_data, (i + 8)%nat))
        (_data, 0%nat) in
    (true, _data).

(** [bool gamming(uint8 *_data, uint32 _size, uint64 &S)]: the returned
    flag, the buffer and the synchro [S] after the call. *)
Definition gamming (cr : t) (_data : list byte) (S : Z)
  : bool * list byte * Z :=
  let _size := length _data in
  let S_ := cycle_32Z cr S in
  let S0 := uint32 (Z.land S_ 0x00000000ffffffff) in
  let S1 := uint32 (Z.shiftr (Z.land S_ 0xffffffff00000000)
                             (sizeof_uint32 * byteSize)) in
  let C1 := 0x1010101 in
  let C2 := 0x1010104 in
  let '(_data, S_, S0, S1, i) :=
    while _size
      (fun '(_, _, _, _, i) => Nat.ltb (i + 8) _size)
      (fun '(_data, S_, S0, S1, i) =>
         let S0 := uint32 (uint32 (S0 + C1) mod pow2 32) in
         let S1 := uint32 (uint32 (uint32 (S1 + C2) - 1) mod (pow2 32 - 1) + 1) in
         let S_ := Z.lor S0 (uint64 (Z.shiftl S1 (sizeof_uint32 * byteSize))) in
         let block := load_block 0 _data i sizeof_uint64 in
         let block := Z.lxor block (cycle_32Z cr S_) in
         let _data := store_block _data i block sizeof_uint64 in
         (_data, S_, S0, S1, (i + 8)%nat))
      (_data, S_, S0, S1, 0%nat) in
  let tail_size := if Nat.eqb i _size then 0%nat else (_size - i)%nat in
  if negb (Nat.eqb tail_size 0) then
    let block := 0 in
    let block := load_block block _data i tail_size in
    let block := Z.lxor block (cycle_32Z cr S_) in
    let _data := store_block _data i block tail_size in
    (true, _data, S_)
  else (true, _data, S_).

(** [bool gammingWF(uint8 *_data, uint32 _size, uint64 &S, bool _encoding)] *)
Definition gammingWF (cr : t) (_data : list byte) (S : Z) (_encoding : bool)
  : bool * list byte * Z :=
  let _size := length _data in
  let '(_data, S_, i) :=
    while _size
      (fun '(_, _, i) => Nat.ltb (i + 8) _size)
      (fun '(_data, S_, i) =>
         let block := load_block 0 _data i sizeof_uint64 in
         let tmp_block := block in
         let block := Z.lxor block (cycle_32Z cr S_) in
         let _data := store_block _data i block sizeof_uint64 in
         let S_ := if _encoding : bool then block else tmp_block in
         (_data, S_, (i + 8)%nat))
      (_data, S, 0%nat) in
  let tail_size := if Nat.eqb i _size then 0%nat else (_size - i)%nat in
  if negb (Nat.eqb tail_size 0) then
    let block := 0 in
    let block := load_block block _data i tail_size in
    let block := Z.lxor block (cycle_32Z cr S_) in
    let _data := store_block _data i block tail_size in
    (true, _data, S_)
  else (true, _data, S_).

(** [uint32 imiIns(uint8 *_data, uint32 _size)] *)
Definition imiIns (cr : t) (_data : list byte) : Z :=
  let _size := length _data in
  let S_ := 0 in
  let '(S_, i) :=
    while _size
      (fun '(_, i) => Nat.ltb (i + 8) _size)
      (fun '(S_, i) =>
         let block := load_block 0 _data i sizeof_uint64 in
         let S_ := cycle_16Z cr (Z.lxor S_ block) in
         (S_, (i + 8)%nat))
      (S_, 0%nat) in
  let tail_size := if Nat.eqb i _size then 0%nat else (_size - i)%nat in
  let S_ :=
    if negb (Nat.eqb tail_size 0) then
      let block := 0 in
      let block := load_block block _data i tail_size in
      cycle_16Z cr (Z.lxor S_ block)
    else S_ in
  uint32 (Z.land S_ 0x00000000ffffffff).

(** [void init(bool _rand)].  The C library generator is a parameter:
    [srandom seed] is the generator state after seeding and [random g] the
    drawn [long] with the next state; [now] is the value of [time(NULL)].
    [%] on [long] is the truncating remainder [Z.rem]. *)
Section Init.
Variable rng : Type.
Variable srandom : Z -> rng.
Variable random : rng -> Z * rng.

Definition set_key (cr : t) (i : Z) (v : Z) : t :=
  mk (List.upd (m_key cr) (Z.to_nat i) v) (m_replace_table cr).

Definition set_table (cr : t) (i j : Z) (v : Z) : t :=
  mk (m_key cr)
     (List.upd (m_replace_table cr) (Z.to_nat i)
        (List.upd (nth (Z.to_nat i) (m_replace_table cr) []) (Z.to_nat j) v)).

Definition init (cr : t) (now : Z) (_rand : bool) : t * rng :=
  let g := if _rand then srandom now else srandom 0 in
  for_each (upto 8)
    (fun '(cr, g) i =>
       let '(r, g) := random g in
       let cr := set_key cr i (uint32 (Z.rem r 0xffffffff)) in
       for_each (upto 16)
         (fun '(cr, g) j =>
            let '(r, g) := random g in
            (set_table cr i j (uint8 (Z.rem r 0xf)), g))
         (cr, g))
    (cr, g).
End Init.

(** [Cryptographer() : m_key(), m_replace_table()] *)
Definition default : t := mk (repeat 0 8) (repeat (repeat 0 16) 8).

End Cryptographer.

(** ** class RandomGen: the check of the initial synchro, the draws, [test1] *)

Module RandomGen.

(** Modelled from the spec: the declaration of the member [S] of
    [RandomGen] (randomgen.h is not among the sources).  The specification
    makes the synchro a 64-bit state, and the code uses it as one
    ([(uint64)n2 << 32], [sizeof(S) * 8] bits): [uint64 S]. *)
Definition sizeof_S : nat := sizeof_uint64.

(** Wrap-around of a value stored into an [int]. *)
Definition int32 (z : Z) : Z := (z + 2 ^ 31) mod 2 ^ 32 - 2 ^ 31.

(** [bool isCurrentS() const], reading the member [uint64 S].  In
    [S & (1 << i)] the shift is done on the [int] constant [1] and its result
    is converted to [uint64] for the [&]; C++ leaves it undefined for
    [i >= 32], so the shift on [int] is a parameter [shl_int] of the function
    (the instance of the x86 targets follows).  [bound] is [64 * 0.12] as a rational; rounding
    it to [float] keeps it strictly between 7 and 8, which is all that the two
    comparisons with the integer [diff] depend on. *)
Section IsCurrentS.
Variable shl_int : Z -> Z -> Z.

Definition isCurrentS (S : Z) : bool :=
  let zero := 0 in
  let S_bits_size := uint8 (Z.of_nat sizeof_S * 8) in
  let zero :=
    for_each (upto (Z.to_nat S_bits_size))
      (fun zero i =>
         if negb (Z.land S (uint64 (shl_int 1 i)) =? 0) then uint8 (zero + 1)
         else zero)
      zero in
  let bound : Q := (inject_Z S_bits_size * 0.12)%Q in
  let diff := uint8 (zero - (S_bits_size - zero)) in
  if Qle_bool bound (inject_Z diff) || Qle_bool (inject_Z diff) (- bound)
  then false
  else true.
End IsCurrentS.

(** The shift as the x86 [shl] instruction on a 32-bit register computes it:
    the count is taken modulo 32.  For [0 <= n < 32] this is the value C++
    defines. *)
Definition shl_int_x86 (a n : Z) : Z := int32 (Z.shiftl a (n mod 32)).

(** The members the draws use.  Modelled from their uses in randomgen.cpp
    (randomgen.h is not among the sources): [rand_seq] is an array of bytes,
    passed to [gammingWF] and read by index, and [sizeof(rand_seq)] is the
    length of the list; [curr_pos] is an index into it, compared with
    [sizeof(rand_seq)] and stepped by one.  [others] stands for all that
    [createNewRandSequence] reads and writes besides: the members [S], [cr]
    and [initialized], the state of [random()] and of /dev/urandom. *)
Record state (W : Type) := mk_state {
  rand_seq : list byte;
  curr_pos : nat;
  others : W
}.
Arguments mk_state {W}.
Arguments rand_seq {W}.
Arguments curr_pos {W}.
Arguments others {W}.

Definition sizeof_rand_seq {W : Type} (st : state W) : nat :=
  length (rand_seq st).

(** [createNewRandSequence()] reads /dev/urandom and repeats until the
    three tests pass: it is a parameter of the draws. *)
Section NextInt.
Context {W : Type}.
Variable createNewRandSequence : state W -> state W.

(** [uint8 nextInt8()].  A read of [rand_seq] past its end, which only a
    [createNewRandSequence] leaving [curr_pos] out of range could cause, has
    no meaning in C++; the model reads 0 there. *)
Definition nextInt8 (st : state W) : Z * state W :=
  let st :=
    if Nat.eqb (curr_pos st) (sizeof_rand_seq st)
    then createNewRandSequence st else st in
  let res := byte.unsigned (nth (curr_pos st) (rand_seq st) Byte.x00) in
  (res, mk_state (rand_seq st) (S (curr_pos st)) (others st)).

(** [uint32 nextInt32()]: [res |= (uint32)nextInt8() << (i * byteSize)] for
    [i] from 0 to [sizeof(res) - 1]. *)
Definition nextInt32 (st : state W) : Z * state W :=
  let res := 0 in
  for_each (upto (Z.to_nat sizeof_uint32))
    (fun '(res, st) i =>
       let '(b, st) := nextInt8 st in
       (Z.lor res (uint32 (Z.shiftl (uint32 b) (i * byteSize))), st))
    (res, st).

(** [uint64 nextInt64()]. *)
Definition nextInt64 (st : state W) : Z * state W :=
  let res := 0 in
  for_each (upto sizeof_uint64)
    (fun '(res, st) i =>
       let '(b, st) := nextInt8 st in
       (Z.lor res (uint64 (Z.shiftl (uint64 b) (i * byteSize))), st))
    (res, st).
End NextInt.

(** [bool test1() const], the frequency of the bits.  [1 << (i % byteSize)]
    shifts by at most 7. *)
Definition test1 {W : Type} (st : state W) : bool :=
  let begin_min_count := 9725 in
  let begin_max_count := 10275 in
  let seq_bits_size := uint32 (Z.of_nat (sizeof_rand_seq st) * byteSize) in
  let zero := 0 in
  let zero :=
    for_each (upto (Z.to_nat seq_bits_size))
      (fun zero i =>
         if negb (Z.land
                    (byte.unsigned
                       (nth (Z.to_nat (i / byteSize)) (rand_seq st) Byte.x00))
                    (Z.shiftl 1 (i mod byteSize)) =? 0)
         then uint32 (zero + 1)
         else zero)
      zero in
  let res := false in
  if (begin_min_count <=? zero) && (zero <=? begin_max_count) then true
  else res.

End RandomGen.

(** ** class PasswordGen: the characters of a password sequence *)

Module PasswordGen.

(** [char PasswordGen::alphabeth[] = "0123...XYZ";]: the characters are
    bytes; the terminating zero byte is left out, so that [strlen] is the
    length of the list. *)
Definition alphabeth : list byte :=
  String.list_byte_of_string
    "0123456789abcdefghijklmnopqrstuvwxyzABCDEFGHIJKLMNOPQRSTUVWXYZ"%string.

Definition strlen (s : list byte) : Z := Z.of_nat (length s).

(** [seq_len(strlen(alphabeth) < 100 ? 1200 : 2400)] *)
Definition seq_len : Z := if strlen alphabeth <? 100 then 1200 else 2400.

(** The character stored for a drawn byte:
    [alphabeth[rg.nextInt8() % strlen(alphabeth)]]. *)
Definition alphabeth_at (b : Z) : byte :=
  nth (Z.to_nat (b mod strlen alphabeth)) alphabeth Byte.x00.

(** One pass of the [for] loop of [createNewPasswordSeq()] over
    [password_seq], drawing from the generator [rg]. *)
Section Fill.
Context {W : Type}.
Variable createNewRandSequence : RandomGen.state W -> RandomGen.state W.

Definition fill (password_seq : list byte) (rg : RandomGen.state W)
  : list byte * RandomGen.state W :=
  for_each (upto (Z.to_nat seq_len))
    (fun '(password_seq, rg) i =>
       let '(b, rg) := RandomGen.nextInt8 createNewRandSequence rg in
       (List.upd password_seq (Z.to_nat i) (alphabeth_at b), rg))
    (password_seq, rg).
End Fill.

(** The members of a [PasswordGen]: [char *password_seq], the position
    [uint32 curr_pos] in it and the generator [rg]; the member [seq_len] is
    set to the constant above by the constructor and is never changed. *)
Record state (W : Type) := mk_state {
  password_seq : list byte;
  curr_pos : Z;
  rg : RandomGen.state W
}.
Arguments mk_state {W}.
Arguments password_seq {W}.
Arguments curr_pos {W}.
Arguments rg {W}.

(** [createNewPasswordSeq()] repeats the pass [fill] until the floating
    point [test()] passes: it is a parameter of [getChar]. *)
Section NextPassword.
Context {W : Type}.
Variable createNewPasswordSeq : state W -> state W.

(** [char getChar()] *)
Definition getChar (st : state W) : byte * state W :=
  let st := if curr_pos st =? seq_len then createNewPasswordSeq st else st in
  let res := nth (Z.to_nat (curr_pos st)) (password_seq st) Byte.x00 in
  (res, mk_state (password_seq st) (uint32 (curr_pos st + 1)) (rg st)).

(** [char *nextPassword(uint32 password_len)], for an allocation that
    succeeds: the result is the array of [password_len + 1] characters.  A
    write past its end, which needs [password_len + 1] to wrap around, has
    no meaning in C++; the model drops it. *)
Definition nextPassword (st : state W) (password_len : Z)
  : list byte * state W :=
  let res := repeat Byte.x00 (Z.to_nat (uint32 (password_len + 1))) in
  for_each (upto (Z.to_nat password_len))
    (fun '(res, st) i =>
       let '(c, st) := getChar st in
       (List.upd res (Z.to_nat i) c, st))
    (res, st).
End NextPassword.

End PasswordGen.

(** ** Definitions used to state and prove the properties *)

(** The halves of a 64-bit block as the code extracts them, and the value
    [mainStep] computes from [N1] before the XOR with [N2] (steps 1 to 3). *)
Definition lo (data : Z) : Z := uint32 (Z.land data 0x00000000ffffffff).
Definition hi (data : Z) : Z :=
  uint32 (Z.shiftr (Z.land data 0xffffffff00000000) (sizeof_uint32 * byteSize)).

Definition round_f (cr : Cryptographer.t) (k N1 : Z) : Z :=
  let S := uint32 ((N1 + Cryptographer.key_at cr k)
                   mod (Cryptographer.pow2 (sizeof_uint32 * byteSize) - 1)) in
  let tmp_res :=
    for_each (upto 8)
      (fun tmp_res i =>
         let Si := uint8 (Z.shiftr (Z.land S (nth (Z.to_nat i) Cryptographer.mask 0))
                                   (i * 4)) in
         uint32 (tmp_res + Z.shiftl (Cryptographer.table_at cr i Si) (i * 4)))
      0 in
  uint32 (Z.lor (Z.shiftr tmp_res (sizeof_uint32 * byteSize - 11))
                (uint32 (Z.shiftl tmp_res 11))).

(** One round on the pair (low half, high half), and a run of rounds over a
    list of key-word indices. *)
Definition round (cr : Cryptographer.t) (k : Z) (p : Z * Z) : Z * Z :=
  (Z.lxor (round_f cr k (fst p)) (snd p), fst p).
Definition rounds (cr : Cryptographer.t) (ks : list Z) (p : Z * Z) : Z * Z :=
  fold_left (fun p k => round cr k p) ks p.
Definition halves (data : Z) : Z * Z := (lo data, hi data).
Definition join (p : Z * Z) : Z := Z.lor (Z.shiftl (snd p) 32) (fst p).
Definition swap (p : Z * Z) : Z * Z := (snd p, fst p).

Definition in_range (p : Z * Z) : Prop :=
  0 <= fst p < 2 ^ 32 /\ 0 <= snd p < 2 ^ 32.

(** A run of [mainStep] over a list of key-word indices. *)
Definition steps (cr : Cryptographer.t) (ks : list Z) (d : Z) : Z :=
  fold_left (fun data j => Cryptographer.mainStep cr data j) ks d.

Definition keys_32Z : list Z := upto 8 ++ upto 8 ++ upto 8 ++ downfrom 8.
Definition keys_32R : list Z := upto 8 ++ downfrom 8 ++ downfrom 8 ++ downfrom 8.
Definition keys_16Z : list Z := upto 8 ++ upto 8.

(** The round as the specification words it: exact addition modulo
    [2^32 - 1], nibble-wise substitution, reassembly, rotation by 11. *)
Module RoundSpec.
Definition nibble (x i : Z) : Z := (x / 16 ^ i) mod 16.
Definition substitute (cr : Cryptographer.t) (sum : Z) : Z :=
  fold_right Z.add 0
    (map (fun i => Cryptographer.table_at cr i (nibble sum i) * 16 ^ i) (upto 8)).
Definition rotl32 (x n : Z) : Z := (x * 2 ^ n) mod 2 ^ 32 + x / 2 ^ (32 - n).
Definition mainStep (cr : Cryptographer.t) (N1 N2 k : Z) : Z :=
  let sum := (N1 + Cryptographer.key_at cr k) mod (2 ^ 32 - 1) in
  let R := rotl32 (substitute cr sum) 11 in
  Z.lor (Z.shiftl N1 32) (Z.lxor R N2).
End RoundSpec.

Definition nibble_table (cr : Cryptographer.t) : Prop :=
  Forall (Forall (fun v => 0 <= v <= 15)) (Cryptographer.m_replace_table cr).

(** The key and table of the specification's end-to-end example. *)
Definition cr_example : Cryptographer.t :=
  Cryptographer.mk [1; 2; 3; 4; 5; 6; 7; 8] (repeat (upto 16) 8).

(** The loops over the buffer, block by block.  [block_body f] is the body
    shared by the loops of the four modes: the block at [i] is loaded, [f]
    gives the block to store and the next value of the other loop variables
    [a], and [i] advances by 8. *)
Section BlockLoops.
Context {A : Type}.
Variable f : A -> Z -> Z * A.

Definition block_body (st : list byte * A * nat) : list byte * A * nat :=
  let '(_data, a, i) := st in
  let block := load_block 0 _data i sizeof_uint64 in
  let '(block, a) := f a block in
  let _data := store_block _data i block sizeof_uint64 in
  (_data, a, (i + 8)%nat).

(** What a loop [for (i = 0; i + 8 < _size; i += 8)] does to the chunks of
    the buffer: every chunk but the last goes through [f]; the last one (up
    to 8 bytes) is left for the code after the loop. *)
Fixpoint stream_blocks (bs : list (list byte)) (a : A)
  : list byte * A * list byte :=
  match bs with
  | [] => ([], a, [])
  | b :: bs' =>
      match bs' with
      | [] => ([], a, b)
      | _ :: _ =>
          let '(c, a') := f a (le_combine b) in
          let '(out, a'', t) := stream_blocks bs' a' in
          (le_split 8 c ++ out, a'', t)
      end
  end.

(** What a loop [for (i = 0; i < _size; i += 8)] does to the chunks. *)
Fixpoint all_blocks (bs : list (list byte)) (a : A) : list byte * A :=
  match bs with
  | [] => ([], a)
  | b :: bs' =>
      let '(c, a') := f a (le_combine b) in
      let '(out, a'') := all_blocks bs' a' in
      (le_split 8 c ++ out, a'')
  end.
End BlockLoops.

(** The four loop bodies as functions of a block. *)
Definition f_simple (cr : Cryptographer.t) (_encoding : bool)
  (_ : unit) (block : Z) : Z * unit :=
  ((if _encoding then Cryptographer.cycle_32Z cr block
    else Cryptographer.cycle_32R cr block), tt).

Definition f_gammingWF (cr : Cryptographer.t) (_encoding : bool)
  (S_ : Z) (block : Z) : Z * Z :=
  let tmp_block := block in
  let block := Z.lxor block (Cryptographer.cycle_32Z cr S_) in
  (block, if _encoding then block else tmp_block).

(** The counters of [gamming] after one more step. *)
Definition next_S0 (S0 : Z) : Z :=
  uint32 (uint32 (S0 + 0x1010101) mod Cryptographer.pow2 32).
Definition next_S1 (S1 : Z) : Z :=
  uint32 (uint32 (uint32 (S1 + 0x1010104) - 1)
          mod (Cryptographer.pow2 32 - 1) + 1).
Definition recombine (S0 S1 : Z) : Z :=
  Z.lor S0 (uint64 (Z.shiftl S1 (sizeof_uint32 * byteSize))).

Definition f_gamming (cr : Cryptographer.t) (a : Z * Z * Z) (block : Z)
  : Z * (Z * Z * Z) :=
  let '(_, S0, S1) := a in
  let S0 := next_S0 S0 in
  let S1 := next_S1 S1 in
  let S_ := recombine S0 S1 in
  (Z.lxor block (Cryptographer.cycle_32Z cr S_), (S_, S0, S1)).

Definition f_imiIns (cr : Cryptographer.t) (S_ : Z) (block : Z) : Z * Z :=
  (block, Cryptographer.cycle_16Z cr (Z.lxor S_ block)).

(** The code after the loop of the two gamma modes: the last [length t]
    bytes are XORed with the low bytes of [g]. *)
Definition xor_tail (t : list byte) (g : Z) : list byte :=
  le_split (length t) (Z.lxor (le_combine t) g).

(** A gamma mode as a whole: the loop over the chunks, then the code after
    the loop, whose gamma is the encrypt cycle of [tk a]. *)
Definition stream_mode {A : Type} (f : A -> Z -> Z * A) (tk : A -> Z)
  (data : list byte) (a : A) : list byte * A :=
  let '(out, a', t) := stream_blocks f (List.chunk 8 data) a in
  (out ++ xor_tail t (tk a'), a').

(** The buffer and the synchro [gamming] and [gammingWF] leave. *)
Definition buffer_of (r : bool * list byte * Z) : list byte := snd (fst r).
Definition sync_of (r : bool * list byte * Z) : Z := snd r.

(** The [n]-th 8-byte step of a buffer (shorter, or empty, at the end). *)
Definition nth_chunk (n : nat) (buf : list byte) : list byte :=
  firstn 8 (skipn (8 * n) buf).

(** The synchro among the loop variables [(S, S0, S1)] of [gamming]. *)
Definition tk_gamming (a : Z * Z * Z) : Z := let '(s, _, _) := a in s.

(** The buffer [simpleReplace] leaves when the size is a multiple of 8. *)
Definition simple_blocks (cr : Cryptographer.t) (_encoding : bool)
  (data : list byte) : list byte :=
  fst (all_blocks (f_simple cr _encoding) (List.chunk 8 data) tt).

(** A 16-byte buffer with 16 different bytes. *)
Definition sixteen_bytes : list byte :=
  [Byte.x01; Byte.x02; Byte.x03; Byte.x04; Byte.x05; Byte.x06; Byte.x07; Byte.x08;
   Byte.x09; Byte.x0a; Byte.x0b; Byte.x0c; Byte.x0d; Byte.x0e; Byte.x0f; Byte.x10].

(** The MAC as the specification words it: a fold over the 8-byte chunks of
    the buffer, the last one padded with zero bytes, from a zero
    accumulator; [reducedCycle] is 16 rounds, two forward passes over the
    key words 0..7, with no exchange of the halves at the end. *)
Module MacSpec.
Definition reducedCycle (cr : Cryptographer.t) (block : Z) : Z :=
  fold_left (fun data k => Cryptographer.mainStep cr data k)
            ([0; 1; 2; 3; 4; 5; 6; 7] ++ [0; 1; 2; 3; 4; 5; 6; 7]) block.
Definition pad8 (blk : list byte) : list byte :=
  blk ++ repeat Byte.x00 (8 - length blk).
Definition accumulate (cr : Cryptographer.t) (data : list byte) : Z :=
  fold_left
    (fun accumulator blk =>
       reducedCycle cr (Z.lxor accumulator (le_combine (pad8 blk))))
    (List.chunk 8 data) 0.
Definition computeMAC (cr : Cryptographer.t) (data : list byte) : Z :=
  accumulate cr data mod 2 ^ 32.
End MacSpec.

(** The draws of the C library generator: the state after [n] calls of
    [random], and the value the next call returns. *)
Section Draws.
Variable rng : Type.
Variable random : rng -> Z * rng.

Fixpoint advance (n : nat) (g : rng) : rng :=
  match n with
  | O => g
  | S n' => snd (random (advance n' g))
  end.

Definition draw (n : nat) (g : rng) : Z := fst (random (advance n g)).
End Draws.

(** The sizes of the two arrays of a [Cryptographer]. *)
Definition shape (cr : Cryptographer.t) : Prop :=
  length (Cryptographer.m_key cr) = 8%nat /\
  length (Cryptographer.m_replace_table cr) = 8%nat /\
  Forall (fun row => length row = 16%nat) (Cryptographer.m_replace_table cr).

(** A stand-in for the C library generator: a linear congruential
    generator with 31-bit results. *)
Definition lcg_random (g : Z) : Z * Z :=
  let g' := (1103515245 * g + 12345) mod 2 ^ 31 in (g', g').
Definition lcg_srandom (seed : Z) : Z := seed.

(** The table entry [init] stores from the draw number [n]. *)
Definition entry (rng : Type) (random : rng -> Z * rng) (g0 : rng) (n : nat)
  : Z :=
  uint8 (Z.rem (draw rng random n g0) 0xf).

(** After [n] draws, the rows before [i] and the first [j] entries of row
    [i] hold their draws. *)
Definition filled (rng : Type) (random : rng -> Z * rng) (g0 : rng)
  (i j : nat) (n : nat) (st : Cryptographer.t * rng) : Prop :=
  shape (fst st) /\
  snd st = advance rng random n g0 /\
  forall i' j', (j' < 16)%nat -> (i' < i \/ (i' = i /\ j' < j))%nat ->
    Cryptographer.table_at (fst st) (Z.of_nat i') (Z.of_nat j')
    = entry rng random g0 (17 * i' + 1 + j').

(** The number of set bits among the 64 bits of a synchro, and the band the
    specification words: within 12% of half the bit width, that is
    [|popcount - 32| <= 0.12 * 32]. *)
Definition popcount64 (x : Z) : Z :=
  Z.of_nat (length (filter (Z.testbit x) (upto 64))).
Definition bit_balanced (x : Z) : bool :=
  100 * Z.abs (popcount64 x - 32) <=? 12 * 32.

(** The lines of [isCurrentS] after its loop, as a function of the count. *)
Definition accept_count (zero : Z) : bool :=
  let S_bits_size := uint8 (Z.of_nat RandomGen.sizeof_S * 8) in
  let bound : Q := (inject_Z S_bits_size * 0.12)%Q in
  let diff := uint8 (zero - (S_bits_size - zero)) in
  if Qle_bool bound (inject_Z diff) || Qle_bool (inject_Z diff) (- bound)
  then false
  else true.

(** XOR of two buffers byte by byte. *)
Definition byte_xor (x y : byte) : byte :=
  byte.of_Z (Z.lxor (byte.unsigned x) (byte.unsigned y)).
Definition xor_bytes (a b : list byte) : list byte :=
  map (fun p => byte_xor (fst p) (snd p)) (combine a b).

(** ** Definitions for the further properties *)

(** The loop variables [(S, S0, S1)] of [gamming] after one pass of its
    loop body, and the number of passes the loops of the stream modes make
    over a buffer of [n] bytes. *)
Definition gamming_step (a : Z * Z * Z) : Z * Z * Z :=
  let '(_, S0, S1) := a in
  (recombine (next_S0 S0) (next_S1 S1), next_S0 S0, next_S1 S1).
Definition loop_passes (n : nat) : nat := ((n - 1) / 8)%nat.

(** The key word [init] stores from the draw number [n]. *)
Definition key_word (rng : Type) (random : rng -> Z * rng) (g0 : rng)
  (n : nat) : Z :=
  uint32 (Z.rem (draw rng random n g0) 0xffffffff).

(** The key words before [i] hold their draws: the outer loop of [init]
    takes the draw number [17 * i'] for the key word [i']. *)
Definition keyed (rng : Type) (random : rng -> Z * rng) (g0 : rng)
  (i : nat) (cr : Cryptographer.t) : Prop :=
  forall i', (i' < i)%nat ->
    Cryptographer.key_at cr (Z.of_nat i') = key_word rng random g0 (17 * i').

(** The values a row of the table can hold after [init]. *)
Definition row_values : list Z := upto 15.

(** The bit [i] of a byte buffer, counted from the low bit of the first
    byte, the number of set bits of a byte and of a buffer. *)
Definition bit_at (l : list byte) (i : Z) : bool :=
  Z.testbit (byte.unsigned (nth (Z.to_nat (i / 8)) l Byte.x00)) (i mod 8).
Definition byte_ones (b : byte) : Z :=
  Z.of_nat (length (filter (Z.testbit (byte.unsigned b)) (upto 8))).
Definition set_bits (l : list byte) : Z :=
  fold_right (fun b n => byte_ones b + n) 0 l.

(** How many of the 256 byte values [createNewPasswordSeq] turns into the
    character [c]. *)
Definition preimages (c : byte) : nat :=
  length (filter (fun b => Byte.eqb (PasswordGen.alphabeth_at b) c) (upto 256)).

(** The number of set bits among the bits 0..30 of a synchro, and whether
    one of its bits 31..63 is set. *)
Definition popcount31 (x : Z) : Z :=
  Z.of_nat (length (filter (Z.testbit x) (upto 31))).
Definition high_bits_set (x : Z) : Z :=
  if Z.land x 0xFFFFFFFF80000000 =? 0 then 0 else 1.

(** * Properties *)

(** ** Machine integers *)

Lemma uint32_range z : 0 <= uint32 z < 2 ^ 32.
Proof. apply Z.mod_pos_bound. reflexivity. Qed.

Lemma uint32_small z : 0 <= z < 2 ^ 32 -> uint32 z = z.
Proof. apply Z.mod_small. Qed.

Lemma uint64_small z : 0 <= z < 2 ^ 64 -> uint64 z = z.
Proof. apply Z.mod_small. Qed.

Lemma lxor_range n a b :
  0 <= n -> 0 <= a < 2 ^ n -> 0 <= b < 2 ^ n -> 0 <= Z.lxor a b < 2 ^ n.
Proof.
  intros Hn Ha Hb.
  assert (E : Z.lxor a b = Z.lxor a b mod 2 ^ n).
  { rewrite <- (Z.mod_small a (2 ^ n)) at 1 by lia.
    rewrite <- (Z.mod_small b (2 ^ n)) at 1 by lia.
    rewrite <- !Z.land_ones by lia. Z.bitblast. }
  rewrite E. apply Z.mod_pos_bound. apply Z.pow_pos_nonneg; lia.
Qed.

Lemma lo_def d : uint32 (Z.land d 0x00000000ffffffff) = lo d.
Proof. reflexivity. Qed.

Lemma hi_def d :
  uint32 (Z.shiftr (Z.land d 0xffffffff00000000) (sizeof_uint32 * byteSize))
  = hi d.
Proof. reflexivity. Qed.

Lemma lo_range d : 0 <= lo d < 2 ^ 32.
Proof. apply uint32_range. Qed.

Lemma hi_range d : 0 <= hi d < 2 ^ 32.
Proof. apply uint32_range. Qed.

Lemma lo_eq d : lo d = d mod 2 ^ 32.
Proof.
  unfold lo, uint32. change 0x00000000ffffffff with (Z.ones 32).
  rewrite Z.land_ones by lia. apply Z.mod_mod. lia.
Qed.

Lemma hi_eq d : hi d = (d / 2 ^ 32) mod 2 ^ 32.
Proof.
  unfold hi, uint32, sizeof_uint32, byteSize.
  rewrite Z.shiftr_land. change (Z.shiftr 0xffffffff00000000 (4 * 8)) with (Z.ones 32).
  rewrite Z.land_ones, Z.shiftr_div_pow2 by lia. apply Z.mod_mod. lia.
Qed.

Lemma land_shiftl_low a b :
  0 <= a < 2 ^ 32 -> Z.land (Z.shiftl b 32) a = 0.
Proof.
  intros Ha. apply Z.bits_inj'. intros n Hn.
  rewrite Z.land_spec, Z.bits_0.
  destruct (Z.ltb_spec n 32).
  - rewrite Z.shiftl_spec_low by lia. reflexivity.
  - rewrite (Z.bits_above_log2 a n); [apply andb_false_r | lia |].
    destruct (Z.eq_dec a 0) as [-> | Hz]; [cbn; lia |].
    apply Z.lt_le_trans with 32; [| lia].
    apply Z.log2_lt_pow2; lia.
Qed.

Lemma join_range a b :
  0 <= a < 2 ^ 32 -> 0 <= b < 2 ^ 32 -> 0 <= join (a, b) < 2 ^ 64.
Proof.
  intros Ha Hb. unfold join; cbn [fst snd].
  rewrite Z.or_to_plus.
  - rewrite Z.shiftl_mul_pow2 by lia. lia.
  - apply land_shiftl_low; lia.
Qed.

Lemma join_eq a b :
  0 <= a < 2 ^ 32 -> join (a, b) = b * 2 ^ 32 + a.
Proof.
  intros Ha. unfold join; cbn [fst snd].
  rewrite Z.or_to_plus.
  - rewrite Z.shiftl_mul_pow2 by lia. lia.
  - apply land_shiftl_low; lia.
Qed.

Lemma halves_join a b :
  0 <= a < 2 ^ 32 -> 0 <= b < 2 ^ 32 -> halves (join (a, b)) = (a, b).
Proof.
  intros Ha Hb. unfold halves. rewrite lo_eq, hi_eq, join_eq by lia.
  f_equal.
  - rewrite Z.add_comm, Z.mod_add by lia. apply Z.mod_small; lia.
  - rewrite Z.div_add_l by lia. rewrite (Z.div_small a) by lia.
    rewrite Z.add_0_r. apply Z.mod_small; lia.
Qed.

Lemma join_halves d : 0 <= d < 2 ^ 64 -> join (halves d) = d.
Proof.
  intros Hd. unfold halves. rewrite join_eq by apply lo_range.
  rewrite lo_eq, hi_eq.
  rewrite (Z.mod_small (d / 2 ^ 32)).
  - rewrite Z.mul_comm. symmetry. apply Z.div_mod. lia.
  - split. { apply Z.div_pos; lia. }
    apply Z.div_lt_upper_bound; lia.
Qed.

(** ** The round function and the three cycles *)

Section Cycles.
Import Cryptographer.
Variable cr : Cryptographer.t.

Lemma round_f_range k N1 : 0 <= round_f cr k N1 < 2 ^ 32.
Proof. apply uint32_range. Qed.

Lemma halves_in_range d : in_range (halves d).
Proof. split; [apply lo_range | apply hi_range]. Qed.

Lemma round_in_range k p : in_range p -> in_range (round cr k p).
Proof.
  intros [Hl Hh]. split; cbn [round fst snd]; [| exact Hl].
  apply lxor_range; [lia | apply round_f_range | exact Hh].
Qed.

Lemma rounds_in_range ks : forall p, in_range p -> in_range (rounds cr ks p).
Proof.
  induction ks as [| k ks IH]; intros p Hp; [exact Hp |].
  apply IH, round_in_range, Hp.
Qed.

Lemma rounds_app ks1 ks2 p :
  rounds cr (ks1 ++ ks2) p = rounds cr ks2 (rounds cr ks1 p).
Proof. apply fold_left_app. Qed.

Lemma mainStep_unfold d k :
  mainStep cr d k
  = Z.lor (uint64 (Z.shiftl (lo d) (sizeof_uint32 * byteSize)))
          (Z.lxor (round_f cr k (lo d)) (hi d)).
Proof. cbv beta zeta delta [mainStep round_f lo hi]. reflexivity. Qed.

(** [mainStep] is one round on the two halves of the block. *)
Lemma mainStep_round d k : mainStep cr d k = join (round cr k (halves d)).
Proof.
  rewrite mainStep_unfold.
  unfold join, round, halves; cbn [fst snd].
  rewrite uint64_small; [reflexivity |].
  pose proof (lo_range d). unfold sizeof_uint32, byteSize.
  rewrite Z.shiftl_mul_pow2 by lia. lia.
Qed.

Lemma halves_mainStep d k : halves (mainStep cr d k) = round cr k (halves d).
Proof.
  rewrite mainStep_round.
  destruct (round_in_range k (halves d) (halves_in_range d)) as [H1 H2].
  destruct (round cr k (halves d)) as [a b]. apply halves_join; assumption.
Qed.

Lemma halves_steps ks : forall d,
  halves (fold_left (fun data j => mainStep cr data j) ks d)
  = rounds cr ks (halves d).
Proof.
  induction ks as [| k ks IH]; intros d; [reflexivity |].
  cbn [fold_left]. rewrite IH, halves_mainStep. reflexivity.
Qed.

Lemma mainStep_range d k : 0 <= mainStep cr d k < 2 ^ 64.
Proof.
  rewrite mainStep_round.
  destruct (round_in_range k (halves d) (halves_in_range d)) as [H1 H2].
  destruct (round cr k (halves d)) as [a b]. apply join_range; assumption.
Qed.

(** The closing lines of [cycle_32Z] and [cycle_32R] exchange the halves. *)
Lemma closing_swap data :
  Z.lor (pow (lo data) (sizeof_uint32 * byteSize)) (hi data)
  = join (swap (halves data)).
Proof.
  unfold pow, join, swap, halves; cbn [fst snd].
  rewrite uint64_small; [reflexivity |].
  pose proof (lo_range data). unfold sizeof_uint32, byteSize.
  rewrite Z.shiftl_mul_pow2 by lia. lia.
Qed.

Lemma steps_app ks1 ks2 d : steps cr (ks1 ++ ks2) d = steps cr ks2 (steps cr ks1 d).
Proof. apply fold_left_app. Qed.

Lemma cycle_32Z_unfold d :
  cycle_32Z cr d
  = let data := steps cr keys_32Z d in
    Z.lor (pow (lo data) (sizeof_uint32 * byteSize)) (hi data).
Proof.
  unfold cycle_32Z, steps. generalize (mainStep cr). intros f.
  unfold keys_32Z. rewrite !fold_left_app. reflexivity.
Qed.

Lemma cycle_32R_unfold d :
  cycle_32R cr d
  = let data := steps cr keys_32R d in
    Z.lor (pow (lo data) (sizeof_uint32 * byteSize)) (hi data).
Proof.
  unfold cycle_32R, steps. generalize (mainStep cr). intros f.
  unfold keys_32R. rewrite !fold_left_app. reflexivity.
Qed.

Lemma cycle_16Z_unfold d : cycle_16Z cr d = steps cr keys_16Z d.
Proof.
  unfold cycle_16Z, steps. generalize (mainStep cr). intros f.
  unfold keys_16Z. rewrite !fold_left_app. reflexivity.
Qed.

Lemma cycle_32Z_rounds d :
  cycle_32Z cr d = join (swap (rounds cr keys_32Z (halves d))).
Proof.
  rewrite cycle_32Z_unfold. cbv zeta. rewrite closing_swap.
  unfold steps. rewrite halves_steps. reflexivity.
Qed.

Lemma cycle_32R_rounds d :
  cycle_32R cr d = join (swap (rounds cr keys_32R (halves d))).
Proof.
  rewrite cycle_32R_unfold. cbv zeta. rewrite closing_swap.
  unfold steps. rewrite halves_steps. reflexivity.
Qed.

Lemma cycle_16Z_rounds d :
  halves (cycle_16Z cr d) = rounds cr keys_16Z (halves d).
Proof.
  rewrite cycle_16Z_unfold. unfold steps. apply halves_steps.
Qed.

Lemma cycle_32Z_range d : 0 <= cycle_32Z cr d < 2 ^ 64.
Proof.
  rewrite cycle_32Z_rounds.
  destruct (rounds_in_range keys_32Z (halves d) (halves_in_range d)) as [H1 H2].
  destruct (rounds cr keys_32Z (halves d)) as [a b]. apply join_range; assumption.
Qed.

Lemma cycle_32R_range d : 0 <= cycle_32R cr d < 2 ^ 64.
Proof.
  rewrite cycle_32R_rounds.
  destruct (rounds_in_range keys_32R (halves d) (halves_in_range d)) as [H1 H2].
  destruct (rounds cr keys_32R (halves d)) as [a b]. apply join_range; assumption.
Qed.

(** A round undoes itself between two exchanges of the halves. *)
Lemma round_swap_round k p : round cr k (swap (round cr k p)) = swap p.
Proof.
  destruct p as [l h]. unfold round, swap; cbn [fst snd]. f_equal.
  rewrite <- Z.lxor_assoc, Z.lxor_nilpotent. apply Z.lxor_0_l.
Qed.

Lemma rounds_rev_swap ks : forall p,
  rounds cr (rev ks) (swap (rounds cr ks p)) = swap p.
Proof.
  induction ks as [| k ks IH]; intros p; [reflexivity |].
  cbn [rev]. rewrite rounds_app. cbn [rounds fold_left].
  fold (rounds cr ks (round cr k p)). rewrite IH.
  fold (rounds cr [k] (swap (round cr k p))). cbn [rounds fold_left].
  apply round_swap_round.
Qed.

Lemma keys_32R_rev : keys_32R = rev keys_32Z.
Proof. reflexivity. Qed.

Lemma keys_32Z_rev : keys_32Z = rev keys_32R.
Proof. reflexivity. Qed.

Lemma swap_in_range p : in_range p -> in_range (swap p).
Proof. intros [H1 H2]; split; assumption. Qed.

Lemma halves_join_swap p : in_range p -> halves (join (swap p)) = swap p.
Proof.
  intros Hp. destruct (swap_in_range p Hp) as [H1 H2].
  destruct (swap p) as [a b]. apply halves_join; assumption.
Qed.

Lemma swap_swap p : swap (swap p) = p.
Proof. destruct p; reflexivity. Qed.

Lemma cycle_32R_32Z d : 0 <= d < 2 ^ 64 -> cycle_32R cr (cycle_32Z cr d) = d.
Proof.
  intros Hd. rewrite cycle_32R_rounds, cycle_32Z_rounds.
  rewrite (halves_join_swap (rounds cr keys_32Z (halves d))
             (rounds_in_range _ _ (halves_in_range d))).
  rewrite keys_32R_rev, (rounds_rev_swap keys_32Z (halves d)), swap_swap.
  apply join_halves, Hd.
Qed.

Lemma cycle_32Z_32R d : 0 <= d < 2 ^ 64 -> cycle_32Z cr (cycle_32R cr d) = d.
Proof.
  intros Hd. rewrite cycle_32Z_rounds, cycle_32R_rounds.
  rewrite (halves_join_swap (rounds cr keys_32R (halves d))
             (rounds_in_range _ _ (halves_in_range d))).
  rewrite keys_32Z_rev, (rounds_rev_swap keys_32R (halves d)), swap_swap.
  apply join_halves, Hd.
Qed.

End Cycles.

(** ** Buffers, blocks and loops *)

Lemma skipn_exact {T : Type} (l1 l2 : list T) :
  skipn (length l1) (l1 ++ l2) = l2.
Proof. induction l1 as [| x l1 IH]; [reflexivity | exact IH]. Qed.

Lemma firstn_exact {T : Type} (l1 l2 : list T) :
  firstn (length l1) (l1 ++ l2) = l1.
Proof.
  induction l1 as [| x l1 IH]; [reflexivity |].
  cbn [length app firstn]. f_equal. exact IH.
Qed.

Lemma firstn_exact' {T : Type} n (l1 l2 : list T) :
  n = length l1 -> firstn n (l1 ++ l2) = l1.
Proof. intros ->. apply firstn_exact. Qed.

Lemma skipn_exact' {T : Type} n (l1 l2 : list T) :
  n = length l1 -> skipn n (l1 ++ l2) = l2.
Proof. intros ->. apply skipn_exact. Qed.

Lemma skipn_repeat {T : Type} (x : T) n m :
  skipn n (repeat x m) = repeat x (m - n).
Proof.
  revert m. induction n as [| n IH]; intros m.
  - rewrite Nat.sub_0_r. reflexivity.
  - destruct m as [| m]; [reflexivity | apply IH].
Qed.

Lemma skipn_le_split_all n z : skipn n (le_split n z) = [].
Proof. apply skipn_all2. rewrite length_le_split. lia. Qed.

Lemma load_block_full blk done b rest :
  length b = 8%nat ->
  load_block blk (done ++ b ++ rest) (length done) sizeof_uint64 = le_combine b.
Proof.
  intros Hb. unfold load_block, memcpy, sizeof_uint64.
  rewrite firstn_0, Nat.add_0_l. cbn [app].
  rewrite skipn_le_split_all, app_nil_r, skipn_exact.
  rewrite (firstn_exact' 8 b rest) by (symmetry; exact Hb). reflexivity.
Qed.

Lemma store_block_full done b rest c :
  length b = 8%nat ->
  store_block (done ++ b ++ rest) (length done) c sizeof_uint64
  = done ++ le_split 8 c ++ rest.
Proof.
  intros Hb. unfold store_block, memcpy, sizeof_uint64.
  rewrite skipn_0, firstn_exact.
  rewrite (firstn_all2 (n := 8) (le_split 8 c)) by (rewrite length_le_split; lia).
  f_equal. f_equal.
  rewrite app_assoc. apply skipn_exact'. rewrite length_app. lia.
Qed.

Lemma le_split_0 n : le_split n 0 = repeat Byte.x00 n.
Proof.
  induction n as [| n IH]; [reflexivity |].
  change (le_split (S n) 0) with (byte.of_Z 0 :: le_split n (Z.shiftr 0 8)).
  change (Z.shiftr 0 8) with 0. rewrite IH. reflexivity.
Qed.

Lemma load_block_tail done t :
  (length t <= 8)%nat ->
  load_block 0 (done ++ t) (length done) (length t) = le_combine t.
Proof.
  intros Ht. unfold load_block, memcpy, sizeof_uint64.
  rewrite firstn_0, Nat.add_0_l. cbn [app].
  rewrite skipn_exact, firstn_all, le_split_0, skipn_repeat.
  apply le_combine_app_0.
Qed.

Lemma firstn_le_split n m z :
  (n <= m)%nat -> firstn n (le_split m z) = le_split n z.
Proof.
  revert m z. induction n as [| n IH]; intros m z Hm; [reflexivity |].
  destruct m as [| m]; [lia |].
  change (le_split (S m) z) with (byte.of_Z z :: le_split m (Z.shiftr z 8)).
  change (le_split (S n) z) with (byte.of_Z z :: le_split n (Z.shiftr z 8)).
  cbn [firstn]. f_equal. apply IH. lia.
Qed.

Lemma store_block_tail done t c :
  (length t <= 8)%nat ->
  store_block (done ++ t) (length done) c (length t)
  = done ++ le_split (length t) c.
Proof.
  intros Ht. unfold store_block, memcpy, sizeof_uint64.
  rewrite skipn_0, firstn_exact, firstn_le_split by exact Ht.
  rewrite skipn_all2 by (rewrite length_app; lia).
  rewrite app_nil_r. reflexivity.
Qed.

(** Induction over a buffer by its 8-byte steps. *)
Lemma blocks_ind (P : list byte -> Prop) :
  P [] ->
  (forall t, (0 < length t <= 8)%nat -> P t) ->
  (forall b rest, length b = 8%nat -> rest <> [] -> P rest -> P (b ++ rest)) ->
  forall data, P data.
Proof.
  intros Hnil Htail Hstep data.
  remember (length data) as n eqn:Hn. revert data Hn.
  induction n as [n IH] using lt_wf_ind. intros data Hn.
  destruct (Nat.eq_dec n 0) as [Hz | Hz].
  { destruct data; [exact Hnil | cbn in Hn; lia]. }
  destruct (le_lt_dec n 8) as [Hle | Hgt].
  { apply Htail. lia. }
  rewrite <- (firstn_skipn 8 data).
  apply Hstep.
  - rewrite length_firstn. lia.
  - intros E. apply (f_equal (@length byte)) in E.
    rewrite length_skipn in E. cbn in E. lia.
  - apply (IH (length (skipn 8 data))); [| reflexivity].
    rewrite length_skipn. lia.
Qed.

Lemma chunk_step (b rest : list byte) :
  length b = 8%nat -> rest <> [] ->
  exists c cs, List.chunk 8 rest = c :: cs /\
               List.chunk 8 (b ++ rest) = b :: c :: cs.
Proof.
  intros Hb Hrest.
  rewrite (List.chunk_app_chunk 8) by (lia || exact Hb).
  destruct (List.chunk 8 rest) as [| c cs] eqn:E; [| eauto].
  exfalso. apply Hrest.
  rewrite <- (List.concat_chunk 8 rest) by lia. rewrite E. reflexivity.
Qed.

Lemma while_map {St1 St2 : Type} (phi : St1 -> St2) c1 b1 c2 b2 :
  (forall s, c1 s = c2 (phi s)) ->
  (forall s, c1 s = true -> phi (b1 s) = b2 (phi s)) ->
  forall fuel s, phi (while fuel c1 b1 s) = while fuel c2 b2 (phi s).
Proof.
  intros Hc Hb. induction fuel as [| fuel IH]; intros s; [reflexivity |].
  cbn [while]. rewrite <- Hc. destruct (c1 s) eqn:E; [| reflexivity].
  rewrite IH, Hb by exact E. reflexivity.
Qed.

Lemma while_iso {St1 St2 : Type} (phi : St1 -> St2) (psi : St2 -> St1)
  c1 b1 c2 b2 :
  (forall s, psi (phi s) = s) ->
  (forall s, c1 s = c2 (phi s)) ->
  (forall s, c1 s = true -> phi (b1 s) = b2 (phi s)) ->
  forall fuel s, while fuel c1 b1 s = psi (while fuel c2 b2 (phi s)).
Proof.
  intros Hinv Hc Hb fuel s.
  rewrite <- (while_map phi c1 b1 c2 b2 Hc Hb). symmetry. apply Hinv.
Qed.

Section BlockLoopFacts.
Context {A : Type}.
Variable f : A -> Z -> Z * A.

Lemma stream_blocks_cons b c cs a :
  stream_blocks f (b :: c :: cs) a
  = let '(x, a') := f a (le_combine b) in
    let '(out, a'', t) := stream_blocks f (c :: cs) a' in
    (le_split 8 x ++ out, a'', t).
Proof. reflexivity. Qed.

Lemma stream_loop : forall data done a fuel n,
  n = (length done + length data)%nat ->
  (length data <= fuel)%nat ->
  while fuel (fun '(_, _, i) => Nat.ltb (i + 8) n) (block_body f)
        (done ++ data, a, length done)
  = let '(out, a', t) := stream_blocks f (List.chunk 8 data) a in
    (done ++ out ++ t, a', (length done + length out)%nat).
Proof.
  intros data. induction data as [| t Ht | b rest Hb Hrest IH] using blocks_ind;
    intros done a fuel n Hn Hfuel.
  - cbn [List.chunk List.chunk' stream_blocks length app].
    rewrite Nat.add_0_r.
    destruct fuel; cbn [while]; [reflexivity |].
    replace (Nat.ltb (length done + 8) n) with false; [reflexivity |].
    symmetry. apply Nat.ltb_ge. cbn [length] in Hn. lia.
  - rewrite (List.chunk_small 8) by lia.
    cbn [stream_blocks length app]. rewrite Nat.add_0_r.
    destruct fuel; cbn [while]; [reflexivity |].
    replace (Nat.ltb (length done + 8) n) with false; [reflexivity |].
    symmetry. apply Nat.ltb_ge. lia.
  - destruct (chunk_step b rest Hb Hrest) as (c & cs & Ec & Ebc).
    rewrite Ebc, stream_blocks_cons, <- Ec.
    assert (Hlen : (0 < length rest)%nat).
    { destruct rest; [congruence | cbn; lia]. }
    rewrite length_app in Hn, Hfuel.
    destruct fuel as [| fuel]; [lia |]. cbn [while].
    replace (Nat.ltb (length done + 8) n) with true
      by (symmetry; apply Nat.ltb_lt; lia).
    unfold block_body at 2.
    rewrite load_block_full by exact Hb.
    destruct (f a (le_combine b)) as [blk a'].
    rewrite store_block_full by exact Hb.
    specialize (IH (done ++ le_split 8 blk) a' fuel n).
    rewrite length_app, length_le_split in IH.
    rewrite <- app_assoc in IH.
    replace (length done + 8)%nat with (length done + 8)%nat in IH by reflexivity.
    rewrite IH by lia.
    destruct (stream_blocks f (List.chunk 8 rest) a') as [[out a''] t].
    rewrite length_app, length_le_split, <- !app_assoc.
    f_equal. lia.
Qed.

Lemma all_loop : forall data done a fuel n,
  n = (length done + length data)%nat ->
  (length data mod 8 = 0)%nat ->
  (length data <= fuel)%nat ->
  while fuel (fun '(_, _, i) => Nat.ltb i n) (block_body f)
        (done ++ data, a, length done)
  = let '(out, a') := all_blocks f (List.chunk 8 data) a in
    (done ++ out, a', n).
Proof.
  intros data. remember (length data) as m eqn:Hm. revert data Hm.
  induction m as [m IH] using lt_wf_ind.
  intros data Hm done a fuel n Hn Hmod Hfuel.
  destruct (Nat.eq_dec m 0) as [Hz | Hz].
  - destruct data; [| cbn in Hm; lia].
    cbn [List.chunk List.chunk' all_blocks]. rewrite app_nil_r.
    replace n with (length done) by lia.
    destruct fuel; cbn [while]; [reflexivity |].
    rewrite Nat.ltb_irrefl. reflexivity.
  - assert (H8 : (8 <= m)%nat).
    { destruct (le_lt_dec 8 m); [assumption |].
      rewrite Nat.mod_small in Hmod by lia. lia. }
    rewrite <- (firstn_skipn 8 data).
    set (b := firstn 8 data). set (rest := skipn 8 data).
    assert (Hb : length b = 8%nat) by (subst b; rewrite length_firstn; lia).
    assert (Hr : length rest = (m - 8)%nat)
      by (subst rest; rewrite length_skipn; lia).
    rewrite (List.chunk_app_chunk 8) by (lia || exact Hb).
    cbn [all_blocks].
    destruct fuel as [| fuel]; [lia |]. cbn [while].
    replace (Nat.ltb (length done) n) with true
      by (symmetry; apply Nat.ltb_lt; lia).
    unfold block_body at 2.
    rewrite load_block_full by exact Hb.
    destruct (f a (le_combine b)) as [blk a'].
    rewrite store_block_full by exact Hb.
    specialize (IH (m - 8)%nat ltac:(lia) rest (eq_sym Hr)
                   (done ++ le_split 8 blk) a' fuel n).
    rewrite length_app, length_le_split, <- app_assoc in IH.
    rewrite IH.
    + destruct (all_blocks f (List.chunk 8 rest) a') as [out a''].
      rewrite <- app_assoc. reflexivity.
    + lia.
    + replace m with (m - 8 + 1 * 8)%nat in Hmod by lia.
      rewrite Nat.Div0.mod_add in Hmod. exact Hmod.
    + lia.
Qed.

End BlockLoopFacts.

(** ** The four modes as runs over the chunks of the buffer *)

Section Modes.
Import Cryptographer.
Variable cr : Cryptographer.t.

Lemma stream_blocks_length {A : Type} (f : A -> Z -> Z * A) : forall data a,
  let '(out, _, t) := stream_blocks f (List.chunk 8 data) a in
  (length out + length t = length data)%nat /\ (length t <= 8)%nat /\
  (data <> [] -> (0 < length t)%nat).
Proof.
  intros data. induction data as [| t Ht | b rest Hb Hrest IH] using blocks_ind;
    intros a.
  - cbn. repeat split; [lia | congruence].
  - rewrite (List.chunk_small 8) by lia. cbn [stream_blocks length].
    repeat split; lia.
  - destruct (chunk_step b rest Hb Hrest) as (c & cs & Ec & Ebc).
    rewrite Ebc, stream_blocks_cons, <- Ec.
    destruct (f a (le_combine b)) as [x a'].
    specialize (IH a').
    destruct (stream_blocks f (List.chunk 8 rest) a') as [[out a''] t].
    destruct IH as (H1 & H2 & H3).
    rewrite !length_app, length_le_split, Hb.
    repeat split; [lia | lia |]. intros _. apply H3, Hrest.
Qed.

Lemma simpleReplace_blocks data _encoding :
  (length data mod 8 = 0)%nat ->
  simpleReplace cr data _encoding
  = (true, fst (all_blocks (f_simple cr _encoding) (List.chunk 8 data) tt)).
Proof.
  intros Hmod. unfold simpleReplace. rewrite Hmod. cbn [Nat.eqb negb].
  pose proof (while_map
    (fun '(d, i) => (d, tt, i) : list byte * unit * nat)
    (fun '(_, i) => Nat.ltb i (length data))
    (fun '(_data, i) =>
       let block := load_block 0 _data i sizeof_uint64 in
       let block := if _encoding : bool then cycle_32Z cr block
                    else cycle_32R cr block in
       let _data := store_block _data i block sizeof_uint64 in
       (_data, (i + 8)%nat))
    (fun '(_, _, i) => Nat.ltb i (length data))
    (block_body (f_simple cr _encoding))) as Hmap.
  specialize (Hmap ltac:(intros [d i]; reflexivity)
                   ltac:(intros [d i] _; reflexivity)
                   (length data) (data, 0%nat)).
  pose proof (all_loop (f_simple cr _encoding) data [] tt (length data)
                (length data) eq_refl Hmod (le_n _)) as Hloop.
  cbn [app length] in Hloop. cbv beta iota in Hmap. rewrite Hloop in Hmap.
  destruct (all_blocks (f_simple cr _encoding) (List.chunk 8 data) tt)
    as [out u].
  destruct (while _ _ _ _) as [d i]. inversion Hmap. reflexivity.
Qed.

Lemma gammingWF_blocks data S _encoding :
  gammingWF cr data S _encoding
  = let '(out, S', t) :=
      stream_blocks (f_gammingWF cr _encoding) (List.chunk 8 data) S in
    (true, out ++ xor_tail t (cycle_32Z cr S'), S').
Proof.
  unfold gammingWF. cbv zeta.
  match goal with
  | |- context [while ?n ?c ?b ?st0] =>
      pose proof (while_map (fun st : list byte * Z * nat => st) c b
                    (fun '(_, _, i) => Nat.ltb (i + 8) (length data))
                    (block_body (f_gammingWF cr _encoding))
                    ltac:(intros [[d s'] i]; reflexivity)
                    ltac:(intros [[d s'] i] _; reflexivity)
                    n st0) as Hmap
  end.
  cbv beta in Hmap. rewrite Hmap. clear Hmap.
  pose proof (stream_loop (f_gammingWF cr _encoding) data [] S (length data)
                (length data) eq_refl (le_n _)) as Hloop.
  cbn [app length] in Hloop. rewrite Hloop. clear Hloop.
  pose proof (stream_blocks_length (f_gammingWF cr _encoding) data S) as Hlen.
  destruct (stream_blocks (f_gammingWF cr _encoding) (List.chunk 8 data) S)
    as [[out S'] t].
  destruct Hlen as (H1 & H2 & H3). cbn [Nat.add].
  destruct (Nat.eqb_spec (length out) (length data)) as [E | E].
  - cbn [Nat.eqb negb]. destruct t; [| cbn in H1; lia].
    unfold xor_tail. cbn [length le_split]. reflexivity.
  - replace (length data - length out)%nat with (length t) by lia.
    destruct (Nat.eqb_spec (length t) 0) as [E0 | E0]; [lia |].
    cbn [negb].
    rewrite load_block_tail, store_block_tail by exact H2. reflexivity.
Qed.

Lemma gamming_blocks data S :
  gamming cr data S
  = let S_ := cycle_32Z cr S in
    let '(out, a, t) :=
      stream_blocks (f_gamming cr) (List.chunk 8 data) (S_, lo S_, hi S_) in
    let '(S', _, _) := a in
    (true, out ++ xor_tail t (cycle_32Z cr S'), S').
Proof.
  unfold gamming, f_gamming. cbv zeta.
  generalize (cycle_32Z cr). intros E.
  generalize (E S). intros Sc.
  rewrite (lo_def Sc), (hi_def Sc).
  set (f := fun (a : Z * Z * Z) (block : Z) =>
              let '(_, S0, S1) := a in
              (Z.lxor block (E (recombine (next_S0 S0) (next_S1 S1))),
               (recombine (next_S0 S0) (next_S1 S1), next_S0 S0, next_S1 S1))).
  match goal with
  | |- context [while ?n ?c ?b ?st0] =>
      rewrite (while_iso
                 (fun '(d, sy, s0, s1, i) => (d, (sy, s0, s1), i)
                    : list byte * (Z * Z * Z) * nat)
                 (fun '(d, (sy, s0, s1), i) => (d, sy, s0, s1, i)
                    : list byte * Z * Z * Z * nat)
                 c b
                 (fun '(_, _, i) => Nat.ltb (i + 8) (length data))
                 (block_body f)
                 ltac:(intros [[[[d s'] s0] s1] i]; reflexivity)
                 ltac:(intros [[[[d s'] s0] s1] i]; reflexivity)
                 ltac:(intros [[[[d s'] s0] s1] i] _; reflexivity)
                 n st0)
  end.
  cbv beta iota.
  pose proof (stream_loop f data [] (Sc, lo Sc, hi Sc)
                (length data) (length data) eq_refl (le_n _)) as Hloop.
  cbn [app length] in Hloop. rewrite Hloop. clear Hloop.
  pose proof (stream_blocks_length f data (Sc, lo Sc, hi Sc)) as Hlen.
  destruct (stream_blocks f (List.chunk 8 data) (Sc, lo Sc, hi Sc))
    as [[out [[S' S0'] S1']] t].
  destruct Hlen as (H1 & H2 & H3). cbn [Nat.add].
  destruct (Nat.eqb_spec (length out) (length data)) as [E1 | E1].
  - cbn [Nat.eqb negb]. destruct t; [| cbn in H1; lia].
    unfold xor_tail. cbn [length le_split]. reflexivity.
  - replace (length data - length out)%nat with (length t) by lia.
    destruct (Nat.eqb_spec (length t) 0) as [E0 | E0]; [lia |].
    cbn [negb].
    rewrite load_block_tail, store_block_tail by exact H2. reflexivity.
Qed.

Lemma stream_blocks_tail {A : Type} (f : A -> Z -> Z * A) : forall data a,
  let '(out, _, t) := stream_blocks f (List.chunk 8 data) a in
  t = skipn (length out) data.
Proof.
  intros data. induction data as [| t Ht | b rest Hb Hrest IH] using blocks_ind;
    intros a.
  - reflexivity.
  - rewrite (List.chunk_small 8) by lia. reflexivity.
  - destruct (chunk_step b rest Hb Hrest) as (c & cs & Ec & Ebc).
    rewrite Ebc, stream_blocks_cons, <- Ec.
    destruct (f a (le_combine b)) as [x a'].
    specialize (IH a').
    destruct (stream_blocks f (List.chunk 8 rest) a') as [[out a''] t].
    rewrite length_app, length_le_split, IH.
    rewrite (Nat.add_comm 8), <- skipn_skipn.
    rewrite (skipn_exact' 8 b rest) by (symmetry; exact Hb). reflexivity.
Qed.

Lemma store_load_same_app blk done b rest :
  length b = 8%nat ->
  store_block (done ++ b ++ rest) (length done)
    (load_block blk (done ++ b ++ rest) (length done) sizeof_uint64)
    sizeof_uint64
  = done ++ b ++ rest.
Proof.
  intros Hb. rewrite load_block_full, store_block_full by exact Hb.
  rewrite (split_le_combine' _ 8 Hb). reflexivity.
Qed.

Lemma store_load_same blk data i :
  (i + 8 <= length data)%nat ->
  store_block data i (load_block blk data i sizeof_uint64) sizeof_uint64 = data.
Proof.
  intros Hi.
  assert (Hd : firstn i data ++ firstn 8 (skipn i data)
                 ++ skipn 8 (skipn i data) = data).
  { rewrite firstn_skipn, firstn_skipn. reflexivity. }
  assert (Hl : length (firstn i data) = i) by (rewrite length_firstn; lia).
  assert (Hb : length (firstn 8 (skipn i data)) = 8%nat).
  { rewrite length_firstn, length_skipn. lia. }
  pose proof (store_load_same_app blk (firstn i data) (firstn 8 (skipn i data))
                (skipn 8 (skipn i data)) Hb) as H.
  rewrite Hl, Hd in H. exact H.
Qed.

Lemma imiIns_blocks data :
  imiIns cr data
  = let '(_, S', t) := stream_blocks (f_imiIns cr) (List.chunk 8 data) 0 in
    uint32 (Z.land (if negb (Nat.eqb (length t) 0)
                    then cycle_16Z cr (Z.lxor S' (le_combine t))
                    else S')
                   0x00000000ffffffff).
Proof.
  unfold imiIns. cbv zeta.
  match goal with
  | |- context [while ?n ?c ?b ?st0] =>
      rewrite (while_iso
                 (fun '(sy, i) => (data, sy, i) : list byte * Z * nat)
                 (fun '(_, sy, i) => (sy, i) : Z * nat)
                 c b
                 (fun '(_, _, i) => Nat.ltb (i + 8) (length data))
                 (block_body (f_imiIns cr))
                 ltac:(intros [sy i]; reflexivity)
                 ltac:(intros [sy i]; reflexivity)
                 ltac:(intros [sy i] Hc; apply Nat.ltb_lt in Hc;
                       unfold block_body, f_imiIns;
                       rewrite store_load_same by lia; reflexivity)
                 n st0)
  end.
  cbv beta iota.
  pose proof (stream_loop (f_imiIns cr) data [] 0
                (length data) (length data) eq_refl (le_n _)) as Hloop.
  cbn [app length] in Hloop. rewrite Hloop. clear Hloop.
  pose proof (stream_blocks_length (f_imiIns cr) data 0) as Hlen.
  pose proof (stream_blocks_tail (f_imiIns cr) data 0) as Htail.
  destruct (stream_blocks (f_imiIns cr) (List.chunk 8 data) 0)
    as [[out S'] t].
  destruct Hlen as (H1 & H2 & H3). cbn [Nat.add].
  destruct (Nat.eqb_spec (length out) (length data)) as [E | E].
  - destruct t; [| cbn in H1; lia]. reflexivity.
  - replace (length data - length out)%nat with (length t) by lia.
    destruct (Nat.eqb_spec (length t) 0) as [E0 | E0]; [lia |].
    cbn [negb].
    assert (Hd : firstn (length out) data ++ t = data).
    { rewrite Htail. apply firstn_skipn. }
    assert (Hl : length (firstn (length out) data) = length out)
      by (rewrite length_firstn; lia).
    pose proof (load_block_tail (firstn (length out) data) t H2) as Hload.
    rewrite Hl, Hd in Hload. rewrite Hload. reflexivity.
Qed.

End Modes.

(** ** The gamma modes step by step *)

Section StreamMode.
Context {A : Type}.
Variable f : A -> Z -> Z * A.
Variable tk : A -> Z.

Lemma xor_tail_nil g : xor_tail [] g = [].
Proof. reflexivity. Qed.

Lemma length_xor_tail t g : length (xor_tail t g) = length t.
Proof. apply length_le_split. Qed.

Lemma stream_mode_nil a : stream_mode f tk [] a = ([], a).
Proof. reflexivity. Qed.

Lemma stream_mode_tail t a :
  (0 < length t <= 8)%nat -> stream_mode f tk t a = (xor_tail t (tk a), a).
Proof.
  intros Ht. unfold stream_mode. rewrite (List.chunk_small 8) by lia.
  reflexivity.
Qed.

Lemma stream_mode_step b rest a :
  length b = 8%nat -> rest <> [] ->
  stream_mode f tk (b ++ rest) a
  = let '(c, a') := f a (le_combine b) in
    let '(out, a'') := stream_mode f tk rest a' in
    (le_split 8 c ++ out, a'').
Proof.
  intros Hb Hrest. unfold stream_mode.
  destruct (chunk_step b rest Hb Hrest) as (c & cs & Ec & Ebc).
  rewrite Ebc, stream_blocks_cons, <- Ec.
  destruct (f a (le_combine b)) as [x a'].
  destruct (stream_blocks f (List.chunk 8 rest) a') as [[out a''] t].
  rewrite <- app_assoc. reflexivity.
Qed.

Lemma stream_mode_length : forall data a,
  length (fst (stream_mode f tk data a)) = length data.
Proof.
  intros data. induction data as [| t Ht | b rest Hb Hrest IH] using blocks_ind;
    intros a.
  - reflexivity.
  - rewrite stream_mode_tail by exact Ht. apply length_xor_tail.
  - rewrite stream_mode_step by assumption.
    destruct (f a (le_combine b)) as [c a']. specialize (IH a').
    destruct (stream_mode f tk rest a') as [out a''].
    cbn [fst] in *. rewrite !length_app, length_le_split, IH, Hb. reflexivity.
Qed.

End StreamMode.

Section GammaModes.
Import Cryptographer.
Variable cr : Cryptographer.t.

Lemma gammingWF_mode data S _encoding :
  gammingWF cr data S _encoding
  = let '(out, S') :=
      stream_mode (f_gammingWF cr _encoding) (cycle_32Z cr) data S in
    (true, out, S').
Proof.
  rewrite gammingWF_blocks. unfold stream_mode.
  destruct (stream_blocks _ _ _) as [[out S'] t]. reflexivity.
Qed.

Lemma gamming_mode data S :
  gamming cr data S
  = let S_ := cycle_32Z cr S in
    let '(out, a) :=
      stream_mode (f_gamming cr) (fun a => cycle_32Z cr (tk_gamming a))
                  data (S_, lo S_, hi S_) in
    (true, out, tk_gamming a).
Proof.
  rewrite gamming_blocks. unfold stream_mode. cbv zeta.
  destruct (stream_blocks _ _ _) as [[out [[S' S0'] S1']] t]. reflexivity.
Qed.

Lemma buffer_gammingWF data S _encoding :
  buffer_of (gammingWF cr data S _encoding)
  = fst (stream_mode (f_gammingWF cr _encoding) (cycle_32Z cr) data S).
Proof.
  rewrite gammingWF_mode. destruct (stream_mode _ _ _ _). reflexivity.
Qed.

Lemma buffer_gamming data S :
  buffer_of (gamming cr data S)
  = fst (stream_mode (f_gamming cr) (fun a => cycle_32Z cr (tk_gamming a))
           data (cycle_32Z cr S, lo (cycle_32Z cr S), hi (cycle_32Z cr S))).
Proof.
  rewrite gamming_mode. cbv zeta. destruct (stream_mode _ _ _ _). reflexivity.
Qed.

End GammaModes.

(** ** XOR with a gamma, and the two round trips of the gamma modes *)

Lemma lxor_mod a b k :
  0 <= k -> Z.lxor a b mod 2 ^ k = Z.lxor (a mod 2 ^ k) (b mod 2 ^ k).
Proof.
  intros Hk. rewrite <- !Z.land_ones by exact Hk.
  apply Z.bits_inj'. intros n Hn.
  rewrite !Z.land_spec, !Z.lxor_spec, !Z.land_spec.
  destruct (Z.testbit a n), (Z.testbit b n), (Z.testbit (Z.ones k) n);
    reflexivity.
Qed.

Lemma le_split_lxor_mod n a g :
  le_split n (Z.lxor (a mod 2 ^ (Z.of_nat n * 8)) g) = le_split n (Z.lxor a g).
Proof.
  rewrite (le_split_mod (Z.lxor (a mod _) g)), (le_split_mod (Z.lxor a g)).
  rewrite !(lxor_mod _ _ (Z.of_nat n * 8)) by lia.
  rewrite Z.mod_mod by (apply Z.pow_nonzero; lia). reflexivity.
Qed.

Lemma xor_tail_involutive t g : xor_tail (xor_tail t g) g = t.
Proof.
  unfold xor_tail. rewrite length_le_split, le_combine_split.
  rewrite le_split_lxor_mod, Z.lxor_assoc, Z.lxor_nilpotent, Z.lxor_0_r.
  apply split_le_combine.
Qed.

Lemma block_xor_back b g :
  length b = 8%nat ->
  le_split 8 (Z.lxor (le_combine (le_split 8 (Z.lxor (le_combine b) g))) g) = b.
Proof.
  intros Hb. pose proof (xor_tail_involutive b g) as H.
  unfold xor_tail in H. rewrite length_le_split, Hb in H. exact H.
Qed.

Lemma le_combine_8_range b : length b = 8%nat -> 0 <= le_combine b < 2 ^ 64.
Proof. intros Hb. pose proof (le_combine_bound b) as H. rewrite Hb in H. exact H. Qed.

Lemma le_combine_le_split_8 c : 0 <= c < 2 ^ 64 -> le_combine (le_split 8 c) = c.
Proof. intros Hc. rewrite le_combine_split. apply Z.mod_small. exact Hc. Qed.

Lemma nonempty_length {T : Type} (l : list T) : l <> [] <-> (0 < length l)%nat.
Proof. destruct l; cbn; split; (congruence || lia). Qed.

Section RoundTrips.
Import Cryptographer.
Variable cr : Cryptographer.t.

Lemma gammingWF_stream_roundtrip : forall data S,
  fst (stream_mode (f_gammingWF cr false) (cycle_32Z cr)
         (fst (stream_mode (f_gammingWF cr true) (cycle_32Z cr) data S)) S)
  = data.
Proof.
  intros data. induction data as [| t Ht | b rest Hb Hrest IH] using blocks_ind;
    intros S.
  - reflexivity.
  - rewrite (stream_mode_tail _ _ t) by exact Ht. cbn [fst].
    rewrite stream_mode_tail by (rewrite length_xor_tail; exact Ht).
    cbn [fst]. apply xor_tail_involutive.
  - rewrite (stream_mode_step _ _ b rest) by assumption.
    unfold f_gammingWF at 2. cbv zeta.
    set (g := cycle_32Z cr S). set (c := Z.lxor (le_combine b) g).
    pose proof (stream_mode_length (f_gammingWF cr true) (cycle_32Z cr) rest c)
      as Hlen.
    specialize (IH c).
    destruct (stream_mode (f_gammingWF cr true) (cycle_32Z cr) rest c)
      as [out S'].
    cbn [fst] in *.
    assert (Hc : 0 <= c < 2 ^ 64).
    { apply lxor_range; [lia | apply le_combine_8_range, Hb |].
      apply cycle_32Z_range. }
    rewrite stream_mode_step.
    + unfold f_gammingWF at 1. cbv zeta.
      rewrite le_combine_le_split_8 by exact Hc. fold g.
      destruct (stream_mode (f_gammingWF cr false) (cycle_32Z cr) out c)
        as [out' S''].
      cbn [fst] in *. subst c.
      rewrite Z.lxor_assoc, Z.lxor_nilpotent, Z.lxor_0_r.
      rewrite (split_le_combine' _ 8 Hb), IH. reflexivity.
    + apply length_le_split.
    + apply nonempty_length. rewrite Hlen. apply nonempty_length, Hrest.
Qed.

Lemma gamming_stream_twice : forall data a,
  fst (stream_mode (f_gamming cr) (fun a => cycle_32Z cr (tk_gamming a))
         (fst (stream_mode (f_gamming cr)
                 (fun a => cycle_32Z cr (tk_gamming a)) data a)) a)
  = data.
Proof.
  intros data. induction data as [| t Ht | b rest Hb Hrest IH] using blocks_ind;
    intros a.
  - reflexivity.
  - rewrite (stream_mode_tail _ _ t) by exact Ht. cbn [fst].
    rewrite stream_mode_tail by (rewrite length_xor_tail; exact Ht).
    cbn [fst]. apply xor_tail_involutive.
  - rewrite (stream_mode_step _ _ b rest) by assumption.
    destruct a as [[s s0] s1]. unfold f_gamming at 2. cbv zeta.
    set (a' := (recombine (next_S0 s0) (next_S1 s1), next_S0 s0, next_S1 s1)).
    set (g := cycle_32Z cr (recombine (next_S0 s0) (next_S1 s1))).
    pose proof (stream_mode_length (f_gamming cr)
                  (fun a => cycle_32Z cr (tk_gamming a)) rest a') as Hlen.
    specialize (IH a').
    destruct (stream_mode (f_gamming cr)
                (fun a => cycle_32Z cr (tk_gamming a)) rest a') as [out a''].
    cbn [fst] in *.
    rewrite stream_mode_step.
    + unfold f_gamming at 1. cbv zeta. fold a' g.
      destruct (stream_mode (f_gamming cr)
                  (fun a => cycle_32Z cr (tk_gamming a)) out a')
        as [out' a3].
      cbn [fst] in *. rewrite block_xor_back by exact Hb.
      rewrite IH. reflexivity.
    + apply length_le_split.
    + apply nonempty_length. rewrite Hlen. apply nonempty_length, Hrest.
Qed.

End RoundTrips.

(** ** Simple replacement over whole blocks *)

Lemma whole_blocks_ind (P : list byte -> Prop) :
  P [] ->
  (forall b rest, length b = 8%nat -> (length rest mod 8 = 0)%nat ->
                  P rest -> P (b ++ rest)) ->
  forall data, (length data mod 8 = 0)%nat -> P data.
Proof.
  intros Hnil Hstep data.
  remember (length data) as n eqn:Hn. revert data Hn.
  induction n as [n IH] using lt_wf_ind. intros data Hn Hmod.
  destruct (Nat.eq_dec n 0) as [Hz | Hz].
  { destruct data; [exact Hnil | cbn in Hn; lia]. }
  assert (H8 : (8 <= n)%nat).
  { destruct (le_lt_dec 8 n); [assumption |].
    rewrite Nat.mod_small in Hmod by lia. lia. }
  assert (Hrest : (length (skipn 8 data) mod 8 = 0)%nat).
  { rewrite length_skipn, <- Hn.
    replace n with (n - 8 + 1 * 8)%nat in Hmod by lia.
    rewrite Nat.Div0.mod_add in Hmod. exact Hmod. }
  rewrite <- (firstn_skipn 8 data). apply Hstep.
  - rewrite length_firstn. lia.
  - exact Hrest.
  - apply (IH (length (skipn 8 data))); [| reflexivity | exact Hrest].
    rewrite length_skipn. lia.
Qed.

Section SimpleReplace.
Import Cryptographer.
Variable cr : Cryptographer.t.

Lemma simple_blocks_step _encoding b rest :
  length b = 8%nat ->
  simple_blocks cr _encoding (b ++ rest)
  = le_split 8 (if _encoding then cycle_32Z cr (le_combine b)
                else cycle_32R cr (le_combine b))
    ++ simple_blocks cr _encoding rest.
Proof.
  intros Hb. unfold simple_blocks.
  rewrite (List.chunk_app_chunk 8) by (lia || exact Hb).
  cbn [all_blocks]. unfold f_simple at 1.
  destruct (all_blocks _ _ tt) as [out u]. reflexivity.
Qed.

Lemma simple_blocks_length _encoding : forall data,
  (length data mod 8 = 0)%nat ->
  length (simple_blocks cr _encoding data) = length data.
Proof.
  apply whole_blocks_ind.
  - reflexivity.
  - intros b rest Hb Hrest IH. rewrite simple_blocks_step by exact Hb.
    rewrite !length_app, length_le_split, IH, Hb. reflexivity.
Qed.

Lemma simple_blocks_roundtrip : forall data,
  (length data mod 8 = 0)%nat ->
  simple_blocks cr false (simple_blocks cr true data) = data.
Proof.
  apply whole_blocks_ind.
  - reflexivity.
  - intros b rest Hb Hrest IH.
    rewrite simple_blocks_step by exact Hb.
    rewrite simple_blocks_step by apply length_le_split.
    rewrite le_combine_le_split_8 by apply cycle_32Z_range.
    rewrite cycle_32R_32Z by (apply le_combine_8_range, Hb).
    rewrite (split_le_combine' _ 8 Hb), IH. reflexivity.
Qed.

End SimpleReplace.

(** ** The feedback of [gammingWF] *)

Lemma nth_chunk_0 buf : nth_chunk 0 buf = firstn 8 buf.
Proof. reflexivity. Qed.

Lemma nth_chunk_nil n : nth_chunk n [] = [].
Proof. unfold nth_chunk. rewrite skipn_nil. apply firstn_nil. Qed.

Lemma nth_chunk_S n b rest :
  length b = 8%nat -> nth_chunk (S n) (b ++ rest) = nth_chunk n rest.
Proof.
  intros Hb. unfold nth_chunk.
  replace (8 * S n)%nat with (8 * n + 8)%nat by lia.
  rewrite <- skipn_skipn, (skipn_exact' 8 b rest) by (symmetry; exact Hb).
  reflexivity.
Qed.

Lemma nth_chunk_S_short n t : (length t <= 8)%nat -> nth_chunk (S n) t = [].
Proof.
  intros Ht. unfold nth_chunk. rewrite skipn_all2 by lia. apply firstn_nil.
Qed.

Lemma nth_chunk_0_app b rest : length b = 8%nat -> nth_chunk 0 (b ++ rest) = b.
Proof.
  intros Hb. rewrite nth_chunk_0. apply firstn_exact'. symmetry. exact Hb.
Qed.

Lemma nth_chunk_0_short t : (length t <= 8)%nat -> nth_chunk 0 t = t.
Proof. intros Ht. rewrite nth_chunk_0. apply firstn_all2. exact Ht. Qed.

Lemma xor_tail_block b g :
  length b = 8%nat -> le_split 8 (Z.lxor (le_combine b) g) = xor_tail b g.
Proof. intros Hb. unfold xor_tail. rewrite Hb. reflexivity. Qed.

Section Feedback.
Import Cryptographer.
Variable cr : Cryptographer.t.
Variable _encoding : bool.

Lemma gammingWF_first_step data S :
  nth_chunk 0 (fst (stream_mode (f_gammingWF cr _encoding) (cycle_32Z cr) data S)) = xor_tail (nth_chunk 0 data) (cycle_32Z cr S).
Proof.
  revert S.
  induction data as [| t Ht | b rest Hb Hrest IH] using blocks_ind; intros S.
  - reflexivity.
  - rewrite stream_mode_tail by exact Ht. cbn [fst].
    rewrite !nth_chunk_0_short; [reflexivity | lia |].
    rewrite length_xor_tail. lia.
  - rewrite stream_mode_step by assumption.
    unfold f_gammingWF at 1. cbv zeta.
    destruct (stream_mode _ _ rest _) as [out S']. cbn [fst].
    rewrite !nth_chunk_0_app; [apply xor_tail_block, Hb | exact Hb |].
    apply length_le_split.
Qed.

Lemma gammingWF_next_step : forall data sy N,
  nth_chunk (S N) (fst (stream_mode (f_gammingWF cr _encoding) (cycle_32Z cr) data sy))
  = xor_tail (nth_chunk (S N) data)
      (cycle_32Z cr
         (le_combine
            (nth_chunk N (if _encoding then fst (stream_mode (f_gammingWF cr _encoding) (cycle_32Z cr) data sy) else data)))).
Proof.
  intros data.
  induction data as [| t Ht | b rest Hb Hrest IH] using blocks_ind; intros sy N.
  - rewrite stream_mode_nil. cbn [fst]. rewrite !nth_chunk_nil.
    reflexivity.
  - rewrite stream_mode_tail by exact Ht. cbn [fst].
    rewrite !nth_chunk_S_short; [reflexivity | lia |].
    rewrite length_xor_tail. lia.
  - pose proof (gammingWF_first_step rest) as Hfirst.
    rewrite stream_mode_step by assumption.
    unfold f_gammingWF at 1 3. cbv zeta.
    set (c := Z.lxor (le_combine b) (cycle_32Z cr sy)).
    assert (Hc : 0 <= c < 2 ^ 64).
    { apply lxor_range; [lia | apply le_combine_8_range, Hb |].
      apply cycle_32Z_range. }
    set (S' := if _encoding then c else le_combine b).
    specialize (IH S'). specialize (Hfirst S').
    destruct (stream_mode (f_gammingWF cr _encoding) (cycle_32Z cr) rest S')
      as [out S''].
    cbn [fst] in *.
    rewrite !nth_chunk_S by (exact Hb || apply length_le_split).
    destruct N as [| N].
    + rewrite Hfirst. f_equal. f_equal. subst S'.
      destruct _encoding.
      * rewrite nth_chunk_0_app by apply length_le_split.
        symmetry. apply le_combine_le_split_8, Hc.
      * rewrite nth_chunk_0_app by exact Hb. reflexivity.
    + rewrite IH. f_equal. f_equal. f_equal.
      destruct _encoding.
      * rewrite nth_chunk_S by apply length_le_split. reflexivity.
      * rewrite nth_chunk_S by exact Hb. reflexivity.
Qed.

End Feedback.

(** ** The round of [mainStep] against its description *)

Section Round.
Import Cryptographer.

Lemma mask_nibble S i :
  0 <= S -> 0 <= i < 8 ->
  uint8 (Z.shiftr (Z.land S (nth (Z.to_nat i) mask 0)) (i * 4)) = RoundSpec.nibble S i.
Proof.
  intros HS Hi. unfold RoundSpec.nibble, uint8.
  assert (Hm : nth (Z.to_nat i) mask 0 = Z.shiftl 15 (i * 4)).
  { assert (C : i = 0 \/ i = 1 \/ i = 2 \/ i = 3 \/ i = 4 \/ i = 5 \/ i = 6 \/ i = 7) by lia.
    destruct C as [-> | [-> | [-> | [-> | [-> | [-> | [-> | ->]]]]]]]; reflexivity. }
  rewrite Hm, Z.shiftr_land, Z.shiftr_shiftl_l, Z.sub_diag, Z.shiftl_0_r by lia.
  change 15 with (Z.ones 4). rewrite Z.land_ones by lia.
  rewrite Z.shiftr_div_pow2 by lia.
  replace (16 ^ i) with (2 ^ (i * 4)).
  2:{ rewrite Z.mul_comm, Z.pow_mul_r by lia. reflexivity. }
  change (2 ^ 4) with 16.
  apply Z.mod_small. pose proof (Z.mod_pos_bound (S / 2 ^ (i * 4)) 16). change (2 ^ 8) with 256. lia.
Qed.

Lemma subst_fold (t : Z -> Z) :
  (forall i, 0 <= i < 8 -> 0 <= t i <= 15) ->
  for_each (upto 8) (fun tmp i => uint32 (tmp + Z.shiftl (t i) (i * 4))) 0
  = fold_right Z.add 0 (map (fun i => t i * 16 ^ i) (upto 8)) /\
  0 <= fold_right Z.add 0 (map (fun i => t i * 16 ^ i) (upto 8)) < 2 ^ 32.
Proof.
  intros Ht.
  pose proof (Ht 0 ltac:(lia)). pose proof (Ht 1 ltac:(lia)).
  pose proof (Ht 2 ltac:(lia)). pose proof (Ht 3 ltac:(lia)).
  pose proof (Ht 4 ltac:(lia)). pose proof (Ht 5 ltac:(lia)).
  pose proof (Ht 6 ltac:(lia)). pose proof (Ht 7 ltac:(lia)).
  change (upto 8) with [0; 1; 2; 3; 4; 5; 6; 7].
  unfold for_each. cbn [fold_left fold_right map].
  rewrite !Z.shiftl_mul_pow2 by lia.
  change (2 ^ (0 * 4)) with 1. change (2 ^ (1 * 4)) with 16.
  change (2 ^ (2 * 4)) with 256. change (2 ^ (3 * 4)) with 4096.
  change (2 ^ (4 * 4)) with 65536. change (2 ^ (5 * 4)) with 1048576.
  change (2 ^ (6 * 4)) with 16777216. change (2 ^ (7 * 4)) with 268435456.
  change (16 ^ 0) with 1. change (16 ^ 1) with 16.
  change (16 ^ 2) with 256. change (16 ^ 3) with 4096.
  change (16 ^ 4) with 65536. change (16 ^ 5) with 1048576.
  change (16 ^ 6) with 16777216. change (16 ^ 7) with 268435456.
  unfold uint32. change (2 ^ 32) with 4294967296.
  repeat match goal with
         | |- context [?x mod 4294967296] =>
             lazymatch x with
             | context [_ mod _] => fail
             | _ => rewrite (Z.mod_small x 4294967296) by lia
             end
         end.
  lia.
Qed.

Lemma rotl32_code tmp :
  0 <= tmp < 2 ^ 32 ->
  uint32 (Z.lor (Z.shiftr tmp (sizeof_uint32 * byteSize - 11))
                (uint32 (Z.shiftl tmp 11)))
  = RoundSpec.rotl32 tmp 11.
Proof.
  intros Ht. unfold RoundSpec.rotl32, uint32, sizeof_uint32, byteSize.
  change (4 * 8 - 11) with 21. change (32 - 11) with 21.
  rewrite Z.shiftl_mul_pow2, Z.shiftr_div_pow2 by lia.
  assert (Hm : (tmp * 2 ^ 11) mod 2 ^ 32 = 2 ^ 11 * (tmp mod 2 ^ 21)).
  { change (2 ^ 32) with (2 ^ 21 * 2 ^ 11).
    rewrite Z.mul_mod_distr_r by lia. lia. }
  assert (Hd : 0 <= tmp / 2 ^ 21 < 2 ^ 11).
  { split; [apply Z.div_pos; lia |]. apply Z.div_lt_upper_bound; lia. }
  pose proof (Z.mod_pos_bound tmp (2 ^ 21) ltac:(lia)) as Hr.
  rewrite Z.or_to_plus.
  - rewrite Z.mod_small by (rewrite Hm; lia). lia.
  - rewrite Hm. apply Z.bits_inj'. intros n Hn.
    rewrite Z.land_spec, Z.bits_0.
    destruct (Z.ltb_spec n 11).
    + rewrite Z.mul_comm, <- Z.shiftl_mul_pow2, Z.shiftl_spec_low by lia.
      apply andb_false_r.
    + rewrite (Z.bits_above_log2 (tmp / 2 ^ 21) n); [reflexivity | lia |].
      destruct (Z.eq_dec (tmp / 2 ^ 21) 0) as [-> | Hz]; [cbn; lia |].
      apply Z.lt_le_trans with 11; [| lia].
      apply Z.log2_lt_pow2; lia.
Qed.

Lemma fold_left_ext_in {X Y : Type} (f g : X -> Y -> X) (l : list Y) :
  (forall a y, In y l -> f a y = g a y) ->
  forall a, fold_left f l a = fold_left g l a.
Proof.
  induction l as [| y l IH]; intros Hfg a; [reflexivity |].
  cbn [fold_left]. rewrite Hfg by (left; reflexivity).
  apply IH. intros a' y' Hy. apply Hfg. right. exact Hy.
Qed.

Lemma in_upto i n : In i (upto n) -> 0 <= i < Z.of_nat n.
Proof.
  unfold upto. rewrite in_map_iff. intros (k & <- & Hk).
  apply in_seq in Hk. lia.
Qed.

Lemma nibble_range x i : 0 <= RoundSpec.nibble x i < 16.
Proof. apply Z.mod_pos_bound. lia. Qed.

Lemma nibble_table_at cr i j : nibble_table cr -> 0 <= table_at cr i j <= 15.
Proof.
  intros Ht. unfold table_at.
  set (row := nth (Z.to_nat i) (m_replace_table cr) []).
  assert (Hrow : Forall (fun v => 0 <= v <= 15) row).
  { subst row. destruct (nth_in_or_default (Z.to_nat i) (m_replace_table cr) [])
      as [Hin | ->]; [| constructor].
    unfold nibble_table in Ht. rewrite Forall_forall in Ht. apply Ht, Hin. }
  destruct (nth_in_or_default (Z.to_nat j) row 0) as [Hin | ->]; [| lia].
  rewrite Forall_forall in Hrow. apply Hrow, Hin.
Qed.

Lemma round_f_spec cr k N1 :
  nibble_table cr -> 0 <= N1 ->
  round_f cr k N1
  = RoundSpec.rotl32
      (RoundSpec.substitute cr ((N1 + key_at cr k) mod (2 ^ 32 - 1))) 11.
Proof.
  intros Ht HN. unfold round_f.
  change (pow2 (sizeof_uint32 * byteSize) - 1) with (2 ^ 32 - 1).
  set (sum := (N1 + key_at cr k) mod (2 ^ 32 - 1)).
  assert (Hsum : 0 <= sum < 2 ^ 32 - 1) by (apply Z.mod_pos_bound; lia).
  rewrite (uint32_small sum) by lia. cbv zeta.
  set (t := fun i => table_at cr i (RoundSpec.nibble sum i)).
  assert (Hfold :
    for_each (upto 8)
      (fun tmp_res i =>
         uint32 (tmp_res
                 + Z.shiftl
                     (table_at cr i
                        (uint8 (Z.shiftr (Z.land sum (nth (Z.to_nat i) mask 0))
                                         (i * 4))))
                     (i * 4))) 0
    = for_each (upto 8) (fun tmp i => uint32 (tmp + Z.shiftl (t i) (i * 4))) 0).
  { unfold for_each. apply fold_left_ext_in. intros a i Hi.
    apply in_upto in Hi. subst t. cbv beta.
    rewrite mask_nibble by lia. reflexivity. }
  rewrite Hfold.
  destruct (subst_fold t) as [Hs Hr].
  { intros i _. subst t. apply nibble_table_at, Ht. }
  rewrite Hs. apply rotl32_code. exact Hr.
Qed.

End Round.

(** ** The imitation insert as a fold *)

Section Mac.
Import Cryptographer.
Variable cr : Cryptographer.t.

Lemma cycle_16Z_reducedCycle d : cycle_16Z cr d = MacSpec.reducedCycle cr d.
Proof.
  rewrite cycle_16Z_unfold. unfold steps, MacSpec.reducedCycle, keys_16Z.
  generalize (mainStep cr). intros step.
  change (upto 8) with [0; 1; 2; 3; 4; 5; 6; 7]. reflexivity.
Qed.

Lemma le_combine_pad8 blk : le_combine (MacSpec.pad8 blk) = le_combine blk.
Proof. apply le_combine_app_0. Qed.

Lemma fold_left_cons {X Y : Type} (f : X -> Y -> X) y l a :
  fold_left f (y :: l) a = fold_left f l (f a y).
Proof. reflexivity. Qed.

Lemma imiIns_stream_fold : forall bs a,
  Forall (fun b => (0 < length b)%nat) bs ->
  (let '(_, S', t) := stream_blocks (f_imiIns cr) bs a in
   if negb (Nat.eqb (length t) 0)
   then cycle_16Z cr (Z.lxor S' (le_combine t))
   else S')
  = fold_left
      (fun accumulator blk =>
         MacSpec.reducedCycle cr
           (Z.lxor accumulator (le_combine (MacSpec.pad8 blk))))
      bs a.
Proof.
  induction bs as [| b bs IH]; intros a Hbs; [reflexivity |].
  inversion Hbs as [| b' bs' Hb Hrest]; subst b' bs'.
  destruct bs as [| c cs].
  - cbn [stream_blocks]. rewrite fold_left_cons. cbn [fold_left].
    destruct (Nat.eqb_spec (length b) 0) as [E | E]; [lia |]. cbn [negb].
    rewrite (le_combine_pad8 b).
    apply (cycle_16Z_reducedCycle (Z.lxor a (le_combine b))).
  - rewrite stream_blocks_cons. unfold f_imiIns at 1.
    specialize (IH (cycle_16Z cr (Z.lxor a (le_combine b))) Hrest).
    destruct (stream_blocks (f_imiIns cr) (c :: cs) _) as [[out S'] t].
    rewrite IH. symmetry. rewrite fold_left_cons.
    rewrite (le_combine_pad8 b).
    rewrite <- (cycle_16Z_reducedCycle (Z.lxor a (le_combine b))).
    reflexivity.
Qed.

Lemma chunk_nonempty (data : list byte) :
  Forall (fun b => (0 < length b)%nat) (List.chunk 8 data).
Proof.
  eapply Forall_impl; [| apply (List.Forall_chunk_length_le 8); lia].
  cbv beta. intros b Hb. lia.
Qed.

End Mac.

(** ** [init]: the key and the table after the draws *)

Lemma upto_S n : upto (S n) = upto n ++ [Z.of_nat n].
Proof. unfold upto. rewrite seq_S, map_app. reflexivity. Qed.

Lemma for_each_upto_inv {X : Type} (P : nat -> X -> Prop) (body : X -> Z -> X)
  (n : nat) (a : X) :
  P 0%nat a ->
  (forall k x, (k < n)%nat -> P k x -> P (S k) (body x (Z.of_nat k))) ->
  P n (for_each (upto n) body a).
Proof.
  intros H0 Hstep. induction n as [| n IH]; [exact H0 |].
  rewrite upto_S. unfold for_each. rewrite fold_left_app. cbn [fold_left].
  apply Hstep; [lia |]. apply IH. intros k x Hk. apply Hstep. lia.
Qed.

Section InitFacts.
Import Cryptographer.
Variable rng : Type.
Variable srandom : Z -> rng.
Variable random : rng -> Z * rng.

Lemma random_advance n g :
  random (advance rng random n g)
  = (draw rng random n g, advance rng random (S n) g).
Proof. unfold draw. cbn [advance]. apply surjective_pairing. Qed.

Lemma shape_set_key cr i v : shape cr -> shape (set_key cr i v).
Proof.
  intros (Hk & Ht & Hr). unfold shape, set_key. cbn [m_key m_replace_table].
  rewrite List.upd_length. auto.
Qed.

Lemma table_at_set_key cr k v i j :
  table_at (set_key cr k v) i j = table_at cr i j.
Proof. reflexivity. Qed.

Lemma shape_row cr i :
  shape cr -> (i < 8)%nat -> length (nth i (m_replace_table cr) []) = 16%nat.
Proof.
  intros (Hk & Ht & Hr) Hi. rewrite Forall_forall in Hr.
  apply Hr, nth_In. lia.
Qed.

Lemma shape_set_table cr i j v :
  shape cr -> 0 <= i < 8 -> shape (set_table cr i j v).
Proof.
  intros Hs Hi. pose proof (shape_row cr (Z.to_nat i) Hs ltac:(lia)) as Hrow.
  destruct Hs as (Hk & Ht & Hr).
  unfold shape, set_table. cbn [m_key m_replace_table].
  rewrite List.upd_length. repeat split; try assumption.
  apply Forall_forall. intros row Hin.
  destruct (In_nth _ _ [] Hin) as (n & Hn & <-).
  rewrite List.upd_length in Hn.
  destruct (Nat.eq_dec n (Z.to_nat i)) as [-> | Hne].
  - rewrite nth_upd_same by lia. rewrite List.upd_length. exact Hrow.
  - rewrite nth_upd_diff by exact Hne.
    rewrite Forall_forall in Hr. apply Hr, nth_In. exact Hn.
Qed.

Lemma table_at_set_table cr i j v i' j' :
  shape cr -> 0 <= i < 8 -> 0 <= j < 16 -> 0 <= i' -> 0 <= j' ->
  table_at (set_table cr i j v) i' j'
  = if (i' =? i) && (j' =? j) then v else table_at cr i' j'.
Proof.
  intros Hs Hi Hj Hi' Hj'.
  pose proof (shape_row cr (Z.to_nat i) Hs ltac:(lia)) as Hrow.
  destruct Hs as (Hk & Ht & Hr).
  unfold table_at, set_table. cbn [m_replace_table].
  destruct (Z.eqb_spec i' i) as [-> | Hne]; cbn [andb].
  - rewrite nth_upd_same by lia.
    destruct (Z.eqb_spec j' j) as [-> | Hnj].
    + apply nth_upd_same. lia.
    + apply nth_upd_diff. lia.
  - rewrite nth_upd_diff by lia. reflexivity.
Qed.

Lemma init_inner g0 i st :
  (i < 8)%nat ->
  filled rng random g0 i 0 (17 * i + 1) st ->
  filled rng random g0 i 16 (17 * i + 17)
    (for_each (upto 16)
       (fun '(cr, g) j =>
          let '(r, g) := random g in
          (set_table cr (Z.of_nat i) j (uint8 (Z.rem r 0xf)), g))
       st).
Proof.
  intros Hi H0.
  replace (17 * i + 17)%nat with (17 * i + 1 + 16)%nat by lia.
  apply (for_each_upto_inv
           (fun j st => filled rng random g0 i j (17 * i + 1 + j) st)).
  - rewrite Nat.add_0_r. exact H0.
  - intros j [cr g] Hj (Hs & Hg & Hdone). cbn [fst snd] in *. subst g.
    rewrite random_advance.
    replace (S (17 * i + 1 + j)) with (17 * i + 1 + S j)%nat by lia.
    split; [apply shape_set_table; [exact Hs | lia] |].
    split; [reflexivity |].
    intros i' j' Hj' Hpos. cbn [fst].
    rewrite table_at_set_table by (exact Hs || lia).
    destruct (Z.eqb_spec (Z.of_nat i') (Z.of_nat i)) as [Ei | Ei];
      destruct (Z.eqb_spec (Z.of_nat j') (Z.of_nat j)) as [Ej | Ej];
      cbn [andb].
    + apply Nat2Z.inj in Ei, Ej. subst i' j'. reflexivity.
    + apply Hdone; [exact Hj' | lia].
    + apply Hdone; [exact Hj' | lia].
    + apply Hdone; [exact Hj' | lia].
Qed.

Lemma init_filled (cr : t) (now : Z) (_rand : bool) :
  shape cr ->
  filled rng random (if _rand then srandom now else srandom 0) 8 0 (17 * 8)
         (init rng srandom random cr now _rand).
Proof.
  intros Hs. unfold init. set (g0 := if _rand then srandom now else srandom 0).
  apply (for_each_upto_inv (fun i st => filled rng random g0 i 0 (17 * i) st)).
  - split; [exact Hs |]. split; [reflexivity |]. intros i' j' _ H. lia.
  - intros i [cr' g] Hi (Hs' & Hg & Hdone). cbn [fst snd] in *. subst g.
    rewrite random_advance.
    assert (Hk : filled rng random g0 i 0 (17 * i + 1)
                   (set_key cr' (Z.of_nat i)
                      (uint32 (Z.rem (draw rng random (17 * i) g0) 0xffffffff)),
                    advance rng random (S (17 * i)) g0)).
    { split; [apply shape_set_key, Hs' |]. cbn [fst snd].
      split; [f_equal; lia |].
      intros i' j' Hj' Hpos. rewrite table_at_set_key. apply Hdone; assumption. }
    pose proof (init_inner g0 i _ Hi Hk) as (Hs2 & Hg2 & Hdone2).
    split; [exact Hs2 |].
    split; [rewrite Hg2; f_equal; lia |].
    intros i' j' Hj' Hpos. apply Hdone2; [exact Hj' | lia].
Qed.

Lemma entry_range g0 n :
  (forall g, 0 <= fst (random g)) ->
  entry rng random g0 n = draw rng random n g0 mod 15 /\ 0 <= entry rng random g0 n <= 14.
Proof.
  intros Hpos. unfold entry, uint8.
  assert (Hd : 0 <= draw rng random n g0) by apply Hpos.
  rewrite Z.rem_mod_nonneg by lia.
  pose proof (Z.mod_pos_bound (draw rng random n g0) 15 ltac:(lia)).
  rewrite Z.mod_small by lia. lia.
Qed.

End InitFacts.

(** ** [isCurrentS]: what the count is and which counts pass *)

Section IsCurrentSFacts.
Import RandomGen.

Lemma isCurrentS_accept shl S :
  isCurrentS shl S
  = accept_count
      (for_each (upto 64)
         (fun zero i =>
            if negb (Z.land S (uint64 (shl 1 i)) =? 0) then uint8 (zero + 1)
            else zero)
         0).
Proof.
  unfold isCurrentS, accept_count.
  change (Z.to_nat (uint8 (Z.of_nat sizeof_S * 8))) with 64%nat.
  cbv zeta.
  generalize (for_each (upto 64)
                (fun zero i =>
                   if negb (Z.land S (uint64 (shl 1 i)) =? 0)
                   then uint8 (zero + 1)
                   else zero)
                0).
  intros z. reflexivity.
Qed.

Lemma accept_count_band zero :
  0 <= zero <= 64 -> accept_count zero = (32 <=? zero) && (zero <=? 35).
Proof.
  intros Hz.
  assert (Hall : forallb (fun z => Bool.eqb (accept_count z)
                                     ((32 <=? z) && (z <=? 35)))
                         (upto 65) = true) by (vm_compute; reflexivity).
  rewrite forallb_forall in Hall.
  apply Bool.eqb_prop, Hall.
  unfold upto. apply in_map_iff. exists (Z.to_nat zero).
  split; [lia |]. apply in_seq. lia.
Qed.

Lemma count_loop (p : Z -> bool) : forall (l : list Z) (z : Z),
  0 <= z -> z + Z.of_nat (length l) < 256 ->
  fold_left (fun zero i => if p i then uint8 (zero + 1) else zero) l z
  = z + Z.of_nat (length (filter p l)).
Proof.
  induction l as [| i l IH]; intros z Hz Hb; [cbn; lia |].
  cbn [fold_left filter]. cbn [length] in Hb.
  destruct (p i).
  - unfold uint8. rewrite Z.mod_small by (change (2 ^ 8) with 256; lia).
    rewrite IH by lia. cbn [length]. lia.
  - apply IH; lia.
Qed.

End IsCurrentSFacts.

(** ** The last step of [gamming] *)

Section GammingLastStep.
Import Cryptographer.
Variable cr : Cryptographer.t.

(** The code after the loop of [gamming] uses the synchro of the last
    loop iteration again: the last two steps of a buffer get the same
    gamma. *)
Lemma gamming_last_step_gamma (S : Z) (b1 b2 : list byte) :
  length b1 = 8%nat -> (0 < length b2 <= 8)%nat ->
  let S_ := cycle_32Z cr S in
  let g := cycle_32Z cr (recombine (next_S0 (lo S_)) (next_S1 (hi S_))) in
  buffer_of (gamming cr (b1 ++ b2) S) = xor_tail b1 g ++ xor_tail b2 g.
Proof.
  intros H1 H2. cbv zeta. rewrite buffer_gamming.
  rewrite stream_mode_step by (exact H1 || (apply nonempty_length; lia)).
  unfold f_gamming at 1. cbv zeta.
  rewrite stream_mode_tail by exact H2. cbn [fst tk_gamming].
  rewrite xor_tail_block by exact H1. reflexivity.
Qed.

(** A buffer of at most 8 bytes is XORed with the encrypt cycle of the
    synchro as [gamming] found it after its first line: no counter is
    advanced. *)
Lemma gamming_single_step_gamma (S : Z) (t : list byte) :
  (0 < length t <= 8)%nat ->
  buffer_of (gamming cr t S) = xor_tail t (cycle_32Z cr (cycle_32Z cr S)).
Proof.
  intros Ht. rewrite buffer_gamming.
  rewrite stream_mode_tail by exact Ht. reflexivity.
Qed.

End GammingLastStep.

(** The sum [S1 + C2 - 1] of the second counter is formed in [uint32]: when
    it passes [2^32] it wraps before the reduction modulo [2^32 - 1]. *)
Example next_S1_wraps_first :
  next_S1 0xffffffff = 0x01010103 /\
  (0xffffffff + 0x1010104 - 1) mod (2 ^ 32 - 1) + 1 = 0x01010104.
Proof. split; reflexivity. Qed.

(** With the shift of the x86 instruction the loop of [isCurrentS] sees the
    low 31 bits twice: a synchro with 16 set bits passes. *)
Example isCurrentS_x86_accepts_sparse :
  popcount64 0xffff = 16 /\
  RandomGen.isCurrentS RandomGen.shl_int_x86 0xffff = true.
Proof. vm_compute. split; reflexivity. Qed.

(** Decrypting [sixteen_bytes]: the second step takes the first block of the
    input as its synchro, and that block is what the call leaves in [S]. *)
Example gammingWF_decrypt_sixteen_bytes :
  let r := Cryptographer.gammingWF cr_example sixteen_bytes 0 false in
  nth_chunk 1 (buffer_of r)
  = xor_tail (nth_chunk 1 sixteen_bytes)
      (Cryptographer.cycle_32Z cr_example
         (le_combine (nth_chunk 0 sixteen_bytes))) /\
  sync_of r = le_combine (nth_chunk 0 sixteen_bytes).
Proof. vm_compute. split; reflexivity. Qed.

(** ** The gamma of [gamming] does not depend on the data *)

Lemma of_Z_wrap_eq a b : a mod 2 ^ 8 = b mod 2 ^ 8 -> byte.of_Z a = byte.of_Z b.
Proof.
  intros H. apply byte.unsigned_inj. rewrite !byte.unsigned_of_Z. exact H.
Qed.

Lemma byte_unsigned_range x : 0 <= byte.unsigned x < 2 ^ 8.
Proof.
  pose proof (byte.wrap_range (byte.unsigned x)) as H.
  rewrite byte.wrap_unsigned in H. exact H.
Qed.

Lemma le_split_S n z :
  le_split (S n) z = byte.of_Z z :: le_split n (Z.shiftr z 8).
Proof. reflexivity. Qed.

Lemma le_combine_cons h t :
  le_combine (h :: t) = Z.lor (byte.unsigned h) (Z.shiftl (le_combine t) 8).
Proof. reflexivity. Qed.

Lemma xor_tail_bytes : forall t g,
  xor_tail t g = xor_bytes t (le_split (length t) g).
Proof.
  induction t as [| h t IH]; intros g; [reflexivity |].
  unfold xor_tail. cbn [length]. rewrite !le_split_S, le_combine_cons.
  unfold xor_bytes. cbn [combine map fst snd]. f_equal.
  - unfold byte_xor. apply of_Z_wrap_eq.
    rewrite byte.unsigned_of_Z. unfold byte.wrap.
    pose proof (byte_unsigned_range h) as Hh.
    rewrite <- (Z.mod_small (byte.unsigned h) (2 ^ 8)) at 1 by exact Hh.
    rewrite <- !Z.land_ones by lia.
    apply Z.bits_inj'. intros n Hn.
    rewrite !Z.land_spec, !Z.lxor_spec, Z.lor_spec, !Z.land_spec.
    destruct (Z.ltb_spec n 8).
    + rewrite Z.shiftl_spec_low by lia.
      rewrite Z.ones_spec_low by lia.
      destruct (Z.testbit (byte.unsigned h) n), (Z.testbit g n); reflexivity.
    + rewrite Z.ones_spec_high by lia. rewrite !andb_false_r. reflexivity.
  - fold (xor_bytes t (le_split (length t) (Z.shiftr g 8))).
    rewrite <- IH. unfold xor_tail. f_equal.
    rewrite Z.shiftr_lxor, Z.shiftr_lor, Z.shiftr_shiftl_l by lia.
    change (8 - 8) with 0. rewrite Z.shiftl_0_r.
    pose proof (byte_unsigned_range h) as Hh.
    rewrite (Z.shiftr_div_pow2 (byte.unsigned h)) by lia.
    rewrite Z.div_small by exact Hh. reflexivity.
Qed.

Lemma xor_bytes_app a1 a2 b1 b2 :
  length a1 = length b1 ->
  xor_bytes (a1 ++ a2) (b1 ++ b2) = xor_bytes a1 b1 ++ xor_bytes a2 b2.
Proof.
  intros H. unfold xor_bytes. rewrite combine_app by exact H. apply map_app.
Qed.

Lemma xor_tail_zeros n g : xor_tail (repeat Byte.x00 n) g = le_split n g.
Proof.
  unfold xor_tail. rewrite repeat_length, le_combine_0, Z.lxor_0_l.
  reflexivity.
Qed.

Section Keystream.
Import Cryptographer.
Variable cr : Cryptographer.t.

Lemma f_gamming_eq s s0 s1 blk :
  f_gamming cr (s, s0, s1) blk
  = (Z.lxor blk (cycle_32Z cr (recombine (next_S0 s0) (next_S1 s1))),
     (recombine (next_S0 s0) (next_S1 s1), next_S0 s0, next_S1 s1)).
Proof. reflexivity. Qed.

Lemma gamming_stream_xor : forall data a,
  fst (stream_mode (f_gamming cr) (fun a => cycle_32Z cr (tk_gamming a)) data a)
  = xor_bytes data
      (fst (stream_mode (f_gamming cr) (fun a => cycle_32Z cr (tk_gamming a))
              (repeat Byte.x00 (length data)) a)).
Proof.
  intros data. induction data as [| t Ht | b rest Hb Hrest IH] using blocks_ind;
    intros a.
  - reflexivity.
  - rewrite (stream_mode_tail _ _ t) by exact Ht.
    rewrite stream_mode_tail by (rewrite repeat_length; exact Ht).
    cbn [fst]. rewrite xor_tail_zeros. apply xor_tail_bytes.
  - rewrite length_app, repeat_app, Hb.
    assert (Hz : repeat Byte.x00 (length rest) <> []).
    { apply nonempty_length. rewrite repeat_length.
      apply nonempty_length, Hrest. }
    rewrite !stream_mode_step by (assumption || apply repeat_length).
    destruct a as [[s s0] s1]. rewrite !f_gamming_eq.
    set (a' := (recombine (next_S0 s0) (next_S1 s1), next_S0 s0, next_S1 s1)).
    set (g := cycle_32Z cr (recombine (next_S0 s0) (next_S1 s1))).
    specialize (IH a').
    destruct (stream_mode (f_gamming cr)
                (fun a => cycle_32Z cr (tk_gamming a)) rest a') as [out a''].
    destruct (stream_mode (f_gamming cr)
                (fun a => cycle_32Z cr (tk_gamming a))
                (repeat Byte.x00 (length rest)) a') as [ks a3].
    cbn [fst] in *.
    rewrite xor_bytes_app by (rewrite length_le_split; exact Hb).
    rewrite IH. f_equal.
    rewrite xor_tail_block by exact Hb.
    rewrite xor_tail_bytes, Hb.
    rewrite le_combine_0, Z.lxor_0_l. reflexivity.
Qed.

End Keystream.

(** * The claims *)

(** C1. For every key, substitution table and byte buffer whose length is a
    multiple of 8, [simpleReplace] with [_encoding = true] succeeds, and
    [simpleReplace] with [_encoding = false] applied to its result gives the
    original buffer back; and on every 64-bit block the decrypt cycle
    [cycle_32R] undoes the encrypt cycle [cycle_32Z]. *)
Theorem simpleReplace_decrypt_encrypt (cr : Cryptographer.t) (data : list byte) :
  (length data mod 8 = 0)%nat ->
  fst (Cryptographer.simpleReplace cr data true) = true /\
  Cryptographer.simpleReplace cr
    (snd (Cryptographer.simpleReplace cr data true)) false = (true, data) /\
  (forall block, 0 <= block < 2 ^ 64 ->
     Cryptographer.cycle_32R cr (Cryptographer.cycle_32Z cr block) = block).
Proof.
  intros Hmod. rewrite (simpleReplace_blocks cr data true Hmod).
  fold (simple_blocks cr true data). cbn [fst snd].
  split; [reflexivity |]. split.
  - rewrite simpleReplace_blocks
      by (rewrite simple_blocks_length; exact Hmod).
    fold (simple_blocks cr false (simple_blocks cr true data)).
    rewrite simple_blocks_roundtrip by exact Hmod. reflexivity.
  - intros block Hb. apply cycle_32R_32Z, Hb.
Qed.

Lemma simpleReplace_decrypt_encrypt_witness :
  (length sixteen_bytes mod 8 = 0)%nat /\
  fst (Cryptographer.simpleReplace cr_example sixteen_bytes true) = true /\
  Cryptographer.simpleReplace cr_example
    (snd (Cryptographer.simpleReplace cr_example sixteen_bytes true)) false
  = (true, sixteen_bytes) /\
  (forall block, 0 <= block < 2 ^ 64 ->
     Cryptographer.cycle_32R cr_example (Cryptographer.cycle_32Z cr_example block)
     = block).
Proof.
  split; [reflexivity |].
  apply (simpleReplace_decrypt_encrypt cr_example sixteen_bytes). reflexivity.
Defined.

(** C2. For every 64-bit block with low half [N1] and high half [N2],
    every key-word index [k] and every substitution table with entries in
    [0,15], [mainStep] returns [(N1 << 32) | (R XOR N2)], where [R] is: the
    sum [(N1 + Key[k]) mod (2^32 - 1)] in exact arithmetic, each nibble [i]
    of the sum replaced by [SubstitutionTable[i][nibble_i]], the eight
    nibbles put together again, and the result rotated left by 11 bits
    ([RoundSpec.mainStep]). *)
Theorem mainStep_round_spec (cr : Cryptographer.t) (N1 N2 k : Z) :
  0 <= N1 < 2 ^ 32 -> 0 <= N2 < 2 ^ 32 -> 0 <= k < 8 -> nibble_table cr ->
  Cryptographer.mainStep cr (N1 + 2 ^ 32 * N2) k = RoundSpec.mainStep cr N1 N2 k.
Proof.
  intros H1 H2 Hk Ht.
  replace (N1 + 2 ^ 32 * N2) with (join (N1, N2)) by (rewrite join_eq; lia).
  rewrite mainStep_unfold.
  pose proof (halves_join N1 N2 H1 H2) as Hh. unfold halves in Hh.
  injection Hh as Hlo Hhi. rewrite Hlo, Hhi.
  rewrite round_f_spec by (exact Ht || lia).
  unfold RoundSpec.mainStep. f_equal.
  apply uint64_small. unfold sizeof_uint32, byteSize.
  rewrite Z.shiftl_mul_pow2 by lia. lia.
Qed.

Lemma mainStep_round_spec_witness :
  0 <= 0x89abcdef < 2 ^ 32 /\ 0 <= 0x01234567 < 2 ^ 32 /\ 0 <= 3 < 8 /\
  nibble_table cr_example /\
  Cryptographer.mainStep cr_example (0x89abcdef + 2 ^ 32 * 0x01234567) 3
  = RoundSpec.mainStep cr_example 0x89abcdef 0x01234567 3.
Proof.
  assert (Ht : nibble_table cr_example).
  { unfold nibble_table, cr_example. cbn [Cryptographer.m_replace_table].
    apply Forall_forall. intros row Hrow. apply repeat_spec in Hrow. subst row.
    apply Forall_forall. intros v Hv. apply in_upto in Hv. lia. }
  split; [lia |]. split; [lia |]. split; [lia |]. split; [exact Ht |].
  apply (mainStep_round_spec cr_example 0x89abcdef 0x01234567 3); (lia || exact Ht).
Defined.

(** C3.  The counter schedule of [gamming] stops one step short: on 16 zero
    bytes (key words 1..8, identity table, synchro 0) the second and last
    step is XORed with the same gamma as the first, not with the encrypt
    cycle of the counters advanced once more. *)
Theorem gamming_final_step_repeats_gamma :
  let r := Cryptographer.gamming cr_example (repeat Byte.x00 16) 0 in
  let S_ := Cryptographer.cycle_32Z cr_example 0 in
  buffer_of r
  = [Byte.xfe; Byte.x4c; Byte.x66; Byte.xf8; Byte.x42; Byte.x3d; Byte.xfd; Byte.x84;
     Byte.xfe; Byte.x4c; Byte.x66; Byte.xf8; Byte.x42; Byte.x3d; Byte.xfd; Byte.x84] /\
  nth_chunk 1 (buffer_of r) = nth_chunk 0 (buffer_of r) /\
  nth_chunk 1 (buffer_of r)
  <> xor_tail (repeat Byte.x00 8)
       (Cryptographer.cycle_32Z cr_example
          (recombine (next_S0 (next_S0 (lo S_))) (next_S1 (next_S1 (hi S_))))).
Proof.
  vm_compute. split; [reflexivity |]. split; [reflexivity |].
  intros H; discriminate H.
Qed.

(** C4, as amended.  In [gammingWF], in both directions, step [N + 1] XORs
    its data with the encrypt cycle of the ciphertext block of step [N]:
    the block step [N] produced when encrypting, the block step [N]
    consumed (its input, before the XOR) when decrypting; the first step
    uses the synchro passed in. *)
Theorem gammingWF_feedback (cr : Cryptographer.t) (data : list byte) (S : Z)
  (_encoding : bool) (N : nat) :
  let out := buffer_of (Cryptographer.gammingWF cr data S _encoding) in
  let cipher := if _encoding then out else data in
  nth_chunk 0 out
  = xor_tail (nth_chunk 0 data) (Cryptographer.cycle_32Z cr S) /\
  nth_chunk (N + 1) out
  = xor_tail (nth_chunk (N + 1) data)
      (Cryptographer.cycle_32Z cr (le_combine (nth_chunk N cipher))).
Proof.
  cbv zeta. rewrite !buffer_gammingWF. split.
  - apply gammingWF_first_step.
  - rewrite Nat.add_1_r. apply gammingWF_next_step.
Qed.

(** C4 as stated fails: decrypting [sixteen_bytes], the second step does
    not use the plaintext block of the first step as its synchro, and the
    synchro left by the call is not the last block, neither the one consumed
    nor the one produced. *)
Lemma gammingWF_feedback_as_stated_fails :
  let r := Cryptographer.gammingWF cr_example sixteen_bytes 0 false in
  nth_chunk 1 (buffer_of r)
  <> xor_tail (nth_chunk 1 sixteen_bytes)
       (Cryptographer.cycle_32Z cr_example
          (le_combine (nth_chunk 0 (buffer_of r)))) /\
  sync_of r <> le_combine (nth_chunk 1 sixteen_bytes) /\
  sync_of r <> le_combine (nth_chunk 1 (buffer_of r)).
Proof.
  vm_compute. repeat split; intros H; discriminate H.
Qed.

(** C5. For every key/table, initial synchro [S0] and buffer of any length,
    [gammingWF] with [_encoding = true] from [S0], followed by [gammingWF]
    with [_encoding = false] on the resulting buffer with the synchro set to
    the same [S0], gives the original buffer back. *)
Theorem gammingWF_decrypt_encrypt (cr : Cryptographer.t) (S0 : Z)
  (data : list byte) :
  buffer_of
    (Cryptographer.gammingWF cr
       (buffer_of (Cryptographer.gammingWF cr data S0 true)) S0 false)
  = data.
Proof.
  rewrite !buffer_gammingWF. apply gammingWF_stream_roundtrip.
Qed.


(** C7. For every key/table and buffer, [imiIns] is the fold that starts
    from a zero accumulator and, for each 8-byte block of the buffer, the
    last one padded with zeros, sets the accumulator to the reduced cycle
    (16 rounds, no exchange of the halves at the end) of the accumulator
    XOR the block, and returns the low 32 bits of the final accumulator.
    It is a function of the key/table and the data only: no synchro enters
    it. *)
Theorem imiIns_fold (cr : Cryptographer.t) (data : list byte) :
  Cryptographer.imiIns cr data = MacSpec.computeMAC cr data.
Proof.
  rewrite imiIns_blocks.
  pose proof (imiIns_stream_fold cr (List.chunk 8 data) 0 (chunk_nonempty data))
    as Hfold.
  destruct (stream_blocks (f_imiIns cr) (List.chunk 8 data) 0) as [[out S'] t].
  rewrite lo_def, lo_eq, Hfold. reflexivity.
Qed.

(** C8. [simpleReplace] returns [false] exactly when the size is not a
    multiple of 8, and then the buffer is left as it was; for every size
    that is a multiple of 8 it returns [true] (with every block replaced by
    its cycle). *)
Theorem simpleReplace_size_check (cr : Cryptographer.t) (data : list byte)
  (_encoding : bool) :
  (fst (Cryptographer.simpleReplace cr data _encoding) = false
   <-> (length data mod 8 <> 0)%nat) /\
  Cryptographer.simpleReplace cr data _encoding
  = if Nat.eqb (length data mod 8) 0
    then (true, simple_blocks cr _encoding data)
    else (false, data).
Proof.
  destruct (Nat.eqb_spec (length data mod 8) 0) as [E | E].
  - rewrite (simpleReplace_blocks cr data _encoding E). cbn [fst].
    split; [| reflexivity]. split; [discriminate | intros H; contradiction].
  - unfold Cryptographer.simpleReplace.
    destruct (Nat.eqb_spec (length data mod 8) 0) as [E' | _]; [contradiction |].
    cbn [negb fst]. split; [| reflexivity]. split; intros _; [exact E | reflexivity].
Qed.

(** C9.  [isCurrentS] turns down a synchro whose popcount is within 12% of
    half the bit width: [0x7FFFFFFF] has 31 set bits, and the check, with
    the shift of the x86 instruction, answers [false]. *)
Theorem isCurrentS_rejects_balanced_synchro :
  popcount64 0x7FFFFFFF = 31 /\
  bit_balanced 0x7FFFFFFF = true /\
  RandomGen.isCurrentS RandomGen.shl_int_x86 0x7FFFFFFF = false.
Proof. vm_compute. repeat split; reflexivity. Qed.

(** C10.  After [init], with either value of [_rand], the entry [(i, j)] of
    the substitution table is the draw number [17 i + 1 + j] of the
    generator reduced modulo 15; it lies in [0,14], and so does every entry
    of the table: the value 15 does not occur. *)
Theorem init_table_entries (rng : Type) (srandom : Z -> rng)
  (random : rng -> Z * rng) (cr : Cryptographer.t) (now : Z) (_rand : bool)
  (i j : Z) :
  (forall g, 0 <= fst (random g)) -> shape cr -> 0 <= i < 8 -> 0 <= j < 16 ->
  let cr' := fst (Cryptographer.init rng srandom random cr now _rand) in
  let g0 := if _rand then srandom now else srandom 0 in
  Cryptographer.table_at cr' i j
  = draw rng random (Z.to_nat (17 * i + 1 + j)) g0 mod 15 /\
  0 <= Cryptographer.table_at cr' i j <= 14 /\
  Forall (Forall (fun v => 0 <= v <= 14)) (Cryptographer.m_replace_table cr').
Proof.
  intros Hpos Hs Hi Hj. cbv zeta.
  destruct (init_filled rng srandom random cr now _rand Hs)
    as (Hs' & _ & Hdone).
  set (st := Cryptographer.init rng srandom random cr now _rand) in *.
  set (g0 := if _rand then srandom now else srandom 0) in *.
  assert (Hentry : forall i' j', (i' < 8)%nat -> (j' < 16)%nat ->
            Cryptographer.table_at (fst st) (Z.of_nat i') (Z.of_nat j')
            = entry rng random g0 (17 * i' + 1 + j')).
  { intros i' j' Hi' Hj'. apply Hdone; [exact Hj' | lia]. }
  pose proof (Hentry (Z.to_nat i) (Z.to_nat j) ltac:(lia) ltac:(lia)) as Hij.
  rewrite !Z2Nat.id in Hij by lia.
  replace (17 * Z.to_nat i + 1 + Z.to_nat j)%nat
    with (Z.to_nat (17 * i + 1 + j)) in Hij by lia.
  destruct (entry_range rng random g0 (Z.to_nat (17 * i + 1 + j)) Hpos)
    as [He Hr].
  rewrite Hij. split; [exact He |]. split; [exact Hr |].
  destruct Hs' as (_ & Hlen & Hrows).
  apply Forall_forall. intros row Hrow.
  destruct (In_nth _ _ [] Hrow) as (n & Hn & Erow).
  rewrite Forall_forall in Hrows. pose proof (Hrows row Hrow) as Hrl.
  apply Forall_forall. intros v Hv.
  destruct (In_nth _ _ 0 Hv) as (m & Hm & Ev).
  pose proof (Hentry n m ltac:(lia) ltac:(lia)) as Hnm.
  unfold Cryptographer.table_at in Hnm. rewrite !Nat2Z.id, Erow, Ev in Hnm.
  rewrite Hnm. apply entry_range, Hpos.
Qed.

Lemma init_table_entries_witness :
  (forall g, 0 <= fst (lcg_random g)) /\ shape Cryptographer.default /\
  0 <= 3 < 8 /\ 0 <= 5 < 16 /\
  let cr' := fst (Cryptographer.init Z lcg_srandom lcg_random
                    Cryptographer.default 0 false) in
  let g0 := lcg_srandom 0 in
  Cryptographer.table_at cr' 3 5
  = draw Z lcg_random (Z.to_nat (17 * 3 + 1 + 5)) g0 mod 15 /\
  0 <= Cryptographer.table_at cr' 3 5 <= 14 /\
  Forall (Forall (fun v => 0 <= v <= 14)) (Cryptographer.m_replace_table cr').
Proof.
  assert (Hpos : forall g, 0 <= fst (lcg_random g)).
  { intros g. unfold lcg_random. cbn [fst]. apply Z.mod_pos_bound. lia. }
  assert (Hs : shape Cryptographer.default).
  { unfold shape, Cryptographer.default.
    cbn [Cryptographer.m_key Cryptographer.m_replace_table].
    split; [reflexivity |]. split; [reflexivity |].
    apply Forall_forall. intros row Hrow. apply repeat_spec in Hrow.
    subst row. reflexivity. }
  split; [exact Hpos |]. split; [exact Hs |]. split; [lia |]. split; [lia |].
  apply (init_table_entries Z lcg_srandom lcg_random Cryptographer.default
           0 false 3 5 Hpos Hs); lia.
Defined.

(** * Further properties of the cipher *)

Section MoreCycles.
Import Cryptographer.
Variable cr : Cryptographer.t.

Lemma halves_fst d : fst (halves d) = lo d.
Proof. reflexivity. Qed.

Lemma halves_snd d : snd (halves d) = hi d.
Proof. reflexivity. Qed.

Lemma round_fst k p :
  fst (round cr k p) = Z.lxor (round_f cr k (fst p)) (snd p).
Proof. reflexivity. Qed.

Lemma round_snd k p : snd (round cr k p) = fst p.
Proof. reflexivity. Qed.

Lemma hi_mainStep d k : hi (mainStep cr d k) = lo d.
Proof.
  rewrite <- (halves_snd (mainStep cr d k)), (halves_mainStep cr d k).
  rewrite round_snd. apply halves_fst.
Qed.

Lemma lo_mainStep d k :
  lo (mainStep cr d k) = Z.lxor (round_f cr k (lo d)) (hi d).
Proof.
  rewrite <- (halves_fst (mainStep cr d k)), (halves_mainStep cr d k).
  rewrite round_fst, halves_fst, halves_snd. reflexivity.
Qed.

Lemma halves_inj a b :
  0 <= a < 2 ^ 64 -> 0 <= b < 2 ^ 64 -> halves a = halves b -> a = b.
Proof.
  intros Ha Hb H. rewrite <- (join_halves a Ha), <- (join_halves b Hb), H.
  reflexivity.
Qed.

Lemma mainStep_inj a b k :
  0 <= a < 2 ^ 64 -> 0 <= b < 2 ^ 64 ->
  mainStep cr a k = mainStep cr b k -> a = b.
Proof.
  intros Ha Hb H. apply halves_inj; [exact Ha | exact Hb |].
  pose proof (hi_mainStep a k) as H1. pose proof (hi_mainStep b k) as H2.
  pose proof (lo_mainStep a k) as H3. pose proof (lo_mainStep b k) as H4.
  rewrite H in H1, H3. rewrite H1 in H2. rewrite H3 in H4.
  rewrite H2 in H4. apply (f_equal (Z.lxor (round_f cr k (lo b)))) in H4.
  rewrite <- !Z.lxor_assoc, Z.lxor_nilpotent, !Z.lxor_0_l in H4.
  unfold halves. rewrite H2, H4. reflexivity.
Qed.

Lemma simple_blocks_roundtrip_back : forall data,
  (length data mod 8 = 0)%nat ->
  simple_blocks cr true (simple_blocks cr false data) = data.
Proof.
  apply whole_blocks_ind.
  - reflexivity.
  - intros b rest Hb Hrest IH.
    rewrite simple_blocks_step by exact Hb.
    rewrite simple_blocks_step by apply length_le_split.
    rewrite le_combine_le_split_8 by apply cycle_32R_range.
    rewrite cycle_32Z_32R by (apply le_combine_8_range, Hb).
    rewrite (split_le_combine' _ 8 Hb), IH. reflexivity.
Qed.

Lemma simple_blocks_app _encoding : forall a b,
  (length a mod 8 = 0)%nat ->
  simple_blocks cr _encoding (a ++ b)
  = simple_blocks cr _encoding a ++ simple_blocks cr _encoding b.
Proof.
  intros a b Ha. revert a Ha. apply whole_blocks_ind.
  - reflexivity.
  - intros blk rest Hb Hrest IH.
    rewrite <- app_assoc.
    rewrite (simple_blocks_step cr _encoding blk (rest ++ b)) by exact Hb.
    rewrite (simple_blocks_step cr _encoding blk rest) by exact Hb.
    rewrite IH, app_assoc. reflexivity.
Qed.

Lemma snd_simpleReplace data _encoding :
  (length data mod 8 = 0)%nat ->
  snd (simpleReplace cr data _encoding) = simple_blocks cr _encoding data.
Proof.
  intros H. rewrite simpleReplace_blocks by exact H. reflexivity.
Qed.

Lemma mod8_app (a b : list byte) :
  (length a mod 8 = 0)%nat -> (length b mod 8 = 0)%nat ->
  (length (a ++ b) mod 8 = 0)%nat.
Proof.
  intros Ha Hb. rewrite length_app, Nat.Div0.add_mod, Ha, Hb. reflexivity.
Qed.

End MoreCycles.

Section MoreStreams.
Import Cryptographer.
Variable cr : Cryptographer.t.

Lemma gammingWF_stream_roundtrip_back : forall data S,
  fst (stream_mode (f_gammingWF cr true) (cycle_32Z cr)
         (fst (stream_mode (f_gammingWF cr false) (cycle_32Z cr) data S)) S)
  = data.
Proof.
  intros data. induction data as [| t Ht | b rest Hb Hrest IH] using blocks_ind;
    intros S.
  - reflexivity.
  - rewrite (stream_mode_tail _ _ t) by exact Ht. cbn [fst].
    rewrite stream_mode_tail by (rewrite length_xor_tail; exact Ht).
    cbn [fst]. apply xor_tail_involutive.
  - rewrite (stream_mode_step _ _ b rest) by assumption.
    unfold f_gammingWF at 2. cbv zeta.
    set (g := cycle_32Z cr S). set (p := Z.lxor (le_combine b) g).
    pose proof (stream_mode_length (f_gammingWF cr false) (cycle_32Z cr) rest
                  (le_combine b)) as Hlen.
    specialize (IH (le_combine b)).
    destruct (stream_mode (f_gammingWF cr false) (cycle_32Z cr) rest
                (le_combine b)) as [out S'].
    cbn [fst] in *.
    assert (Hp : 0 <= p < 2 ^ 64).
    { apply lxor_range; [lia | apply le_combine_8_range, Hb |].
      apply cycle_32Z_range. }
    rewrite stream_mode_step.
    + unfold f_gammingWF at 1. cbv zeta.
      rewrite le_combine_le_split_8 by exact Hp. fold g.
      replace (Z.lxor p g) with (le_combine b)
        by (subst p; rewrite Z.lxor_assoc, Z.lxor_nilpotent, Z.lxor_0_r;
            reflexivity).
      destruct (stream_mode (f_gammingWF cr true) (cycle_32Z cr) out
                  (le_combine b)) as [out' S''].
      cbn [fst] in *.
      rewrite (split_le_combine' _ 8 Hb), IH. reflexivity.
    + apply length_le_split.
    + apply nonempty_length. rewrite Hlen. apply nonempty_length, Hrest.
Qed.

Lemma length_buffer_gammingWF data S _encoding :
  length (buffer_of (gammingWF cr data S _encoding)) = length data.
Proof. rewrite buffer_gammingWF. apply stream_mode_length. Qed.

Lemma length_buffer_gamming data S :
  length (buffer_of (gamming cr data S)) = length data.
Proof. rewrite buffer_gamming. apply stream_mode_length. Qed.

Lemma loop_passes_step (b rest : list byte) :
  length b = 8%nat -> rest <> [] ->
  loop_passes (length (b ++ rest)) = S (loop_passes (length rest)).
Proof.
  intros Hb Hrest. apply nonempty_length in Hrest. unfold loop_passes.
  rewrite length_app, Hb.
  replace (8 + length rest - 1)%nat with (length rest - 1 + 1 * 8)%nat by lia.
  rewrite Nat.div_add by lia. lia.
Qed.

Lemma loop_passes_short (t : list byte) :
  (length t <= 8)%nat -> loop_passes (length t) = 0%nat.
Proof. intros Ht. unfold loop_passes. apply Nat.div_small. lia. Qed.

Lemma gamming_stream_sync : forall data a,
  snd (stream_mode (f_gamming cr) (fun a => cycle_32Z cr (tk_gamming a)) data a)
  = Nat.iter (loop_passes (length data)) gamming_step a.
Proof.
  intros data. induction data as [| t Ht | b rest Hb Hrest IH] using blocks_ind;
    intros a.
  - reflexivity.
  - rewrite stream_mode_tail by exact Ht.
    rewrite loop_passes_short by lia. reflexivity.
  - rewrite stream_mode_step by assumption.
    rewrite loop_passes_step by assumption.
    destruct a as [[s s0] s1]. rewrite f_gamming_eq.
    specialize (IH (gamming_step (s, s0, s1))). cbn [gamming_step] in IH.
    destruct (stream_mode _ _ rest _) as [out a''].
    cbn [snd] in *. rewrite IH, Nat.iter_succ_r. reflexivity.
Qed.

Lemma sync_gamming data S :
  sync_of (gamming cr data S)
  = tk_gamming
      (Nat.iter (loop_passes (length data)) gamming_step
         (cycle_32Z cr S, lo (cycle_32Z cr S), hi (cycle_32Z cr S))).
Proof.
  rewrite gamming_mode. cbv zeta.
  rewrite <- gamming_stream_sync.
  destruct (stream_mode _ _ _ _) as [out a]. reflexivity.
Qed.

Lemma sync_gammingWF data S _encoding :
  sync_of (gammingWF cr data S _encoding)
  = snd (stream_mode (f_gammingWF cr _encoding) (cycle_32Z cr) data S).
Proof.
  rewrite gammingWF_mode. destruct (stream_mode _ _ _ _). reflexivity.
Qed.

End MoreStreams.

Section MoreFeedback.
Import Cryptographer.
Variable cr : Cryptographer.t.
Variable _encoding : bool.

Lemma f_gammingWF_eq sy blk :
  f_gammingWF cr _encoding sy blk
  = (Z.lxor blk (cycle_32Z cr sy),
     if _encoding then Z.lxor blk (cycle_32Z cr sy) else blk).
Proof. reflexivity. Qed.

Lemma feedback_block b sy :
  length b = 8%nat ->
  le_combine
    (if _encoding
     then le_split 8 (Z.lxor (le_combine b) (cycle_32Z cr sy))
     else b)
  = (if _encoding then Z.lxor (le_combine b) (cycle_32Z cr sy)
     else le_combine b).
Proof.
  intros Hb. destruct _encoding; [| reflexivity].
  apply le_combine_le_split_8, lxor_range;
    [lia | apply le_combine_8_range, Hb | apply cycle_32Z_range].
Qed.

Lemma gammingWF_stream_sync : forall data sy,
  snd (stream_mode (f_gammingWF cr _encoding) (cycle_32Z cr) data sy)
  = if Nat.leb (length data) 8 then sy
    else le_combine
           (nth_chunk (loop_passes (length data) - 1)
              (if _encoding
               then fst (stream_mode (f_gammingWF cr _encoding) (cycle_32Z cr)
                           data sy)
               else data)).
Proof.
  intros data. induction data as [| t Ht | b rest Hb Hrest IH] using blocks_ind;
    intros sy.
  - reflexivity.
  - rewrite stream_mode_tail by exact Ht. cbn [snd].
    destruct (Nat.leb_spec (length t) 8); [reflexivity | lia].
  - pose proof Hrest as Hpos. apply nonempty_length in Hpos.
    rewrite loop_passes_step by assumption.
    rewrite stream_mode_step by assumption. rewrite f_gammingWF_eq.
    set (c := Z.lxor (le_combine b) (cycle_32Z cr sy)).
    set (sy' := if _encoding then c else le_combine b).
    specialize (IH sy').
    destruct (stream_mode (f_gammingWF cr _encoding) (cycle_32Z cr) rest sy')
      as [out sy''].
    cbn [fst snd] in *.
    destruct (Nat.leb_spec (length (b ++ rest)) 8) as [Hle | _];
      [rewrite length_app in Hle; lia |].
    replace (S (loop_passes (length rest)) - 1)%nat
      with (loop_passes (length rest)) by lia.
    rewrite IH.
    destruct (Nat.leb_spec (length rest) 8) as [Hle | Hgt].
    + rewrite loop_passes_short by exact Hle.
      replace (nth_chunk 0 (if _encoding then le_split 8 c ++ out else b ++ rest))
        with (if _encoding then le_split 8 c else b).
      * subst sy' c. symmetry. apply feedback_block, Hb.
      * destruct _encoding; symmetry; apply nth_chunk_0_app;
          [apply length_le_split | exact Hb].
    + assert (Hlp : (0 < loop_passes (length rest))%nat).
      { unfold loop_passes. apply Nat.div_str_pos. lia. }
      destruct (loop_passes (length rest)) as [| n]; [lia |].
      replace (S n - 1)%nat with n by lia.
      f_equal. destruct _encoding; symmetry; apply nth_chunk_S;
        [apply length_le_split | exact Hb].
Qed.

Lemma gammingWF_stream_app : forall a,
  (length a mod 8 = 0)%nat ->
  a <> [] ->
  forall b sy,
  fst (stream_mode (f_gammingWF cr _encoding) (cycle_32Z cr) (a ++ b) sy)
  = fst (stream_mode (f_gammingWF cr _encoding) (cycle_32Z cr) a sy)
    ++ fst (stream_mode (f_gammingWF cr _encoding) (cycle_32Z cr) b
              (le_combine
                 (nth_chunk (length a / 8 - 1)
                    (if _encoding
                     then fst (stream_mode (f_gammingWF cr _encoding)
                                 (cycle_32Z cr) a sy)
                     else a)))).
Proof.
  apply (whole_blocks_ind
           (fun a => a <> [] -> forall b sy,
              fst (stream_mode (f_gammingWF cr _encoding) (cycle_32Z cr)
                     (a ++ b) sy)
              = fst (stream_mode (f_gammingWF cr _encoding) (cycle_32Z cr) a sy)
                ++ fst (stream_mode (f_gammingWF cr _encoding) (cycle_32Z cr) b
                          (le_combine
                             (nth_chunk (length a / 8 - 1)
                                (if _encoding
                                 then fst (stream_mode
                                             (f_gammingWF cr _encoding)
                                             (cycle_32Z cr) a sy)
                                 else a)))))).
  - intros H. contradiction.
  - intros blk rest Hb Hrest IH _ b sy.
    set (c := Z.lxor (le_combine blk) (cycle_32Z cr sy)).
    set (sy' := if _encoding then c else le_combine blk).
    destruct rest as [| r0 rest'].
    + rewrite app_nil_r.
      rewrite (stream_mode_tail _ _ blk) by lia. cbn [fst].
      rewrite Hb. change (8 / 8 - 1)%nat with 0%nat.
      replace (nth_chunk 0 (if _encoding
                            then xor_tail blk (cycle_32Z cr sy) else blk))
        with (if _encoding then le_split 8 c else blk).
      2:{ subst c. rewrite (xor_tail_block blk) by exact Hb.
          destruct _encoding; symmetry; apply nth_chunk_0_short;
            [rewrite length_xor_tail |]; lia. }
      pose proof (feedback_block blk sy Hb) as Hfb. fold c in Hfb.
      rewrite Hfb. clear Hfb. fold sy'.
      destruct b as [| b0 b'].
      * rewrite app_nil_r, stream_mode_tail by lia. cbn [fst].
        rewrite stream_mode_nil, app_nil_r. reflexivity.
      * rewrite stream_mode_step by (exact Hb || discriminate).
        rewrite f_gammingWF_eq. fold c. fold sy'.
        destruct (stream_mode _ _ (b0 :: b') sy') as [out sy''].
        cbn [fst]. rewrite <- (xor_tail_block blk) by exact Hb. reflexivity.
    + set (rest := r0 :: rest') in *.
      assert (Hne : rest <> []) by discriminate.
      assert (Hlen8 : (8 <= length rest)%nat).
      { destruct (le_lt_dec 8 (length rest)); [assumption |].
        rewrite Nat.mod_small in Hrest by lia. subst rest. cbn in Hrest. lia. }
      rewrite <- app_assoc.
      rewrite (stream_mode_step _ _ blk (rest ++ b))
        by (exact Hb || (intros E; apply app_eq_nil in E; tauto)).
      rewrite (stream_mode_step _ _ blk rest) by assumption.
      rewrite f_gammingWF_eq. fold c. fold sy'.
      specialize (IH Hne b sy').
      destruct (stream_mode _ _ (rest ++ b) sy') as [out1 s1].
      destruct (stream_mode _ _ rest sy') as [out2 s2].
      cbn [fst] in *. rewrite IH, <- app_assoc. f_equal. f_equal. f_equal.
      f_equal. f_equal.
      rewrite length_app, Hb.
      replace ((8 + length rest) / 8 - 1)%nat
        with (S (length rest / 8 - 1)).
      2:{ replace (8 + length rest)%nat with (length rest + 1 * 8)%nat by lia.
          rewrite Nat.div_add by lia.
          assert (0 < length rest / 8)%nat by (apply Nat.div_str_pos; lia).
          lia. }
      destruct _encoding; symmetry; apply nth_chunk_S;
        [apply length_le_split | exact Hb].
Qed.

End MoreFeedback.

Section MoreMac.
Import Cryptographer.
Variable cr : Cryptographer.t.

Lemma imiIns_accumulate data :
  imiIns cr data = MacSpec.accumulate cr data mod 2 ^ 32.
Proof.
  rewrite imiIns_blocks.
  pose proof (imiIns_stream_fold cr (List.chunk 8 data) 0 (chunk_nonempty data))
    as Hfold.
  destruct (stream_blocks (f_imiIns cr) (List.chunk 8 data) 0) as [[out S'] t].
  rewrite lo_def, lo_eq, Hfold. reflexivity.
Qed.

Lemma accumulate_zero_padding (k : nat) : forall data acc,
  data <> [] ->
  ((length data - 1) mod 8 + 1 + k <= 8)%nat ->
  fold_left
    (fun accumulator blk =>
       MacSpec.reducedCycle cr
         (Z.lxor accumulator (le_combine (MacSpec.pad8 blk))))
    (List.chunk 8 (data ++ repeat Byte.x00 k)) acc
  = fold_left
      (fun accumulator blk =>
         MacSpec.reducedCycle cr
           (Z.lxor accumulator (le_combine (MacSpec.pad8 blk))))
      (List.chunk 8 data) acc.
Proof.
  intros data. induction data as [| t Ht | b rest Hb Hrest IH] using blocks_ind;
    intros acc Hne Hroom.
  - contradiction.
  - rewrite Nat.mod_small in Hroom by lia.
    rewrite (List.chunk_small 8 (t ++ _))
      by (rewrite length_app, repeat_length; lia).
    rewrite (List.chunk_small 8 t) by lia.
    cbn [fold_left].
    rewrite (le_combine_pad8 (t ++ repeat Byte.x00 k)), (le_combine_pad8 t).
    rewrite le_combine_app_0. reflexivity.
  - pose proof Hrest as Hpos. apply nonempty_length in Hpos.
    rewrite <- app_assoc.
    rewrite (List.chunk_app_chunk 8 ltac:(lia) b (rest ++ repeat Byte.x00 k) Hb).
    rewrite (List.chunk_app_chunk 8 ltac:(lia) b rest Hb).
    rewrite !fold_left_cons. apply IH; [exact Hrest |].
    rewrite length_app, Hb in Hroom.
    replace (8 + length rest - 1)%nat with (length rest - 1 + 1 * 8)%nat
      in Hroom by lia.
    rewrite Nat.Div0.mod_add in Hroom. exact Hroom.
Qed.

Lemma steps_range ks : forall d,
  0 <= d < 2 ^ 64 -> 0 <= steps cr ks d < 2 ^ 64.
Proof.
  unfold steps. induction ks as [| k ks IH]; intros d Hd; [exact Hd |].
  rewrite fold_left_cons. apply IH, mainStep_range.
Qed.

Lemma steps_inj ks : forall a b,
  0 <= a < 2 ^ 64 -> 0 <= b < 2 ^ 64 ->
  steps cr ks a = steps cr ks b -> a = b.
Proof.
  unfold steps. induction ks as [| k ks IH]; intros a b Ha Hb E; [exact E |].
  rewrite !fold_left_cons in E.
  apply (mainStep_inj cr a b k Ha Hb).
  apply IH; [apply mainStep_range | apply mainStep_range | exact E].
Qed.

End MoreMac.

Section MoreInit.
Import Cryptographer.
Variable rng : Type.
Variable srandom : Z -> rng.
Variable random : rng -> Z * rng.

Lemma key_at_set_key cr k v i' :
  shape cr -> 0 <= k < 8 -> 0 <= i' ->
  key_at (set_key cr k v) i' = if i' =? k then v else key_at cr i'.
Proof.
  intros (Hk & _) Hr Hi'. unfold key_at, set_key. cbn [m_key].
  destruct (Z.eqb_spec i' k) as [-> | Hne].
  - apply nth_upd_same. lia.
  - apply nth_upd_diff. lia.
Qed.

Lemma m_key_set_table cr i j v : m_key (set_table cr i j v) = m_key cr.
Proof. reflexivity. Qed.

Lemma inner_keeps_key (i : Z) (st : t * rng) :
  m_key (fst (for_each (upto 16)
                (fun '(cr, g) j =>
                   let '(r, g) := random g in
                   (set_table cr i j (uint8 (Z.rem r 0xf)), g))
                st))
  = m_key (fst st).
Proof.
  apply (for_each_upto_inv (fun (_ : nat) x => m_key (fst x) = m_key (fst st))).
  - reflexivity.
  - intros j [cr g] _ H. cbn [fst] in H.
    destruct (random g) as [r g']. cbn [fst]. rewrite m_key_set_table. exact H.
Qed.

Lemma init_keyed (cr : t) (now : Z) (_rand : bool) :
  shape cr ->
  keyed rng random (if _rand then srandom now else srandom 0) 8
        (fst (init rng srandom random cr now _rand)).
Proof.
  intros Hs. unfold init. set (g0 := if _rand then srandom now else srandom 0).
  apply (for_each_upto_inv
           (fun i st => filled rng random g0 i 0 (17 * i) st /\
                        keyed rng random g0 i (fst st))).
  - split.
    + split; [exact Hs |]. split; [reflexivity |]. intros i' j' _ H. lia.
    + intros i' H. lia.
  - intros i [cr' g] Hi ((Hs' & Hg & Hdone) & Hkeys). cbn [fst snd] in *.
    subst g. rewrite random_advance.
    set (v := uint32 (Z.rem (draw rng random (17 * i) g0) 0xffffffff)).
    assert (Hk : filled rng random g0 i 0 (17 * i + 1)
                   (set_key cr' (Z.of_nat i) v,
                    advance rng random (S (17 * i)) g0)).
    { split; [apply shape_set_key, Hs' |]. cbn [fst snd].
      split; [f_equal; lia |].
      intros i' j' Hj' Hpos. rewrite table_at_set_key. apply Hdone; assumption. }
    pose proof (init_inner rng random g0 i _ Hi Hk) as (Hs2 & Hg2 & Hdone2).
    split.
    + split; [exact Hs2 |].
      split; [rewrite Hg2; f_equal; lia |].
      intros i' j' Hj' Hpos. apply Hdone2; [exact Hj' | lia].
    + intros i' Hi'. unfold key_at. rewrite inner_keeps_key. cbn [fst].
      fold (key_at (set_key cr' (Z.of_nat i) v) (Z.of_nat i')).
      rewrite key_at_set_key by (exact Hs' || lia).
      destruct (Z.eqb_spec (Z.of_nat i') (Z.of_nat i)) as [E | E].
      * apply Nat2Z.inj in E. subst i'. reflexivity.
      * apply Hkeys. lia.
Qed.

Lemma key_word_range g0 n :
  (forall g, 0 <= fst (random g)) ->
  key_word rng random g0 n = draw rng random n g0 mod 0xffffffff /\
  0 <= key_word rng random g0 n <= 0xfffffffe.
Proof.
  intros Hpos. unfold key_word, uint32.
  assert (Hd : 0 <= draw rng random n g0) by apply Hpos.
  rewrite Z.rem_mod_nonneg by lia.
  pose proof (Z.mod_pos_bound (draw rng random n g0) 0xffffffff ltac:(lia)).
  rewrite Z.mod_small by lia. lia.
Qed.

Lemma init_entry (cr : t) (now : Z) (_rand : bool) (i j : nat) :
  shape cr -> (i < 8)%nat -> (j < 16)%nat ->
  nth j (nth i (m_replace_table (fst (init rng srandom random cr now _rand))) [])
      0
  = entry rng random (if _rand then srandom now else srandom 0)
      (17 * i + 1 + j).
Proof.
  intros Hs Hi Hj.
  destruct (init_filled rng srandom random cr now _rand Hs) as (_ & _ & Hdone).
  specialize (Hdone i j Hj ltac:(lia)). unfold table_at in Hdone.
  rewrite !Nat2Z.id in Hdone. exact Hdone.
Qed.

Lemma init_key (cr : t) (now : Z) (_rand : bool) (i : nat) :
  shape cr -> (i < 8)%nat ->
  nth i (m_key (fst (init rng srandom random cr now _rand))) 0
  = key_word rng random (if _rand then srandom now else srandom 0) (17 * i).
Proof.
  intros Hs Hi.
  pose proof (init_keyed cr now _rand Hs i Hi) as H. unfold key_at in H.
  rewrite Nat2Z.id in H. exact H.
Qed.

Lemma init_same_seed (cr1 cr2 : t) (now1 now2 : Z) (_rand : bool) :
  shape cr1 -> shape cr2 ->
  (if _rand then srandom now1 else srandom 0)
  = (if _rand then srandom now2 else srandom 0) ->
  init rng srandom random cr1 now1 _rand
  = init rng srandom random cr2 now2 _rand.
Proof.
  intros Hs1 Hs2 Hseed.
  pose proof (init_filled rng srandom random cr1 now1 _rand Hs1)
    as ((Hk1 & Ht1 & Hr1) & Hg1 & _).
  pose proof (init_filled rng srandom random cr2 now2 _rand Hs2)
    as ((Hk2 & Ht2 & Hr2) & Hg2 & _).
  pose proof (init_key cr1 now1 _rand) as Hkey1.
  pose proof (init_key cr2 now2 _rand) as Hkey2.
  pose proof (init_entry cr1 now1 _rand) as He1.
  pose proof (init_entry cr2 now2 _rand) as He2.
  destruct (init rng srandom random cr1 now1 _rand) as [[k1 t1] g1].
  destruct (init rng srandom random cr2 now2 _rand) as [[k2 t2] g2].
  cbn [fst snd m_key m_replace_table] in *.
  f_equal; [f_equal |].
  - apply (nth_ext _ _ 0 0); [congruence |].
    intros n Hn. rewrite Hkey1, Hkey2 by (assumption || lia).
    rewrite Hseed. reflexivity.
  - apply (nth_ext _ _ [] []); [congruence |].
    intros n Hn. rewrite Forall_forall in Hr1, Hr2.
    assert (Hl1 : length (nth n t1 []) = 16%nat)
      by (apply Hr1, nth_In; lia).
    assert (Hl2 : length (nth n t2 []) = 16%nat)
      by (apply Hr2, nth_In; lia).
    apply (nth_ext _ _ 0 0); [congruence |].
    intros m Hm. rewrite He1, He2 by (assumption || lia).
    rewrite Hseed. reflexivity.
  - rewrite Hg1, Hg2, Hseed. reflexivity.
Qed.

Lemma row_values_length : length row_values = 15%nat.
Proof. reflexivity. Qed.

Lemma in_row_values v : 0 <= v <= 14 -> In v row_values.
Proof.
  intros Hv. unfold row_values, upto. apply in_map_iff.
  exists (Z.to_nat v). split; [lia |]. apply in_seq. lia.
Qed.

End MoreInit.

Section MoreDraws.
Import RandomGen.
Context {W : Type}.
Variable createNewRandSequence : state W -> state W.

Lemma nextInt8_range st :
  0 <= fst (nextInt8 createNewRandSequence st) < 256.
Proof. unfold nextInt8. cbn [fst]. apply byte_unsigned_range. Qed.

Lemma nextInt8_no_refill st :
  (curr_pos st < length (rand_seq st))%nat ->
  nextInt8 createNewRandSequence st
  = (byte.unsigned (nth (curr_pos st) (rand_seq st) Byte.x00),
     mk_state (rand_seq st) (S (curr_pos st)) (others st)).
Proof.
  intros H. unfold nextInt8, sizeof_rand_seq.
  destruct (Nat.eqb_spec (curr_pos st) (length (rand_seq st))); [lia |].
  reflexivity.
Qed.

Lemma shl_byte b i :
  0 <= b < 256 -> 0 <= i -> 0 <= Z.shiftl b (8 * i) < 2 ^ (8 * i + 8).
Proof.
  intros Hb Hi. rewrite Z.shiftl_mul_pow2 by lia.
  rewrite Z.pow_add_r by lia. change (2 ^ 8) with 256.
  pose proof (Z.pow_pos_nonneg 2 (8 * i) ltac:(lia) ltac:(lia)). nia.
Qed.

Lemma shl_byte32 b i :
  0 <= b < 256 -> 0 <= i < 4 ->
  uint32 (Z.shiftl (uint32 b) (i * byteSize)) = Z.shiftl b (8 * i).
Proof.
  intros Hb Hi. unfold uint32, byteSize. rewrite (Z.mod_small b) by lia.
  rewrite (Z.mul_comm i 8). apply Z.mod_small.
  pose proof (shl_byte b i Hb ltac:(lia)) as H.
  assert (2 ^ (8 * i + 8) <= 2 ^ 32) by (apply Z.pow_le_mono_r; lia). lia.
Qed.

Lemma shl_byte64 b i :
  0 <= b < 256 -> 0 <= i < 8 ->
  uint64 (Z.shiftl (uint64 b) (i * byteSize)) = Z.shiftl b (8 * i).
Proof.
  intros Hb Hi. unfold uint64, byteSize. rewrite (Z.mod_small b) by lia.
  rewrite (Z.mul_comm i 8). apply Z.mod_small.
  pose proof (shl_byte b i Hb ltac:(lia)) as H.
  assert (2 ^ (8 * i + 8) <= 2 ^ 64) by (apply Z.pow_le_mono_r; lia). lia.
Qed.

Lemma nextInt64_split st :
  nextInt64 createNewRandSequence st
  = let '(a, st) := nextInt32 createNewRandSequence st in
    let '(b, st) := nextInt32 createNewRandSequence st in
    (Z.lor a (Z.shiftl b 32), st).
Proof.
  unfold nextInt64, nextInt32, for_each.
  change (upto sizeof_uint64) with [0; 1; 2; 3; 4; 5; 6; 7].
  change (upto (Z.to_nat sizeof_uint32)) with [0; 1; 2; 3].
  cbn [fold_left].
  pose proof (nextInt8_range st) as R0.
  destruct (nextInt8 createNewRandSequence st) as [b0 st0].
  pose proof (nextInt8_range st0) as R1.
  destruct (nextInt8 createNewRandSequence st0) as [b1 st1].
  pose proof (nextInt8_range st1) as R2.
  destruct (nextInt8 createNewRandSequence st1) as [b2 st2].
  pose proof (nextInt8_range st2) as R3.
  destruct (nextInt8 createNewRandSequence st2) as [b3 st3].
  cbn [fold_left].
  pose proof (nextInt8_range st3) as R4.
  destruct (nextInt8 createNewRandSequence st3) as [b4 st4].
  pose proof (nextInt8_range st4) as R5.
  destruct (nextInt8 createNewRandSequence st4) as [b5 st5].
  pose proof (nextInt8_range st5) as R6.
  destruct (nextInt8 createNewRandSequence st5) as [b6 st6].
  pose proof (nextInt8_range st6) as R7.
  destruct (nextInt8 createNewRandSequence st6) as [b7 st7].
  cbn [fst] in *. f_equal.
  rewrite !shl_byte32, !shl_byte64 by lia.
  rewrite !Z.lor_0_l, !Z.shiftl_lor, !Z.shiftl_shiftl by lia.
  cbn [Z.mul Z.add Pos.mul Pos.add Pos.succ].
  rewrite !Z.lor_assoc. reflexivity.
Qed.

Lemma skipn_nth_cons {X : Type} (d : X) : forall (l : list X) n,
  (n < length l)%nat -> skipn n l = nth n l d :: skipn (S n) l.
Proof.
  induction l as [| x l IH]; intros n Hn; [cbn in Hn; lia |].
  destruct n as [| n]; [reflexivity |].
  cbn [length] in Hn. cbn [skipn nth]. rewrite (IH n) by lia. reflexivity.
Qed.

Lemma nextInt32_buffer st :
  (curr_pos st + 4 <= length (rand_seq st))%nat ->
  nextInt32 createNewRandSequence st
  = (le_combine (firstn 4 (skipn (curr_pos st) (rand_seq st))),
     mk_state (rand_seq st) (curr_pos st + 4) (others st)).
Proof.
  intros H. destruct st as [l n w]. cbn [curr_pos rand_seq others] in *.
  unfold nextInt32, for_each.
  change (upto (Z.to_nat sizeof_uint32)) with [0; 1; 2; 3].
  cbn [fold_left].
  rewrite nextInt8_no_refill by (cbn [curr_pos rand_seq]; lia).
  cbn [curr_pos rand_seq others].
  rewrite nextInt8_no_refill by (cbn [curr_pos rand_seq]; lia).
  cbn [curr_pos rand_seq others].
  rewrite nextInt8_no_refill by (cbn [curr_pos rand_seq]; lia).
  cbn [curr_pos rand_seq others].
  rewrite nextInt8_no_refill by (cbn [curr_pos rand_seq]; lia).
  cbn [curr_pos rand_seq others].
  rewrite (skipn_nth_cons Byte.x00 l n) by lia.
  rewrite (skipn_nth_cons Byte.x00 l (S n)) by lia.
  rewrite (skipn_nth_cons Byte.x00 l (S (S n))) by lia.
  rewrite (skipn_nth_cons Byte.x00 l (S (S (S n)))) by lia.
  cbn [firstn]. rewrite !le_combine_cons.
  change (le_combine []) with 0.
  generalize (byte_unsigned_range (nth n l Byte.x00)).
  generalize (byte_unsigned_range (nth (S n) l Byte.x00)).
  generalize (byte_unsigned_range (nth (S (S n)) l Byte.x00)).
  generalize (byte_unsigned_range (nth (S (S (S n))) l Byte.x00)).
  generalize (byte.unsigned (nth n l Byte.x00)).
  generalize (byte.unsigned (nth (S n) l Byte.x00)).
  generalize (byte.unsigned (nth (S (S n)) l Byte.x00)).
  generalize (byte.unsigned (nth (S (S (S n))) l Byte.x00)).
  intros b3 b2 b1 b0 R3 R2 R1 R0. change (2 ^ 8) with 256 in *.
  f_equal; [| f_equal; lia].
  rewrite !shl_byte32 by lia.
  rewrite Z.shiftl_0_l, Z.lor_0_r, Z.lor_0_l.
  rewrite !Z.shiftl_lor, !Z.shiftl_shiftl by lia.
  cbn [Z.mul Z.add Pos.mul Pos.add Pos.succ].
  rewrite Z.shiftl_0_r, !Z.lor_assoc. reflexivity.
Qed.

End MoreDraws.

Section MoreTest1.
Import RandomGen.

Lemma land_bit a j :
  0 <= j -> (Z.land a (Z.shiftl 1 j) =? 0) = negb (Z.testbit a j).
Proof.
  intros Hj. rewrite Z.shiftl_1_l.
  destruct (Z.testbit a j) eqn:E; cbn [negb].
  - apply Z.eqb_neq. intros H.
    assert (Hb : Z.testbit (Z.land a (2 ^ j)) j = true)
      by (rewrite Z.land_spec, E, Z.pow2_bits_true by lia; reflexivity).
    rewrite H, Z.bits_0 in Hb. discriminate.
  - apply Z.eqb_eq. apply Z.bits_inj'. intros k Hk.
    rewrite Z.land_spec, Z.bits_0, Z.pow2_bits_eqb by lia.
    destruct (Z.eqb_spec j k) as [-> | _];
      [rewrite E; reflexivity | apply andb_false_r].
Qed.

Lemma count_bits_loop (l : list byte) (n : nat) :
  Z.of_nat n < 2 ^ 32 ->
  for_each (upto n)
    (fun zero i =>
       if negb (Z.land
                  (byte.unsigned (nth (Z.to_nat (i / byteSize)) l Byte.x00))
                  (Z.shiftl 1 (i mod byteSize)) =? 0)
       then uint32 (zero + 1)
       else zero)
    0
  = Z.of_nat (length (filter (bit_at l) (upto n))).
Proof.
  intros Hn.
  apply (for_each_upto_inv
           (fun k zero =>
              zero = Z.of_nat (length (filter (bit_at l) (upto k))) /\
              0 <= zero <= Z.of_nat k)).
  - split; [reflexivity | cbn; lia].
  - intros k zero Hk [Hz Hr]. rewrite upto_S, filter_app, length_app.
    cbn [filter]. unfold byteSize.
    rewrite land_bit by (apply Z.mod_pos_bound; lia).
    fold (bit_at l (Z.of_nat k)). rewrite negb_involutive.
    destruct (bit_at l (Z.of_nat k)); cbn [length].
    + unfold uint32. rewrite Z.mod_small by lia. lia.
    + lia.
Qed.

Lemma upto_add n m :
  upto (n + m) = upto n ++ map (fun i => Z.of_nat n + i) (upto m).
Proof.
  induction m as [| m IH].
  - rewrite Nat.add_0_r. cbn [upto seq map]. rewrite app_nil_r. reflexivity.
  - rewrite Nat.add_succ_r, !upto_S, IH, map_app, app_assoc. cbn [map].
    rewrite Nat2Z.inj_add. reflexivity.
Qed.

Lemma filter_map_length {X Y : Type} (p : Y -> bool) (f : X -> Y) l :
  length (filter p (map f l)) = length (filter (fun x => p (f x)) l).
Proof.
  induction l as [| x l IH]; [reflexivity |]. cbn [map filter].
  destruct (p (f x)); cbn [length]; rewrite IH; reflexivity.
Qed.

Lemma filter_ext_in_length {X : Type} (p q : X -> bool) l :
  (forall x, In x l -> p x = q x) ->
  length (filter p l) = length (filter q l).
Proof.
  intros H. induction l as [| x l IH]; [reflexivity |]. cbn [filter].
  rewrite (H x) by (left; reflexivity).
  destruct (q x); cbn [length]; rewrite IH;
    (reflexivity || (intros y Hy; apply H; right; exact Hy)).
Qed.

Lemma count_bits_sum : forall l,
  Z.of_nat (length (filter (bit_at l) (upto (8 * length l)))) = set_bits l.
Proof.
  induction l as [| b l IH]; [reflexivity |].
  cbn [length set_bits fold_right]. fold (set_bits l). rewrite <- IH.
  replace (8 * S (length l))%nat with (8 + 8 * length l)%nat by lia.
  rewrite upto_add, filter_app, length_app, Nat2Z.inj_add.
  assert (Hb : Z.of_nat (length (filter (bit_at (b :: l)) (upto 8)))
               = byte_ones b).
  { unfold byte_ones. apply f_equal. apply filter_ext_in_length.
    intros i Hi. apply in_upto in Hi. unfold bit_at.
    rewrite Z.div_small, Z.mod_small by lia. reflexivity. }
  rewrite Hb. apply (f_equal (Z.add (byte_ones b))). apply f_equal.
  rewrite filter_map_length. apply filter_ext_in_length.
  intros i Hi. apply in_upto in Hi. unfold bit_at.
  replace (Z.of_nat 8 + i) with (i + 1 * 8) by lia.
  rewrite Z.div_add, Z.mod_add by lia.
  replace (Z.to_nat (i / 8 + 1)) with (S (Z.to_nat (i / 8)))
    by (pose proof (Z.div_pos i 8 ltac:(lia) ltac:(lia)); lia).
  reflexivity.
Qed.

Lemma test1_count {W : Type} (st : state W) :
  Z.of_nat (length (rand_seq st)) * 8 < 2 ^ 32 ->
  test1 st
  = (9725 <=? set_bits (rand_seq st)) && (set_bits (rand_seq st) <=? 10275).
Proof.
  intros Hlen. unfold test1, sizeof_rand_seq.
  assert (Hsz : uint32 (Z.of_nat (length (rand_seq st)) * byteSize)
                = Z.of_nat (8 * length (rand_seq st))).
  { unfold uint32, byteSize. rewrite Z.mod_small by lia. lia. }
  rewrite Hsz, Nat2Z.id. cbv zeta.
  rewrite (count_bits_loop (rand_seq st) (8 * length (rand_seq st)))
    by lia.
  rewrite count_bits_sum.
  destruct ((9725 <=? set_bits (rand_seq st))
            && (set_bits (rand_seq st) <=? 10275)); reflexivity.
Qed.

End MoreTest1.

Section MorePasswords.
Import PasswordGen.
Context {W : Type}.
Variable createNewRandSequence : RandomGen.state W -> RandomGen.state W.

Lemma strlen_alphabeth : strlen alphabeth = 62.
Proof. reflexivity. Qed.

Lemma alphabeth_at_in b : In (alphabeth_at b) alphabeth.
Proof.
  unfold alphabeth_at. apply nth_In. rewrite strlen_alphabeth.
  pose proof (Z.mod_pos_bound b 62 ltac:(lia)).
  change (length alphabeth) with 62%nat. lia.
Qed.

Lemma fill_inv (password_seq : list byte) (rg : RandomGen.state W)
  (n : nat) :
  let r :=
    for_each (upto n)
      (fun '(password_seq, rg) i =>
         let '(b, rg) := RandomGen.nextInt8 createNewRandSequence rg in
         (List.upd password_seq (Z.to_nat i) (alphabeth_at b), rg))
      (password_seq, rg) in
  length (fst r) = length password_seq /\
  forall j, (j < n)%nat -> (j < length password_seq)%nat ->
            In (nth j (fst r) Byte.x00) alphabeth.
Proof.
  cbv zeta.
  apply (for_each_upto_inv
           (fun k (x : list byte * RandomGen.state W) =>
              length (fst x) = length password_seq /\
              forall j, (j < k)%nat -> (j < length password_seq)%nat ->
                        In (nth j (fst x) Byte.x00) alphabeth)).
  - split; [reflexivity |]. intros j Hj. lia.
  - intros k [pw g] Hk [Hlen Hin]. cbn [fst] in *.
    destruct (RandomGen.nextInt8 createNewRandSequence g) as [b g'].
    cbn [fst]. rewrite List.upd_length. split; [exact Hlen |].
    intros j Hj Hjl. rewrite Nat2Z.id.
    destruct (Nat.eq_dec j k) as [-> | Hne].
    + rewrite nth_upd_same by lia. apply alphabeth_at_in.
    + rewrite nth_upd_diff by exact Hne. apply Hin; lia.
Qed.

End MorePasswords.

Section MoreSynchro.
Import RandomGen.

Lemma shl_int_x86_low i :
  0 <= i < 31 -> uint64 (shl_int_x86 1 i) = Z.shiftl 1 i.
Proof.
  intros Hi. unfold shl_int_x86, int32, uint64.
  rewrite (Z.mod_small i 32) by lia. rewrite Z.shiftl_1_l.
  assert (H31 : 0 < 2 ^ i < 2 ^ 31)
    by (split; [apply Z.pow_pos_nonneg; lia | apply Z.pow_lt_mono_r; lia]).
  change (2 ^ 31) with 2147483648 in *.
  rewrite (Z.mod_small (2 ^ i + 2147483648)) by lia.
  replace (2 ^ i + 2147483648 - 2147483648) with (2 ^ i) by lia.
  apply Z.mod_small. lia.
Qed.

Lemma shl_int_x86_31 : uint64 (shl_int_x86 1 31) = 0xFFFFFFFF80000000.
Proof. reflexivity. Qed.

Lemma shl_int_x86_period i : shl_int_x86 1 (32 + i) = shl_int_x86 1 i.
Proof.
  unfold shl_int_x86. replace (32 + i) with (i + 1 * 32) by lia.
  rewrite Z.mod_add by lia. reflexivity.
Qed.

Lemma x86_count_32 S :
  Z.of_nat
    (length (filter (fun i => negb (Z.land S (uint64 (shl_int_x86 1 i)) =? 0))
               (upto 32)))
  = popcount31 S + high_bits_set S.
Proof.
  change 32%nat with (Datatypes.S 31) at 1. rewrite upto_S, filter_app, length_app.
  rewrite Nat2Z.inj_add. unfold popcount31, high_bits_set. f_equal.
  - apply f_equal. apply filter_ext_in_length. intros i Hi.
    apply in_upto in Hi. rewrite shl_int_x86_low by lia.
    rewrite land_bit by lia. apply negb_involutive.
  - cbn [filter]. change (Z.of_nat 31) with 31. rewrite shl_int_x86_31.
    destruct (Z.land S 0xFFFFFFFF80000000 =? 0); reflexivity.
Qed.

Lemma isCurrentS_x86_count S :
  for_each (upto 64)
    (fun zero i =>
       if negb (Z.land S (uint64 (shl_int_x86 1 i)) =? 0) then uint8 (zero + 1)
       else zero)
    0
  = 2 * (popcount31 S + high_bits_set S).
Proof.
  unfold for_each.
  rewrite (count_loop
             (fun i => negb (Z.land S (uint64 (shl_int_x86 1 i)) =? 0)))
    by (cbn; lia).
  change 64%nat with (32 + 32)%nat.
  rewrite upto_add, filter_app, length_app, Nat2Z.inj_add.
  rewrite filter_map_length.
  rewrite (filter_ext_in_length
             (fun x => negb (Z.land S (uint64 (shl_int_x86 1 (Z.of_nat 32 + x)))
                             =? 0))
             (fun i => negb (Z.land S (uint64 (shl_int_x86 1 i)) =? 0)))
    by (intros x _; change (Z.of_nat 32) with 32;
        rewrite shl_int_x86_period; reflexivity).
  rewrite x86_count_32. lia.
Qed.

Lemma popcount31_range S : 0 <= popcount31 S <= 31.
Proof.
  unfold popcount31. pose proof (filter_length_le (Z.testbit S) (upto 31)) as H.
  unfold upto in H at 2. rewrite length_map, length_seq in H. lia.
Qed.

End MoreSynchro.

Section MoreNextPassword.
Import PasswordGen.
Context {W : Type}.
Variable createNewPasswordSeq : state W -> state W.

Lemma getChar_no_refill st :
  0 <= curr_pos st < seq_len ->
  getChar createNewPasswordSeq st
  = (nth (Z.to_nat (curr_pos st)) (password_seq st) Byte.x00,
     mk_state (password_seq st) (curr_pos st + 1) (rg st)).
Proof.
  intros H. unfold getChar.
  destruct (Z.eqb_spec (curr_pos st) seq_len) as [E | _]; [lia |].
  cbv zeta. unfold uint32. rewrite Z.mod_small; [reflexivity |].
  change seq_len with 1200 in H. lia.
Qed.

Lemma firstn_S_skipn {X : Type} (d : X) (l : list X) (p k : nat) :
  (p + k < length l)%nat ->
  firstn (S k) (skipn p l) = firstn k (skipn p l) ++ [nth (p + k) l d].
Proof.
  intros H. rewrite <- (firstn_skipn k (skipn p l)) at 1.
  rewrite firstn_app, firstn_firstn, length_firstn, length_skipn.
  replace (Nat.min (S k) k) with k by lia.
  replace (S k - Nat.min k (length l - p))%nat with 1%nat by lia.
  f_equal. rewrite skipn_skipn.
  rewrite (skipn_nth_cons d l (k + p)) by lia.
  cbn [firstn]. rewrite (Nat.add_comm k p). reflexivity.
Qed.

Lemma upd_app_repeat {X : Type} (d c : X) (a : list X) (m : nat) :
  List.upd (a ++ repeat d (S m)) (length a) c = (a ++ [c]) ++ repeat d m.
Proof.
  apply (nth_ext _ _ d d).
  - rewrite List.upd_length, !length_app, !repeat_length. cbn [length]. lia.
  - intros n Hn. rewrite List.upd_length, length_app, repeat_length in Hn.
    destruct (Nat.eq_dec n (length a)) as [-> | Hne].
    + rewrite nth_upd_same
        by (rewrite length_app, repeat_length; lia).
      rewrite app_nth1 by (rewrite length_app; cbn [length]; lia).
      rewrite app_nth2 by lia. rewrite Nat.sub_diag. reflexivity.
    + rewrite nth_upd_diff by exact Hne.
      destruct (Nat.lt_ge_cases n (length a)) as [Hlt | Hge].
      * rewrite app_nth1 by lia.
        rewrite app_nth1 by (rewrite length_app; cbn [length]; lia).
        rewrite app_nth1 by lia. reflexivity.
      * rewrite app_nth2 by lia.
        rewrite (app_nth2 (a ++ [c]))
          by (rewrite length_app; cbn [length]; lia).
        rewrite !nth_repeat by (rewrite ?length_app; cbn [length]; lia).
        reflexivity.
Qed.

Lemma nextPassword_slice st (password_len : Z) :
  length (password_seq st) = Z.to_nat seq_len ->
  0 <= curr_pos st -> 0 <= password_len ->
  curr_pos st + password_len <= seq_len ->
  nextPassword createNewPasswordSeq st password_len
  = (firstn (Z.to_nat password_len)
       (skipn (Z.to_nat (curr_pos st)) (password_seq st)) ++ [Byte.x00],
     mk_state (password_seq st) (curr_pos st + password_len) (rg st)).
Proof.
  intros Hlen Hpos Hn Hend. destruct st as [pw pos g].
  cbn [password_seq curr_pos rg] in *. change seq_len with 1200 in *.
  unfold nextPassword. unfold uint32 at 1.
  rewrite Z.mod_small by lia.
  replace (Z.to_nat (password_len + 1)) with (S (Z.to_nat password_len))
    by lia.
  set (n := Z.to_nat password_len).
  assert (Hinv :
    let r :=
      for_each (upto n)
        (fun '(res, st) i =>
           let '(c, st) := getChar createNewPasswordSeq st in
           (List.upd res (Z.to_nat i) c, st))
        (repeat Byte.x00 (S n), mk_state pw pos g) in
    r = (firstn n (skipn (Z.to_nat pos) pw) ++ repeat Byte.x00 (S n - n),
         mk_state pw (pos + Z.of_nat n) g)).
  { cbv zeta.
    apply (for_each_upto_inv
             (fun k (x : list byte * state W) =>
                x = (firstn k (skipn (Z.to_nat pos) pw)
                       ++ repeat Byte.x00 (S n - k),
                     mk_state pw (pos + Z.of_nat k) g))).
    - cbn [firstn app]. rewrite Nat.sub_0_r, Z.add_0_r. reflexivity.
    - intros k x Hk ->.
      rewrite getChar_no_refill
        by (cbn [curr_pos]; change seq_len with 1200; lia).
      cbn [curr_pos password_seq rg]. rewrite Nat2Z.id.
      f_equal; [| f_equal; lia].
      replace (S n - k)%nat with (S (n - k)) by lia.
      replace (S n - S k)%nat with (n - k)%nat by lia.
      assert (Hk' : length (firstn k (skipn (Z.to_nat pos) pw)) = k)
        by (rewrite length_firstn, length_skipn; lia).
      pose proof (upd_app_repeat Byte.x00
                    (nth (Z.to_nat (pos + Z.of_nat k)) pw Byte.x00)
                    (firstn k (skipn (Z.to_nat pos) pw)) (n - k)) as Hu.
      rewrite Hk' in Hu. rewrite Hu. f_equal.
      rewrite (firstn_S_skipn Byte.x00) by lia. f_equal. f_equal. f_equal.
      lia. }
  cbv zeta in Hinv. rewrite Hinv.
  replace (S n - n)%nat with 1%nat by lia. cbn [repeat].
  f_equal. f_equal. lia.
Qed.

End MoreNextPassword.

(** * Further properties of the code *)

(** X1. For every key and substitution table the encrypt cycle [cycle_32Z]
    is a permutation of the 64-bit blocks: its result is a 64-bit block, it
    undoes the decrypt cycle [cycle_32R], and two different blocks never
    encrypt to the same block. *)
Theorem cycle_32Z_permutation (cr : Cryptographer.t) (a b : Z) :
  0 <= a < 2 ^ 64 -> 0 <= b < 2 ^ 64 ->
  0 <= Cryptographer.cycle_32Z cr a < 2 ^ 64 /\
  0 <= Cryptographer.cycle_32R cr a < 2 ^ 64 /\
  Cryptographer.cycle_32Z cr (Cryptographer.cycle_32R cr a) = a /\
  (Cryptographer.cycle_32Z cr a = Cryptographer.cycle_32Z cr b -> a = b).
Proof.
  intros Ha Hb.
  split; [apply cycle_32Z_range |]. split; [apply cycle_32R_range |].
  split; [apply cycle_32Z_32R, Ha |].
  intros E. rewrite <- (cycle_32R_32Z cr a Ha), <- (cycle_32R_32Z cr b Hb).
  generalize dependent (Cryptographer.cycle_32Z cr a).
  intros z E. rewrite E. reflexivity.
Qed.

Lemma cycle_32Z_permutation_witness :
  0 <= 1 < 2 ^ 64 /\ 0 <= 2 < 2 ^ 64 /\
  0 <= Cryptographer.cycle_32Z cr_example 1 < 2 ^ 64 /\
  0 <= Cryptographer.cycle_32R cr_example 1 < 2 ^ 64 /\
  Cryptographer.cycle_32Z cr_example (Cryptographer.cycle_32R cr_example 1) = 1 /\
  (Cryptographer.cycle_32Z cr_example 1 = Cryptographer.cycle_32Z cr_example 2
   -> 1 = 2).
Proof.
  split; [lia |]. split; [lia |].
  apply (cycle_32Z_permutation cr_example 1 2); lia.
Defined.

(** X2. One round [mainStep] keeps a block inside 64 bits, moves the low
    half of its input to the high half of its result, and is one-to-one on
    64-bit blocks, for every key word index and every substitution table
    (a permutation or not). *)
Theorem mainStep_one_to_one (cr : Cryptographer.t) (a b : Z) (k : Z) :
  0 <= a < 2 ^ 64 -> 0 <= b < 2 ^ 64 ->
  0 <= Cryptographer.mainStep cr a k < 2 ^ 64 /\
  hi (Cryptographer.mainStep cr a k) = lo a /\
  (Cryptographer.mainStep cr a k = Cryptographer.mainStep cr b k -> a = b).
Proof.
  intros Ha Hb. split; [apply mainStep_range |].
  split; [apply hi_mainStep |]. apply mainStep_inj; assumption.
Qed.

Lemma mainStep_one_to_one_witness :
  0 <= 1 < 2 ^ 64 /\ 0 <= 2 < 2 ^ 64 /\
  0 <= Cryptographer.mainStep cr_example 1 0 < 2 ^ 64 /\
  hi (Cryptographer.mainStep cr_example 1 0) = lo 1 /\
  (Cryptographer.mainStep cr_example 1 0 = Cryptographer.mainStep cr_example 2 0
   -> 1 = 2).
Proof.
  split; [lia |]. split; [lia |].
  apply (mainStep_one_to_one cr_example 1 2 0); lia.
Defined.

(** X3. [simpleReplace] the other way round: on a buffer whose length is a
    multiple of 8, decrypting and then encrypting the result gives the
    buffer back, and both calls return [true]. *)
Theorem simpleReplace_encrypt_decrypt (cr : Cryptographer.t) (data : list byte) :
  (length data mod 8 = 0)%nat ->
  fst (Cryptographer.simpleReplace cr data false) = true /\
  Cryptographer.simpleReplace cr
    (snd (Cryptographer.simpleReplace cr data false)) true = (true, data).
Proof.
  intros Hmod. rewrite (simpleReplace_blocks cr data false Hmod).
  fold (simple_blocks cr false data). cbn [fst snd].
  split; [reflexivity |].
  rewrite simpleReplace_blocks by (rewrite simple_blocks_length; exact Hmod).
  fold (simple_blocks cr true (simple_blocks cr false data)).
  rewrite simple_blocks_roundtrip_back by exact Hmod. reflexivity.
Qed.

Lemma simpleReplace_encrypt_decrypt_witness :
  (length sixteen_bytes mod 8 = 0)%nat /\
  fst (Cryptographer.simpleReplace cr_example sixteen_bytes false) = true /\
  Cryptographer.simpleReplace cr_example
    (snd (Cryptographer.simpleReplace cr_example sixteen_bytes false)) true
  = (true, sixteen_bytes).
Proof.
  split; [reflexivity |].
  apply (simpleReplace_encrypt_decrypt cr_example sixteen_bytes). reflexivity.
Defined.

(** X4. [simpleReplace] works block by block: the result on two buffers put
    one after the other, each of a length that is a multiple of 8, is the
    two results put one after the other, and the length of a buffer is
    kept.  So equal 8-byte blocks of the input give equal blocks of the
    output, wherever they stand. *)
Theorem simpleReplace_blockwise (cr : Cryptographer.t) (a b : list byte)
  (_encoding : bool) :
  (length a mod 8 = 0)%nat -> (length b mod 8 = 0)%nat ->
  snd (Cryptographer.simpleReplace cr (a ++ b) _encoding)
  = snd (Cryptographer.simpleReplace cr a _encoding)
    ++ snd (Cryptographer.simpleReplace cr b _encoding) /\
  length (snd (Cryptographer.simpleReplace cr a _encoding)) = length a.
Proof.
  intros Ha Hb.
  rewrite !snd_simpleReplace by (assumption || apply mod8_app; assumption).
  split; [apply simple_blocks_app, Ha | apply simple_blocks_length, Ha].
Qed.

Lemma simpleReplace_blockwise_witness :
  (length sixteen_bytes mod 8 = 0)%nat /\
  (length (firstn 8 sixteen_bytes) mod 8 = 0)%nat /\
  snd (Cryptographer.simpleReplace cr_example
         (sixteen_bytes ++ firstn 8 sixteen_bytes) true)
  = snd (Cryptographer.simpleReplace cr_example sixteen_bytes true)
    ++ snd (Cryptographer.simpleReplace cr_example (firstn 8 sixteen_bytes) true) /\
  length (snd (Cryptographer.simpleReplace cr_example sixteen_bytes true))
  = length sixteen_bytes.
Proof.
  split; [reflexivity |]. split; [reflexivity |].
  apply (simpleReplace_blockwise cr_example sixteen_bytes
           (firstn 8 sixteen_bytes) true); reflexivity.
Defined.

(** X5. [gamming] and [gammingWF] return [true] and keep the length of the
    buffer, for every key, table, synchro, direction and buffer, the empty
    one and those with a last step shorter than 8 bytes included. *)
Theorem gamming_modes_keep_length (cr : Cryptographer.t) (data : list byte)
  (S : Z) (_encoding : bool) :
  fst (fst (Cryptographer.gamming cr data S)) = true /\
  length (buffer_of (Cryptographer.gamming cr data S)) = length data /\
  fst (fst (Cryptographer.gammingWF cr data S _encoding)) = true /\
  length (buffer_of (Cryptographer.gammingWF cr data S _encoding))
  = length data.
Proof.
  split; [| split; [apply length_buffer_gamming |
                    split; [| apply length_buffer_gammingWF]]].
  - rewrite gamming_mode. cbv zeta.
    destruct (stream_mode _ _ data _) as [out a]. reflexivity.
  - rewrite gammingWF_mode.
    destruct (stream_mode _ _ data S) as [out a]. reflexivity.
Qed.

(** X6. [gammingWF] the other way round: for every buffer, of any length,
    decrypting from a synchro and then encrypting the result from the same
    synchro gives the buffer back. *)
Theorem gammingWF_encrypt_decrypt (cr : Cryptographer.t) (S0 : Z)
  (data : list byte) :
  buffer_of
    (Cryptographer.gammingWF cr
       (buffer_of (Cryptographer.gammingWF cr data S0 false)) S0 true)
  = data.
Proof.
  rewrite !buffer_gammingWF. apply gammingWF_stream_roundtrip_back.
Qed.

(** X7. The synchro [gamming] leaves does not depend on the bytes of the
    buffer, only on its length: it is the encrypted synchro [cycle_32Z S]
    whose two 32-bit halves have been advanced once for each pass of the
    loop, that is [(length - 1) / 8] times; for a buffer of at most 8 bytes
    (here the first 8 bytes of any buffer) it is [cycle_32Z S] itself. *)
Theorem gamming_synchro (cr : Cryptographer.t) (data : list byte) (S : Z) :
  sync_of (Cryptographer.gamming cr data S)
  = tk_gamming
      (Nat.iter (loop_passes (length data)) gamming_step
         (Cryptographer.cycle_32Z cr S,
          lo (Cryptographer.cycle_32Z cr S),
          hi (Cryptographer.cycle_32Z cr S))) /\
  sync_of (Cryptographer.gamming cr (firstn 8 data) S)
  = Cryptographer.cycle_32Z cr S.
Proof.
  split; [apply sync_gamming |].
  rewrite sync_gamming, loop_passes_short
    by (rewrite length_firstn; apply Nat.le_min_l).
  reflexivity.
Qed.

(** X8. The synchro [gammingWF] leaves: for a buffer of at most 8 bytes the
    synchro passed in, unchanged; for a longer buffer the ciphertext block
    of the last pass of the loop, which is the step before the last one of
    the buffer (the block produced when encrypting, the block consumed when
    decrypting). *)
Theorem gammingWF_synchro (cr : Cryptographer.t) (data : list byte) (S : Z)
  (_encoding : bool) :
  let r := Cryptographer.gammingWF cr data S _encoding in
  sync_of r
  = if Nat.leb (length data) 8 then S
    else le_combine
           (nth_chunk (loop_passes (length data) - 1)
              (if _encoding then buffer_of r else data)).
Proof.
  cbv zeta. rewrite sync_gammingWF, buffer_gammingWF.
  apply gammingWF_stream_sync.
Qed.

(** X9. [gammingWF] over two buffers put one after the other, the first
    one not empty and of a length that is a multiple of 8: the result is the
    result on the first buffer followed by the result on the second one
    started from the last ciphertext block of the first (produced when
    encrypting, consumed when decrypting). *)
Theorem gammingWF_concat (cr : Cryptographer.t) (a b : list byte) (S : Z)
  (_encoding : bool) :
  (length a mod 8 = 0)%nat -> a <> [] ->
  let ra := Cryptographer.gammingWF cr a S _encoding in
  let last_block :=
    nth_chunk (length a / 8 - 1) (if _encoding then buffer_of ra else a) in
  buffer_of (Cryptographer.gammingWF cr (a ++ b) S _encoding)
  = buffer_of ra
    ++ buffer_of (Cryptographer.gammingWF cr b (le_combine last_block) _encoding).
Proof.
  intros Hmod Hne. cbv zeta. rewrite !buffer_gammingWF.
  apply gammingWF_stream_app; assumption.
Qed.

Lemma gammingWF_concat_witness :
  (length sixteen_bytes mod 8 = 0)%nat /\ sixteen_bytes <> [] /\
  let ra := Cryptographer.gammingWF cr_example sixteen_bytes 0 true in
  let last_block :=
    nth_chunk (length sixteen_bytes / 8 - 1) (buffer_of ra) in
  buffer_of (Cryptographer.gammingWF cr_example
               (sixteen_bytes ++ [Byte.x2a]) 0 true)
  = buffer_of ra
    ++ buffer_of (Cryptographer.gammingWF cr_example [Byte.x2a]
                    (le_combine last_block) true).
Proof.
  split; [reflexivity |]. split; [discriminate |].
  apply (gammingWF_concat cr_example sixteen_bytes [Byte.x2a] 0 true);
    [reflexivity | discriminate].
Defined.

(** X10. The MAC [imiIns] is a 32-bit value, it is 0 for the empty buffer
    whatever the key, and zero bytes added to a buffer that is not empty do
    not change it as long as they stay inside the last 8-byte step: the
    last step is padded with zeros, so the length of the data is not
    covered by the MAC. *)
Theorem imiIns_zero_padding (cr : Cryptographer.t) (data : list byte)
  (k : nat) :
  data <> [] -> ((length data - 1) mod 8 + 1 + k <= 8)%nat ->
  Cryptographer.imiIns cr (data ++ repeat Byte.x00 k)
  = Cryptographer.imiIns cr data /\
  0 <= Cryptographer.imiIns cr data < 2 ^ 32 /\
  Cryptographer.imiIns cr [] = 0.
Proof.
  intros Hne Hroom. split; [| split].
  - rewrite !imiIns_accumulate. f_equal. unfold MacSpec.accumulate.
    apply accumulate_zero_padding; assumption.
  - rewrite imiIns_accumulate. apply Z.mod_pos_bound. lia.
  - reflexivity.
Qed.

Lemma imiIns_zero_padding_witness :
  [Byte.x61; Byte.x62; Byte.x63] <> [] /\
  ((length [Byte.x61; Byte.x62; Byte.x63] - 1) mod 8 + 1 + 5 <= 8)%nat /\
  Cryptographer.imiIns cr_example
    ([Byte.x61; Byte.x62; Byte.x63] ++ repeat Byte.x00 5)
  = Cryptographer.imiIns cr_example [Byte.x61; Byte.x62; Byte.x63] /\
  0 <= Cryptographer.imiIns cr_example [Byte.x61; Byte.x62; Byte.x63] < 2 ^ 32 /\
  Cryptographer.imiIns cr_example [] = 0.
Proof.
  split; [discriminate |]. split; [cbn; lia |].
  apply (imiIns_zero_padding cr_example [Byte.x61; Byte.x62; Byte.x63] 5);
    [discriminate | cbn; lia].
Defined.

(** X11. After [init], with either value of [_rand], the key word [i] is
    the draw number [17 i] of the generator reduced modulo [2^32 - 1]: the
    word [0xffffffff] is never generated; and [init] takes [8 * 17 = 136]
    draws in all. *)
Theorem init_key_words (rng : Type) (srandom : Z -> rng)
  (random : rng -> Z * rng) (cr : Cryptographer.t) (now : Z) (_rand : bool)
  (i : Z) :
  (forall g, 0 <= fst (random g)) -> shape cr -> 0 <= i < 8 ->
  let st := Cryptographer.init rng srandom random cr now _rand in
  let g0 := if _rand then srandom now else srandom 0 in
  Cryptographer.key_at (fst st) i
  = draw rng random (Z.to_nat (17 * i)) g0 mod 0xffffffff /\
  0 <= Cryptographer.key_at (fst st) i <= 0xfffffffe /\
  snd st = advance rng random 136 g0.
Proof.
  intros Hpos Hs Hi. cbv zeta.
  pose proof (init_keyed rng srandom random cr now _rand Hs (Z.to_nat i)
                ltac:(lia)) as Hk.
  rewrite Z2Nat.id in Hk by lia.
  replace (17 * Z.to_nat i)%nat with (Z.to_nat (17 * i)) in Hk by lia.
  rewrite Hk.
  destruct (key_word_range rng random
              (if _rand then srandom now else srandom 0)
              (Z.to_nat (17 * i)) Hpos) as [He Hr].
  split; [exact He |]. split; [exact Hr |].
  apply (init_filled rng srandom random cr now _rand Hs).
Qed.

Lemma init_key_words_witness :
  (forall g, 0 <= fst (lcg_random g)) /\ shape Cryptographer.default /\
  0 <= 3 < 8 /\
  let st := Cryptographer.init Z lcg_srandom lcg_random
              Cryptographer.default 0 false in
  let g0 := lcg_srandom 0 in
  Cryptographer.key_at (fst st) 3
  = draw Z lcg_random (Z.to_nat (17 * 3)) g0 mod 0xffffffff /\
  0 <= Cryptographer.key_at (fst st) 3 <= 0xfffffffe /\
  snd st = advance Z lcg_random 136 g0.
Proof.
  assert (Hpos : forall g, 0 <= fst (lcg_random g)).
  { intros g. unfold lcg_random. cbn [fst]. apply Z.mod_pos_bound. lia. }
  assert (Hs : shape Cryptographer.default).
  { unfold shape, Cryptographer.default.
    cbn [Cryptographer.m_key Cryptographer.m_replace_table].
    split; [reflexivity |]. split; [reflexivity |].
    apply Forall_forall. intros row Hrow. apply repeat_spec in Hrow.
    subst row. reflexivity. }
  split; [exact Hpos |]. split; [exact Hs |]. split; [lia |].
  apply (init_key_words Z lcg_srandom lcg_random Cryptographer.default
           0 false 3 Hpos Hs); lia.
Defined.

(** X12. No row of the substitution table [init] generates is a
    permutation of the 16 nibbles: the 16 entries of a row lie in [0,14], so
    a row always holds some value twice. *)
Theorem init_rows_repeat (rng : Type) (srandom : Z -> rng)
  (random : rng -> Z * rng) (cr : Cryptographer.t) (now : Z) (_rand : bool)
  (i : nat) :
  (forall g, 0 <= fst (random g)) -> shape cr -> (i < 8)%nat ->
  let cr' := fst (Cryptographer.init rng srandom random cr now _rand) in
  ~ NoDup (nth i (Cryptographer.m_replace_table cr') []).
Proof.
  intros Hpos Hs Hi. cbv zeta. intros Hnd.
  destruct (init_filled rng srandom random cr now _rand Hs) as (Hs' & _ & _).
  pose proof (shape_row _ i Hs' Hi) as Hlen.
  pose proof (init_entry rng srandom random cr now _rand i) as Hentry.
  set (row := nth i (Cryptographer.m_replace_table
                       (fst (Cryptographer.init rng srandom random cr now
                               _rand))) []) in *.
  assert (Hincl : incl row row_values).
  { intros v Hv. destruct (In_nth _ _ 0 Hv) as (j & Hj & <-).
    rewrite (Hentry j Hs Hi) by lia.
    apply in_row_values, entry_range, Hpos. }
  pose proof (NoDup_incl_length Hnd Hincl) as Hle.
  rewrite Hlen, row_values_length in Hle. lia.
Qed.

Lemma init_rows_repeat_witness :
  (forall g, 0 <= fst (lcg_random g)) /\ shape Cryptographer.default /\
  (2 < 8)%nat /\
  let cr' := fst (Cryptographer.init Z lcg_srandom lcg_random
                    Cryptographer.default 0 true) in
  ~ NoDup (nth 2 (Cryptographer.m_replace_table cr') []).
Proof.
  assert (Hpos : forall g, 0 <= fst (lcg_random g)).
  { intros g. unfold lcg_random. cbn [fst]. apply Z.mod_pos_bound. lia. }
  assert (Hs : shape Cryptographer.default).
  { unfold shape, Cryptographer.default.
    cbn [Cryptographer.m_key Cryptographer.m_replace_table].
    split; [reflexivity |]. split; [reflexivity |].
    apply Forall_forall. intros row Hrow. apply repeat_spec in Hrow.
    subst row. reflexivity. }
  split; [exact Hpos |]. split; [exact Hs |]. split; [lia |].
  apply (init_rows_repeat Z lcg_srandom lcg_random Cryptographer.default
           0 true 2 Hpos Hs); lia.
Defined.

(** X13. [init] overwrites the whole key and the whole table: what it
    leaves does not depend on what the object held before.  With
    [_rand = false] it does not depend on the time either, so every call
    gives the same key and table; with [_rand = true] it depends on the
    time only. *)
Theorem init_overwrites (rng : Type) (srandom : Z -> rng)
  (random : rng -> Z * rng) (cr1 cr2 : Cryptographer.t) (now1 now2 : Z) :
  shape cr1 -> shape cr2 ->
  Cryptographer.init rng srandom random cr1 now1 false
  = Cryptographer.init rng srandom random cr2 now2 false /\
  Cryptographer.init rng srandom random cr1 now1 true
  = Cryptographer.init rng srandom random cr2 now1 true.
Proof.
  intros Hs1 Hs2.
  split; apply init_same_seed; (assumption || reflexivity).
Qed.

Lemma init_overwrites_witness :
  shape Cryptographer.default /\ shape cr_example /\
  Cryptographer.init Z lcg_srandom lcg_random Cryptographer.default 1 false
  = Cryptographer.init Z lcg_srandom lcg_random cr_example 2 false /\
  Cryptographer.init Z lcg_srandom lcg_random Cryptographer.default 1 true
  = Cryptographer.init Z lcg_srandom lcg_random cr_example 1 true.
Proof.
  assert (Hs1 : shape Cryptographer.default).
  { unfold shape, Cryptographer.default.
    cbn [Cryptographer.m_key Cryptographer.m_replace_table].
    split; [reflexivity |]. split; [reflexivity |].
    apply Forall_forall. intros row Hrow. apply repeat_spec in Hrow.
    subst row. reflexivity. }
  assert (Hs2 : shape cr_example).
  { unfold shape, cr_example.
    cbn [Cryptographer.m_key Cryptographer.m_replace_table].
    split; [reflexivity |]. split; [reflexivity |].
    apply Forall_forall. intros row Hrow. apply repeat_spec in Hrow.
    subst row. reflexivity. }
  split; [exact Hs1 |]. split; [exact Hs2 |].
  apply (init_overwrites Z lcg_srandom lcg_random Cryptographer.default
           cr_example 1 2 Hs1 Hs2).
Defined.

(** X14. [nextInt64] is two [nextInt32] in a row, the first one giving the
    low 32 bits and the second one the high 32 bits, whatever
    [createNewRandSequence] does when the sequence runs out on the way. *)
Theorem nextInt64_two_nextInt32 (W : Type)
  (createNewRandSequence : RandomGen.state W -> RandomGen.state W)
  (st : RandomGen.state W) :
  RandomGen.nextInt64 createNewRandSequence st
  = let '(a, st) := RandomGen.nextInt32 createNewRandSequence st in
    let '(b, st) := RandomGen.nextInt32 createNewRandSequence st in
    (Z.lor a (Z.shiftl b 32), st).
Proof. apply nextInt64_split. Qed.

(** X15. With at least 4 bytes left in the sequence, [nextInt32] makes no
    new sequence: it returns the next 4 bytes of [rand_seq] put together
    with the first byte lowest, leaves [rand_seq] as it is and moves
    [curr_pos] on by 4. *)
Theorem nextInt32_reads_sequence (W : Type)
  (createNewRandSequence : RandomGen.state W -> RandomGen.state W)
  (st : RandomGen.state W) :
  (RandomGen.curr_pos st + 4 <= length (RandomGen.rand_seq st))%nat ->
  RandomGen.nextInt32 createNewRandSequence st
  = (le_combine (firstn 4 (skipn (RandomGen.curr_pos st)
                             (RandomGen.rand_seq st))),
     RandomGen.mk_state (RandomGen.rand_seq st) (RandomGen.curr_pos st + 4)
       (RandomGen.others st)).
Proof. apply nextInt32_buffer. Qed.

Lemma nextInt32_reads_sequence_witness :
  let st := RandomGen.mk_state sixteen_bytes 5 tt in
  (RandomGen.curr_pos st + 4 <= length (RandomGen.rand_seq st))%nat /\
  RandomGen.nextInt32 (fun st => st) st
  = (le_combine (firstn 4 (skipn (RandomGen.curr_pos st)
                             (RandomGen.rand_seq st))),
     RandomGen.mk_state (RandomGen.rand_seq st) (RandomGen.curr_pos st + 4)
       (RandomGen.others st)).
Proof.
  cbv zeta. split; [cbn; lia |].
  apply (nextInt32_reads_sequence unit (fun st => st)
           (RandomGen.mk_state sixteen_bytes 5 tt)).
  cbn. lia.
Defined.

(** X16. [test1] counts the set bits of [rand_seq] (its counter is named
    [zero], but it counts the ones) and passes exactly when their number is
    between 9725 and 10275, for every sequence whose number of bits fits a
    [uint32]. *)
Theorem test1_counts_set_bits (W : Type) (st : RandomGen.state W) :
  Z.of_nat (length (RandomGen.rand_seq st)) * 8 < 2 ^ 32 ->
  RandomGen.test1 st
  = (9725 <=? set_bits (RandomGen.rand_seq st))
    && (set_bits (RandomGen.rand_seq st) <=? 10275).
Proof. apply test1_count. Qed.

Lemma test1_counts_set_bits_witness :
  let st := RandomGen.mk_state sixteen_bytes 0 tt in
  Z.of_nat (length (RandomGen.rand_seq st)) * 8 < 2 ^ 32 /\
  RandomGen.test1 st
  = (9725 <=? set_bits (RandomGen.rand_seq st))
    && (set_bits (RandomGen.rand_seq st) <=? 10275).
Proof.
  cbv zeta. split; [cbn; lia |].
  apply (test1_counts_set_bits unit (RandomGen.mk_state sixteen_bytes 0 tt)).
  cbn. lia.
Defined.

(** X17. Every character [createNewPasswordSeq] stores is a character of
    [alphabeth], whatever byte the generator gives; but the 256 byte values
    are not spread evenly over the 62 characters: each of the first 8
    characters, the digits 0 to 7, is the image of 5 byte values, each of
    the other 54 characters of 4. *)
Theorem alphabeth_at_bias (b : Z) :
  In (PasswordGen.alphabeth_at b) PasswordGen.alphabeth /\
  map preimages PasswordGen.alphabeth = repeat 5%nat 8 ++ repeat 4%nat 54.
Proof.
  split; [apply alphabeth_at_in |]. vm_compute. reflexivity.
Qed.

(** X18. One pass of the loop of [createNewPasswordSeq] over a sequence of
    [seq_len = 1200] characters keeps its length and leaves characters of
    [alphabeth] only, whatever the sequence held before and whatever the
    generator draws. *)
Theorem fill_alphabeth (W : Type)
  (createNewRandSequence : RandomGen.state W -> RandomGen.state W)
  (password_seq : list byte) (rg : RandomGen.state W) :
  length password_seq = Z.to_nat PasswordGen.seq_len ->
  let password_seq' :=
    fst (PasswordGen.fill createNewRandSequence password_seq rg) in
  length password_seq' = 1200%nat /\
  Forall (fun c => In c PasswordGen.alphabeth) password_seq'.
Proof.
  intros Hlen. cbv zeta. unfold PasswordGen.fill.
  destruct (fill_inv createNewRandSequence password_seq rg
              (Z.to_nat PasswordGen.seq_len)) as [Hl Hin].
  split; [rewrite Hl, Hlen; reflexivity |].
  apply Forall_forall. intros c Hc.
  destruct (In_nth _ _ Byte.x00 Hc) as (j & Hj & <-).
  apply Hin; lia.
Qed.

Lemma fill_alphabeth_witness :
  length (repeat Byte.x00 1200) = Z.to_nat PasswordGen.seq_len /\
  let password_seq' :=
    fst (PasswordGen.fill (fun st => st) (repeat Byte.x00 1200)
           (RandomGen.mk_state sixteen_bytes 0 tt)) in
  length password_seq' = 1200%nat /\
  Forall (fun c => In c PasswordGen.alphabeth) password_seq'.
Proof.
  split; [reflexivity |].
  apply (fill_alphabeth unit (fun st => st) (repeat Byte.x00 1200)
           (RandomGen.mk_state sixteen_bytes 0 tt)).
  reflexivity.
Defined.

(** X19. Which synchros [isCurrentS] lets pass, with the shift of the x86
    instruction, whose count is taken modulo 32 and whose result for bit 31
    is sign-extended: the loop counts each of the bits 0..30 twice and
    counts 2 more when any of the bits 31..63 is set, and exactly the
    synchros with 16 or 17 on that count pass, whatever the bits 32..63 are
    one by one. *)
Theorem isCurrentS_accepted (S : Z) :
  RandomGen.isCurrentS RandomGen.shl_int_x86 S
  = (16 <=? popcount31 S + high_bits_set S)
    && (popcount31 S + high_bits_set S <=? 17).
Proof.
  rewrite isCurrentS_accept, isCurrentS_x86_count.
  pose proof (popcount31_range S) as Hr.
  assert (Hh : 0 <= high_bits_set S <= 1)
    by (unfold high_bits_set; destruct (_ =? 0); lia).
  rewrite accept_count_band by lia.
  destruct (Z.leb_spec 16 (popcount31 S + high_bits_set S));
    destruct (Z.leb_spec (popcount31 S + high_bits_set S) 17);
    destruct (Z.leb_spec 32 (2 * (popcount31 S + high_bits_set S)));
    destruct (Z.leb_spec (2 * (popcount31 S + high_bits_set S)) 35);
    (reflexivity || lia).
Qed.

(** X20. A password is the next [password_len] characters of
    [password_seq] followed by a zero byte: when that many characters are
    left in the sequence, [nextPassword] makes no new sequence, returns
    them in order and moves [curr_pos] on by [password_len], so that two
    passwords in a row are two pieces of the sequence that follow each
    other. *)
Theorem nextPassword_reads_sequence (W : Type)
  (createNewPasswordSeq : PasswordGen.state W -> PasswordGen.state W)
  (st : PasswordGen.state W) (password_len : Z) :
  length (PasswordGen.password_seq st) = Z.to_nat PasswordGen.seq_len ->
  0 <= PasswordGen.curr_pos st -> 0 <= password_len ->
  PasswordGen.curr_pos st + password_len <= PasswordGen.seq_len ->
  PasswordGen.nextPassword createNewPasswordSeq st password_len
  = (firstn (Z.to_nat password_len)
       (skipn (Z.to_nat (PasswordGen.curr_pos st))
          (PasswordGen.password_seq st)) ++ [Byte.x00],
     PasswordGen.mk_state (PasswordGen.password_seq st)
       (PasswordGen.curr_pos st + password_len) (PasswordGen.rg st)).
Proof. apply nextPassword_slice. Qed.

Lemma nextPassword_reads_sequence_witness :
  let st := PasswordGen.mk_state (repeat Byte.x61 1200) 7
              (RandomGen.mk_state sixteen_bytes 0 tt) in
  length (PasswordGen.password_seq st) = Z.to_nat PasswordGen.seq_len /\
  0 <= PasswordGen.curr_pos st /\ 0 <= 8 /\
  PasswordGen.curr_pos st + 8 <= PasswordGen.seq_len /\
  PasswordGen.nextPassword (fun st => st) st 8
  = (firstn (Z.to_nat 8)
       (skipn (Z.to_nat (PasswordGen.curr_pos st))
          (PasswordGen.password_seq st)) ++ [Byte.x00],
     PasswordGen.mk_state (PasswordGen.password_seq st)
       (PasswordGen.curr_pos st + 8) (PasswordGen.rg st)).
Proof.
  cbv zeta.
  split; [reflexivity |]. split; [cbn; lia |]. split; [lia |].
  split; [cbn; lia |].
  apply (nextPassword_reads_sequence unit (fun st => st)
           (PasswordGen.mk_state (repeat Byte.x61 1200) 7
              (RandomGen.mk_state sixteen_bytes 0 tt)) 8);
    [reflexivity | cbn; lia | lia | cbn; lia].
Defined.

(** X21. The cycle [cycle_16Z] of the MAC keeps a block inside 64 bits and
    is one-to-one on 64-bit blocks, for every key and table: two different
    accumulators never meet after a step of [imiIns] on the same block. *)
Theorem cycle_16Z_one_to_one (cr : Cryptographer.t) (a b : Z) :
  0 <= a < 2 ^ 64 -> 0 <= b < 2 ^ 64 ->
  0 <= Cryptographer.cycle_16Z cr a < 2 ^ 64 /\
  (Cryptographer.cycle_16Z cr a = Cryptographer.cycle_16Z cr b -> a = b).
Proof.
  intros Ha Hb. rewrite !cycle_16Z_unfold.
  split; [apply steps_range, Ha | apply steps_inj; assumption].
Qed.

Lemma cycle_16Z_one_to_one_witness :
  0 <= 1 < 2 ^ 64 /\ 0 <= 2 < 2 ^ 64 /\
  0 <= Cryptographer.cycle_16Z cr_example 1 < 2 ^ 64 /\
  (Cryptographer.cycle_16Z cr_example 1 = Cryptographer.cycle_16Z cr_example 2
   -> 1 = 2).
Proof.
  split; [lia |]. split; [lia |].
  apply (cycle_16Z_one_to_one cr_example 1 2); lia.
Defined.

(** X22. For every key/table, initial synchro [S0] and buffer of any length,
    [gamming] applied twice, the second time to the output of the first
    with the synchro set to the same [S0], gives the original buffer back;
    and the output is the data XORed byte by byte with the output for the
    zero buffer of the same length: the gamma does not depend on the
    data. *)
Theorem gamming_twice (cr : Cryptographer.t) (S0 : Z) (data : list byte) :
  buffer_of (Cryptographer.gamming cr
               (buffer_of (Cryptographer.gamming cr data S0)) S0)
  = data /\
  buffer_of (Cryptographer.gamming cr data S0)
  = xor_bytes data
      (buffer_of (Cryptographer.gamming cr (repeat Byte.x00 (length data)) S0)).
Proof.
  rewrite !buffer_gamming. split.
  - apply gamming_stream_twice.
  - apply gamming_stream_xor.
Qed.
